(** * Google-Drive sync engine of the Obsidian plugin (src/main.ts)

    A shallow embedding of the synchronisation engine of [MyPlugin]:
    the MIME table, the path arithmetic the engine relies on, the
    folder resolver [ensureDriveFolder], the uploader [uploadFile], the
    change detector inside [uploadObsidianFile], the tree walk
    [uploadFolderContents] and the orchestrator [syncWithGoogleDrive];
    beside them the callback of the sync command, the login exchange
    [exchangeCodeForTokens] and the handlers of the settings tab.

    Remote calls, vault reads, the clock and the plugin data store are
    effects.  They are threaded through an explicit state-and-exception
    monad whose state carries the plugin fields, the outside world, the
    content of data.json and the log of every call that was issued.

    Conventions of the embedding:
    - the id maps of the plugin are object literals: a finite map for
      the own properties, read through [Js.get] and [Js.read], which
      also see the members inherited from [Object.prototype], and
      tested with [Js.truthy] as the source tests them;
    - [saveData] and [loadData] are Obsidian's: [saveData(data)] writes
      its first argument to data.json in place of what was there and
      [loadData()] gives the content back, [null] when there is none;
      neither takes a key, and data.json is written by the plugin only;
    - [path] is Node's module with the POSIX separator;
    - times ([stat.mtime], [Date.now()]) are epoch milliseconds, in [Z];
    - the children of [vault.getRoot()] are an argument of the pass. *)

From Stdlib Require Import ZArith Ascii String List Bool Lia.
From stdpp Require Import base option list strings pretty gmap.

Local Open Scope string_scope.
Local Open Scope list_scope.


(** ** JavaScript values that reach the engine *)

Module Js.

(** What a property read such as [this.fileIds[p]] can produce: an own
    string, an own number or [null] (as [onload] copies them from the
    loaded data), a member inherited from [Object.prototype] (the maps
    are plain object literals), or [undefined]. *)
Inductive Val : Type :=
| Undefined
| Null
| Str (s : string)
| Num (n : Z)
| Inherited (member : string).

#[global] Instance Val_eq_dec : EqDecision Val.
Proof. solve_decision. Defined.

(** ToBoolean on these values: the empty string, zero, [undefined] and
    [null] are falsy, everything else is truthy. *)
Definition truthy (v : Val) : bool :=
  match v with
  | Undefined | Null => false
  | Str s => negb (String.eqb s "")
  | Num n => negb (n =? 0)%Z
  | Inherited _ => true
  end.

(** Property names every object literal inherits. *)
Definition prototype_members : list string :=
  [ "constructor"; "hasOwnProperty"; "isPrototypeOf"; "propertyIsEnumerable";
    "toLocaleString"; "toString"; "valueOf"; "__proto__";
    "__defineGetter__"; "__defineSetter__"; "__lookupGetter__";
    "__lookupSetter__" ].

(** [obj[key]] on an object literal used as a string-to-string map. *)
Definition get (obj : gmap string string) (key : string) : Val :=
  match obj !! key with
  | Some s => Str s
  | None => if bool_decide (key ∈ prototype_members) then Inherited key
            else Undefined
  end.

(** [obj[key]] on an object literal whose own properties hold any of
    these values. *)
Definition read (obj : gmap string Val) (key : string) : Val :=
  match obj !! key with
  | Some v => v
  | None => if bool_decide (key ∈ prototype_members) then Inherited key
            else Undefined
  end.

(** The own enumerable properties of a string, which [Object.assign]
    copies when a string is its source: the characters, each under its
    index. *)
Fixpoint index_properties_from (i : nat) (s : string) : list (string * string) :=
  match s with
  | EmptyString => []
  | String c rest => (pretty i, String c EmptyString) :: index_properties_from (S i) rest
  end.

Definition index_properties (s : string) : gmap string string :=
  list_to_map (index_properties_from 0 s).

(** [String.prototype.toLowerCase], on the code units that matter to
    the engine: the letters A-Z map to a-z, other units are kept. *)
Definition lower_ascii (c : ascii) : ascii :=
  let n := nat_of_ascii c in
  if (65 <=? n)%nat && (n <=? 90)%nat then ascii_of_nat (n + 32) else c.

Fixpoint toLowerCase (s : string) : string :=
  match s with
  | EmptyString => EmptyString
  | String c rest => String (lower_ascii c) (toLowerCase rest)
  end.

(** [String.prototype.startsWith]. *)
Definition startsWith (s p : string) : bool := String.prefix p s.

(** [s.split("/")]: never empty, [""] splits into one empty piece. *)
Fixpoint split_slash (s : string) : list string :=
  match s with
  | EmptyString => [EmptyString]
  | String c rest =>
      if Ascii.eqb c "/" then EmptyString :: split_slash rest
      else match split_slash rest with
           | [] => [String c EmptyString]
           | seg :: segs => String c seg :: segs
           end
  end.

End Js.

(** ** Node's [path] module, POSIX flavour *)

Module Path.

Definition is_dot (s : string) : bool := String.eqb s ".".
Definition is_dotdot (s : string) : bool := String.eqb s "..".

(** One step of [normalizeString]: the segments kept so far are held
    innermost first. *)
Definition push_segment (allowAboveRoot : bool)
    (kept : list string) (seg : string) : list string :=
  if String.eqb seg "" || is_dot seg then kept
  else if is_dotdot seg then
    match kept with
    | top :: below =>
        if is_dotdot top then (if allowAboveRoot then seg :: kept else kept)
        else below
    | [] => if allowAboveRoot then [seg] else []
    end
  else seg :: kept.

Definition normalizeString (path : string) (allowAboveRoot : bool) : string :=
  String.concat "/"
    (rev (fold_left (push_segment allowAboveRoot) (Js.split_slash path) [])).

Definition isAbsolute (path : string) : bool :=
  match path with
  | String c _ => Ascii.eqb c "/"
  | EmptyString => false
  end.

Fixpoint ends_with_slash (path : string) : bool :=
  match path with
  | EmptyString => false
  | String c EmptyString => Ascii.eqb c "/"
  | String _ rest => ends_with_slash rest
  end.

Definition normalize (path : string) : string :=
  if String.eqb path "" then "."
  else
    let absolute := isAbsolute path in
    let trailing := ends_with_slash path in
    let body := normalizeString path (negb absolute) in
    if String.eqb body "" then
      (if absolute then "/" else if trailing then "./" else ".")
    else
      let body := if trailing then body +:+ "/" else body in
      if absolute then "/" +:+ body else body.

(** [path.join(a, b)]: empty arguments are dropped, the rest is
    joined with the separator and normalised. *)
Definition join (a b : string) : string :=
  match String.eqb a "", String.eqb b "" with
  | true, true => "."
  | true, false => normalize b
  | false, true => normalize a
  | false, false => normalize (a +:+ "/" +:+ b)
  end.

Definition is_slash (c : ascii) : bool := Ascii.eqb c "/".

Fixpoint drop_while (p : ascii -> bool) (l : list ascii) : list ascii :=
  match l with
  | [] => []
  | c :: rest => if p c then drop_while p rest else l
  end.

Fixpoint take_while (p : ascii -> bool) (l : list ascii) : list ascii :=
  match l with
  | [] => []
  | c :: rest => if p c then c :: take_while p rest else []
  end.

(** [path.dirname]: scan from the end, skip trailing separators and
    the last name, cut at the separator found (index 0 is never
    scanned). *)
Definition dirname (path : string) : string :=
  match list_ascii_of_string path with
  | [] => "."
  | c0 :: rest =>
      let hasRoot := is_slash c0 in
      let scanned :=
        drop_while (fun c => negb (is_slash c))
                   (drop_while is_slash (rev rest)) in
      match scanned with
      | [] => if hasRoot then "/" else "."
      | _ :: before =>
          if hasRoot && (length before =? 0)%nat then "//"
          else string_of_list_ascii (c0 :: rev before)
      end
  end.

(** [path.basename] without a suffix argument. *)
Definition basename (path : string) : string :=
  string_of_list_ascii
    (rev (take_while (fun c => negb (is_slash c))
                     (drop_while is_slash (rev (list_ascii_of_string path))))).

End Path.

(** ** MIME classification *)

Definition getMimeType (extension : string) : string :=
  let e := Js.toLowerCase extension in
  if String.eqb e "md" then "text/markdown"
  else if String.eqb e "png" then "image/png"
  else if String.eqb e "jpg" then "image/jpeg"
  else if String.eqb e "jpeg" then "image/jpeg"
  else if String.eqb e "gif" then "image/gif"
  else if String.eqb e "json" then "application/json"
  else "application/octet-stream".


(** ** The vault tree, the plugin fields and the persisted data *)

Record TFile : Type := mkTFile {
  name : string;        (* file.name, with its extension *)
  extension : string;   (* file.extension *)
  mtime : Z             (* file.stat.mtime, epoch milliseconds *)
}.

(** The children of a [TFolder] are files or folders. *)
#[warnings="-register-all"]
Inductive TAbstractFile : Type :=
| File (f : TFile)
| Folder (folder_name : string) (children : list TAbstractFile).

(** [this.settings]: the four properties of the interface and, under
    other names, whatever else [loadSettings] copied from the loaded
    data. *)
Record MyPluginSettings : Type := mkSettings {
  googleDriveClientId : string;
  googleDriveClientSecret : string;
  googleDriveRefreshToken : string;
  lastSyncTimestamp : option Z;         (* number | null *)
  other_properties : gmap string string
}.

(** [this.fileIds] is declared with string values and assigned strings
    by the engine; [onload] fills it with a copy of the loaded data,
    whatever that holds. *)
Record MyPlugin : Type := mkPlugin {
  settings : MyPluginSettings;
  obsidianFolderId : option string;     (* string | null *)
  drivefolderIds : gmap string string;
  fileIds : gmap string Js.Val
}.

(** The content of data.json: what the last [saveData] that was
    answered got as its first argument. *)
Inductive Disk : Type :=
| NoData                                (* no data.json: loadData() is null *)
| SavedSettings (s : MyPluginSettings)  (* saveData(this.settings) *)
| SavedString (s : string).             (* saveData('fileIds', this.fileIds) *)

(** The settings object data.json holds, if it holds one. *)
Definition saved_settings (d : Disk) : option MyPluginSettings :=
  match d with
  | SavedSettings s => Some s
  | _ => None
  end.

Definition Exn : Type := string.

Inductive Content : Type :=
| Text (s : string)
| Binary (bytes : list Byte.byte).

(** The [q] of [drive.files.list]: a name, the folder MIME type, not
    trashed, and optionally a parent. *)
Record ListQuery : Type := mkQuery {
  q_name : string;
  q_parent : option Js.Val
}.

(** The two shapes of [drive.files.create] the engine issues. *)
Inductive CreateRequest : Type :=
| CreateFolder (folderName : string) (parents : list Js.Val)
| CreateFile (fileName : string) (parents : list Js.Val)
             (mimeType : string) (body : Content).

Record UpdateRequest : Type := mkUpdate {
  u_fileId : Js.Val;
  u_name : string;
  u_parents : list Js.Val;
  u_mimeType : string;
  u_body : Content
}.

(** Everything the engine does that is visible from outside, in the
    order it happens. *)
Inductive Event : Type :=
| EvGetAccessToken
| EvList (q : ListQuery)
| EvCreate (r : CreateRequest)
| EvUpdate (r : UpdateRequest)
| EvRead (f : TFile)
| EvReadBinary (f : TFile)
| EvDateNow
| EvSaveSettings                        (* saveData(this.settings) *)
| EvSaveFileIds                         (* saveData('fileIds', this.fileIds) *)
| EvNotice (msg : string)
| EvConsoleLog (msg : string)
| EvConsoleError (msg : string) (err : Exn).

(** The collaborators of the engine.  Each call steps the outside world
    and either fails or answers. *)
Record Env : Type := mkEnv {
  World : Type;
  oauth_getAccessToken : World -> World * (Exn + unit);
  drive_files_list : ListQuery -> World -> World * (Exn + list string);
  drive_files_create : CreateRequest -> World -> World * (Exn + string);
  drive_files_update : UpdateRequest -> World -> World * (Exn + string);
  vault_read : TFile -> World -> World * (Exn + string);
  vault_readBinary : TFile -> World -> World * (Exn + list Byte.byte);
  date_now : World -> World * Z;
  store_write : World -> World * (Exn + unit);
  env_client_id : string;
  env_client_secret : string
}.

Declare Scope engine_scope.
Delimit Scope engine_scope with engine.

Section Engine.

Context (E : Env).

Record State : Type := mkState {
  plugin : MyPlugin;
  world : World E;
  disk : Disk;
  events : list Event
}.

(** Asynchronous methods: state passing with exceptions. *)
Definition M (A : Type) : Type := State -> State * (Exn + A).

Definition ret {A} (a : A) : M A := fun st => (st, inr a).

Definition bind {A B} (m : M A) (k : A -> M B) : M B :=
  fun st =>
    match m st with
    | (st', inr a) => k a st'
    | (st', inl e) => (st', inl e)
    end.

Definition try_catch {A} (body : M A) (handler : Exn -> M A) : M A :=
  fun st =>
    match body st with
    | (st', inr a) => (st', inr a)
    | (st', inl e) => handler e st'
    end.

Definition gets {A} (f : MyPlugin -> A) : M A :=
  fun st => (st, inr (f (plugin st))).

Definition modify (f : MyPlugin -> MyPlugin) : M unit :=
  fun st => (mkState (f (plugin st)) (world st) (disk st) (events st), inr tt).

Definition emit (ev : Event) : M unit :=
  fun st => (mkState (plugin st) (world st) (disk st) (events st ++ [ev]), inr tt).

(** An awaited call: recorded, then answered by the world. *)
Definition call {A} (ev : Event) (op : World E -> World E * (Exn + A)) : M A :=
  fun st =>
    let '(w', r) := op (world st) in
    (mkState (plugin st) w' (disk st) (events st ++ [ev]), r).

Definition write_disk (f : Disk -> Disk) : M unit :=
  fun st => (mkState (plugin st) (world st) (f (disk st)) (events st), inr tt).

End Engine.

Arguments ret {E A} a.
Arguments bind {E A B} m k.
Arguments try_catch {E A} body handler.
Arguments gets {E A} f.
Arguments modify {E} f.
Arguments emit {E} ev.
Arguments call {E A} ev op.
Arguments write_disk {E} f.
Arguments plugin {E} s.
Arguments world {E} s.
Arguments disk {E} s.
Arguments events {E} s.
Arguments mkState {E} plugin world disk events.

Notation "'await' x <- m ; k" := (bind m (fun x => k))
  (at level 10, x name, m at level 99, k at level 200,
   format "'[v' 'await'  x  <-  m ; '/' k ']'") : engine_scope.
Notation "'exec' m ; k" := (bind m (fun _ => k))
  (at level 10, m at level 99, k at level 200,
   format "'[v' 'exec'  m ; '/' k ']'") : engine_scope.

Local Open Scope engine_scope.

(** Field updates of the plugin object. *)
Definition set_settings (s : MyPluginSettings) (p : MyPlugin) : MyPlugin :=
  mkPlugin s (obsidianFolderId p) (drivefolderIds p) (fileIds p).
Definition set_obsidianFolderId (id : option string) (p : MyPlugin) : MyPlugin :=
  mkPlugin (settings p) id (drivefolderIds p) (fileIds p).
Definition set_drivefolderIds (m : gmap string string) (p : MyPlugin) : MyPlugin :=
  mkPlugin (settings p) (obsidianFolderId p) m (fileIds p).
Definition set_fileIds (m : gmap string Js.Val) (p : MyPlugin) : MyPlugin :=
  mkPlugin (settings p) (obsidianFolderId p) (drivefolderIds p) m.
Definition set_lastSyncTimestamp (t : option Z) (s : MyPluginSettings) : MyPluginSettings :=
  mkSettings (googleDriveClientId s) (googleDriveClientSecret s)
             (googleDriveRefreshToken s) t (other_properties s).

(** [obj[key] = value] on an object literal: assigning a string to
    [__proto__] leaves the object as it was. *)
Definition js_set (obj : gmap string string) (key value : string) : gmap string string :=
  if String.eqb key "__proto__" then obj else <[key := value]> obj.

(** The same assignment of a string, on [this.fileIds]. *)
Definition js_write (obj : gmap string Js.Val) (key value : string) : gmap string Js.Val :=
  if String.eqb key "__proto__" then obj else <[key := Js.Str value]> obj.

Definition of_nullable (id : option string) : Js.Val :=
  match id with
  | Some s => Js.Str s
  | None => Js.Null
  end.

Section Methods.

Context {E : Env}.

Definition console_log (msg : string) : M E unit := emit (EvConsoleLog msg).
Definition console_error (msg : string) (err : Exn) : M E unit :=
  emit (EvConsoleError msg err).
Definition notice (msg : string) : M E unit := emit (EvNotice msg).

Definition files_list (q : ListQuery) : M E (list string) :=
  call (EvList q) (drive_files_list E q).
Definition files_create (r : CreateRequest) : M E string :=
  call (EvCreate r) (drive_files_create E r).
Definition files_update (r : UpdateRequest) : M E string :=
  call (EvUpdate r) (drive_files_update E r).

Definition DEFAULT_SETTINGS : MyPluginSettings :=
  mkSettings (env_client_id E) (env_client_secret E) "" None ∅.

(** [Object.assign({}, DEFAULT_SETTINGS, data)] on what [loadData()]
    answers: [null] adds nothing, a saved settings object overrides
    every default, a string adds its characters under their indices. *)
Definition assign_settings (data : Disk) : MyPluginSettings :=
  match data with
  | NoData => DEFAULT_SETTINGS
  | SavedSettings s => s
  | SavedString text =>
      mkSettings (googleDriveClientId DEFAULT_SETTINGS)
                 (googleDriveClientSecret DEFAULT_SETTINGS)
                 (googleDriveRefreshToken DEFAULT_SETTINGS)
                 (lastSyncTimestamp DEFAULT_SETTINGS)
                 (Js.index_properties text)
  end.

Definition loadSettings : M E unit :=
  fun st => modify (set_settings (assign_settings (disk st))) st.

Definition saveSettings : M E unit :=
  exec call EvSaveSettings (store_write E);
  await s <- gets settings;
  write_disk (fun _ => SavedSettings s).

(** [saveData('fileIds', this.fileIds)]: the data written is the first
    argument, the string; the map is not written. *)
Definition saveFileIds : M E unit :=
  exec call EvSaveFileIds (store_write E);
  write_disk (fun _ => SavedString "fileIds").

(** The own properties of a settings object. *)
Definition settings_properties (s : MyPluginSettings) : gmap string Js.Val :=
  <["googleDriveClientId" := Js.Str (googleDriveClientId s)]>
    (<["googleDriveClientSecret" := Js.Str (googleDriveClientSecret s)]>
       (<["googleDriveRefreshToken" := Js.Str (googleDriveRefreshToken s)]>
          (<["lastSyncTimestamp" := match lastSyncTimestamp s with
                                    | Some t => Js.Num t
                                    | None => Js.Null
                                    end]>
             (Js.Str <$> other_properties s)))).

(** [Object.assign({}, data || {})] on what [loadData('fileIds')]
    answers, which is what [loadData()] answers: a copy of the
    properties of the settings object, or the characters of a string
    (none for the empty string, which is falsy). *)
Definition assign_loaded (data : Disk) : gmap string Js.Val :=
  match data with
  | NoData => ∅
  | SavedSettings s => settings_properties s
  | SavedString text => Js.Str <$> Js.index_properties text
  end.

(** The part of [onload] that touches the engine's state. *)
Definition onload : M E unit :=
  exec loadSettings;
  fun st => modify (set_fileIds (assign_loaded (disk st))) st.

Definition onunload : M E unit := saveFileIds.

Definition ensureObsidianFolder : M E unit :=
  let folderName := "Obsidian Vault" in
  await files <- files_list (mkQuery folderName None);
  exec (match files with
        | first :: _ => modify (set_obsidianFolderId (Some first))
        | [] =>
            await id <- files_create (CreateFolder folderName []);
            modify (set_obsidianFolderId (Some id))
        end);
  await root <- gets obsidianFolderId;
  exec (match root with
        | Some id =>
            modify (fun p => set_drivefolderIds (js_set (drivefolderIds p) "/" id) p)
        | None => ret tt
        end);
  console_log ("Obsidian folder ID: " +:+ default "null" root).

(** The loop of [ensureDriveFolder] over the remaining path parts. *)
Fixpoint ensureDriveFolder_loop (pathParts : list string)
    (currentPath : string) (parentId : Js.Val) : M E Js.Val :=
  match pathParts with
  | [] => ret parentId
  | part :: rest =>
      let currentPath := Path.join currentPath part in
      await cached <- gets (fun p => Js.get (drivefolderIds p) currentPath);
      if Js.truthy cached then ensureDriveFolder_loop rest currentPath cached
      else
        await files <- files_list (mkQuery part (Some parentId));
        await id <- (match files with
                     | first :: _ => ret first
                     | [] => files_create (CreateFolder part [parentId])
                     end);
        exec modify (fun p =>
               set_drivefolderIds (js_set (drivefolderIds p) currentPath id) p);
        ensureDriveFolder_loop rest currentPath (Js.Str id)
  end.

(** [folderPath.split(path.sep).filter(part => part.length > 0)]. *)
Definition pathParts_of (folderPath : string) : list string :=
  List.filter (fun part => (0 <? String.length part)%nat) (Js.split_slash folderPath).

Definition ensureDriveFolder (folderPath : string) : M E Js.Val :=
  await root <- gets obsidianFolderId;
  ensureDriveFolder_loop (pathParts_of folderPath) "" (of_nullable root).

Definition uploadFile (filePath : string) (content : Content) (mimeType : string)
    : M E (option string) :=
  let parentPath := Path.dirname filePath in
  let fileName := Path.basename filePath in
  await parentId <- ensureDriveFolder parentPath;
  try_catch
    (await known <- gets (fun p => Js.read (fileIds p) filePath);
     if Js.truthy known then
       await id <- files_update (mkUpdate known fileName [parentId] mimeType content);
       exec console_log ("File updated: " +:+ filePath +:+ ", ID: " +:+ id);
       ret (Some id)
     else
       await id <- files_create (CreateFile fileName [parentId] mimeType content);
       exec console_log ("File created: " +:+ filePath +:+ ", ID: " +:+ id);
       ret (Some id))
    (fun err =>
       exec console_error ("Error uploading file " +:+ filePath +:+ ":") err;
       ret None).

(** The change detector of [uploadObsidianFile]: skip when a previous
    sync exists and the file is not newer than it. *)
Definition not_modified (file : TFile) (last : option Z) : bool :=
  match last with
  | Some t => (mtime file <=? t)%Z
  | None => false
  end.

Definition read_content (file : TFile) (mimeType : string) : M E Content :=
  if Js.startsWith mimeType "text/" || String.eqb mimeType "application/json" then
    await s <- call (EvRead file) (vault_read E file); ret (Text s)
  else
    await b <- call (EvReadBinary file) (vault_readBinary E file); ret (Binary b).

(** The tail of [uploadObsidianFile], run when the file is not
    skipped: read, upload, record the id when there is one. *)
Definition upload_and_record (file : TFile) (filePath mimeType : string) : M E unit :=
  await content <- read_content file mimeType;
  await fileId <- uploadFile filePath content mimeType;
  if Js.truthy (of_nullable fileId) then
    modify (fun p => set_fileIds (js_write (fileIds p) filePath (default "" fileId)) p)
  else ret tt.

Definition skip_message (filePath : string) : string :=
  "Skipping " +:+ filePath +:+ " - not modified since last sync".

Definition uploadObsidianFile (file : TFile) (currentPath : string) : M E unit :=
  let fileName := name file in
  let mimeType := getMimeType (extension file) in
  let filePath := Path.join currentPath fileName in
  await last <- gets (fun p => lastSyncTimestamp (settings p));
  if not_modified file last then console_log (skip_message filePath)
  else upload_and_record file filePath mimeType.

(** [for (const item of items) { await body(item) }]. *)
Definition for_of {A} (body : A -> M E unit) : list A -> M E unit :=
  fix loop (items : list A) : M E unit :=
    match items with
    | [] => ret tt
    | item :: rest => exec body item; loop rest
    end.

(** One round of the loop of [uploadFolderContents]: the recursion
    goes through the children of a folder item. *)
Fixpoint uploadItem (item : TAbstractFile) (currentPath : string) : M E unit :=
  match item with
  | File f => uploadObsidianFile f currentPath
  | Folder item_name children =>
      let newPath := Path.join currentPath item_name in
      exec ensureDriveFolder newPath;
      for_of (fun child => uploadItem child newPath) children
  end.

(** [uploadFolderContents], given the children of the folder. *)
Definition uploadFolderContents (children : list TAbstractFile) (currentPath : string)
    : M E unit :=
  for_of (fun item => uploadItem item currentPath) children.

(** [uploadVaultContents], on the children of [vault.getRoot()]. *)
Definition uploadVaultContents (root : list TAbstractFile) : M E unit :=
  uploadFolderContents root "/".

Definition syncWithGoogleDrive (root : list TAbstractFile) : M E unit :=
  await token <- gets (fun p => googleDriveRefreshToken (settings p));
  if negb (Js.truthy (Js.Str token)) then
    notice "Please log in to Google Drive first."
  else
    try_catch
      (exec call EvGetAccessToken (oauth_getAccessToken E);
       exec notice "Syncing with Google Drive...";
       exec modify (set_drivefolderIds ∅);
       exec ensureObsidianFolder;
       exec uploadVaultContents root;
       await now <- call EvDateNow
                      (fun w => let '(w', t) := date_now E w in (w', inr t));
       exec modify (fun p =>
              set_settings (set_lastSyncTimestamp (Some now) (settings p)) p);
       exec saveSettings;
       exec saveFileIds;
       notice "Sync complete!")
      (fun error =>
         exec console_error "Error syncing with Google Drive:" error;
         notice "Error during sync. Please try again.").

End Methods.

(** ** An in-memory remote store to run the engine against *)

Module Drive.

Record Entry : Type := mkEntry {
  e_id : string;
  e_name : string;
  e_parents : list Js.Val;
  e_folder : bool
}.

(** The store keeps its objects in creation order.  [faults] scripts
    the outcome of the coming calls, one flag per call: [true] makes
    the call fail; when the script is used up every call succeeds. *)
Record W : Type := mkW {
  entries : list Entry;
  faults : list bool;
  clock : Z
}.

Definition fresh_id (n : nat) : string := "id-" +:+ pretty n.

Definition next_fault (w : W) : bool * W :=
  match faults w with
  | [] => (false, w)
  | b :: rest => (b, mkW (entries w) rest (clock w))
  end.

Definition failing {A} (what : string) (op : W -> W * A) (w : W) : W * (Exn + A) :=
  let '(fails, w1) := next_fault w in
  if fails then (w1, inl what)
  else let '(w2, a) := op w1 in (w2, inr a).

Definition matches (q : ListQuery) (e : Entry) : bool :=
  e_folder e && String.eqb (e_name e) (q_name q) &&
  match q_parent q with
  | Some p => bool_decide (p ∈ e_parents e)
  | None => true
  end.

Definition list_files (q : ListQuery) (w : W) : W * list string :=
  (w, map e_id (List.filter (matches q) (entries w))).

Definition entry_of (id : string) (r : CreateRequest) : Entry :=
  match r with
  | CreateFolder n ps => mkEntry id n ps true
  | CreateFile n ps _ _ => mkEntry id n ps false
  end.

Definition create (r : CreateRequest) (w : W) : W * string :=
  let id := fresh_id (length (entries w)) in
  (mkW (entries w ++ [entry_of id r]) (faults w) (clock w), id).

(** An update answers with the id it was given when that object
    exists, and fails otherwise. *)
Definition update (r : UpdateRequest) (w : W) : W * (Exn + string) :=
  let '(fails, w1) := next_fault w in
  if fails then (w1, inl "update failed")
  else
    match u_fileId r with
    | Js.Str id =>
        if existsb (fun e => String.eqb (e_id e) id) (entries w1)
        then (w1, inr id) else (w1, inl "File not found")
    | _ => (w1, inl "File not found")
    end.

Definition tick (w : W) : W * Z :=
  (mkW (entries w) (faults w) (clock w + 1)%Z, clock w).

Definition env : Env :=
  {| World := W;
     oauth_getAccessToken := failing "token refresh failed" (fun w => (w, tt));
     drive_files_list := fun q => failing "list failed" (list_files q);
     drive_files_create := fun r => failing "create failed" (create r);
     drive_files_update := update;
     vault_read := fun _ => failing "read failed" (fun w => (w, ""));
     vault_readBinary := fun _ => failing "read failed" (fun w => (w, []));
     date_now := tick;
     store_write := failing "write failed" (fun w => (w, tt));
     env_client_id := "client-id";
     env_client_secret := "client-secret" |}.

End Drive.

(** A logged-in plugin that has never synced. *)
Definition fresh_plugin : MyPlugin :=
  mkPlugin (mkSettings "client-id" "client-secret" "refresh-token" None ∅) None ∅ ∅.

Definition start (faults : list bool) (now : Z) : State Drive.env :=
  @mkState Drive.env fresh_plugin (Drive.mkW [] faults now) NoData [].

(** The vault that holds exactly the file notes/a.md. *)
Definition a_md : TFile := mkTFile "a.md" "md" 100.
Definition notes_vault : list TAbstractFile := [Folder "notes" [File a_md]].

(** ** Vocabulary of the statements *)

(** The values and the keys of the MIME table. *)
Definition mime_types : list string :=
  [ "text/markdown"; "image/png"; "image/jpeg"; "image/gif";
    "application/json"; "application/octet-stream" ].

Definition known_extensions : list string :=
  [ "md"; "png"; "jpg"; "jpeg"; "gif"; "json" ].


Section Vocabulary.

Context {E : Env}.

Definition with_events (st : State E) (evs : list Event) : State E :=
  mkState (plugin st) (world st) (disk st) evs.

Definition with_plugin (st : State E) (p : MyPlugin) : State E :=
  mkState p (world st) (disk st) (events st).

(** The same state, as if the previous sync had happened at [t] (or
    never, for [None]). *)
Definition with_lastSync (t : option Z) (st : State E) : State E :=
  with_plugin st (set_settings (set_lastSyncTimestamp t (settings (plugin st))) (plugin st)).

Definition with_mtime (t : Z) (f : TFile) : TFile :=
  mkTFile (name f) (extension f) t.

(** What the skip branch of [uploadObsidianFile] leaves behind: one
    console line and nothing else. *)
Definition skipped (f : TFile) (cur : string) (st : State E) : State E * (Exn + unit) :=
  (with_events st (events st ++ [EvConsoleLog (skip_message (Path.join cur (name f)))]),
   inr tt).

(** The vault read of a file: as text or as binary, by its MIME type. *)
Definition read_event (f : TFile) : Event :=
  let mimeType := getMimeType (extension f) in
  if Js.startsWith mimeType "text/" || String.eqb mimeType "application/json"
  then EvRead f else EvReadBinary f.

(** A method never leaves the relation [R] between the state it
    starts in and the state it ends in, whether it returns or throws. *)
Definition stable (R : relation (State E)) {A} (m : M E A) : Prop :=
  forall st, R st (fst (m st)).

Definition is_list_call (ev : Event) : bool :=
  match ev with EvList _ => true | _ => false end.

Definition is_create_folder_call (ev : Event) : bool :=
  match ev with EvCreate (CreateFolder _ _) => true | _ => false end.

Definition is_file_call (ev : Event) : bool :=
  match ev with
  | EvCreate (CreateFile _ _ _ _) => true
  | EvUpdate _ => true
  | _ => false
  end.

Definition is_remote_call (ev : Event) : bool :=
  match ev with
  | EvList _ | EvCreate _ | EvUpdate _ => true
  | _ => false
  end.

Definition count_calls (p : Event -> bool) (evs : list Event) : nat :=
  length (List.filter p evs).

(** Settings in memory and everything on disk are the same. *)
Definition same_settings (st st' : State E) : Prop :=
  settings (plugin st') = settings (plugin st) /\ disk st' = disk st.

(** The log only grows. *)
Definition log_extends (st st' : State E) : Prop :=
  exists evs, events st' = events st ++ evs.

End Vocabulary.

Section Orchestrator.

Context {E : Env}.

(** What [syncWithGoogleDrive] awaits inside its [try] block before it
    assigns [lastSyncTimestamp]. *)
Definition steps_before_timestamp (root : list TAbstractFile) : M E unit :=
  exec call EvGetAccessToken (oauth_getAccessToken E);
  exec notice "Syncing with Google Drive...";
  exec modify (set_drivefolderIds ∅);
  exec ensureObsidianFolder;
  uploadVaultContents root.

(** The [catch] block of [syncWithGoogleDrive]. *)
Definition sync_failed (error : Exn) (st : State E) : State E :=
  with_events st
    (events st ++ [EvConsoleError "Error syncing with Google Drive:" error;
                   EvNotice "Error during sync. Please try again."]).

(** What [syncWithGoogleDrive] does after the walk. *)
Definition finish_pass : M E unit :=
  await now <- call EvDateNow
                 (fun w => let '(w', t) := date_now E w in (w', inr t));
  exec modify (fun p =>
         set_settings (set_lastSyncTimestamp (Some now) (settings p)) p);
  exec saveSettings;
  exec saveFileIds;
  notice "Sync complete!".

(** Its [catch] block, as a method. *)
Definition report_failure (error : Exn) : M E unit :=
  exec console_error "Error syncing with Google Drive:" error;
  notice "Error during sync. Please try again.".

Definition logged_in (st : State E) : Prop :=
  googleDriveRefreshToken (settings (plugin st)) <> "".

End Orchestrator.

Section Uploader.

Context {E : Env}.

(** The remote call [uploadFile] issues for a file once the parent
    folder is resolved: an update of the id on record, or a create. *)
Definition file_request (filePath : string) (content : Content) (mimeType : string)
    (parentId : Js.Val) (st : State E) : Event :=
  let known := Js.read (fileIds (plugin st)) filePath in
  if Js.truthy known then
    EvUpdate (mkUpdate known (Path.basename filePath) [parentId] mimeType content)
  else
    EvCreate (CreateFile (Path.basename filePath) [parentId] mimeType content).

(** The answer of the remote store to that call. *)
Definition file_answer (filePath : string) (content : Content) (mimeType : string)
    (parentId : Js.Val) (st : State E) : World E * (Exn + string) :=
  let known := Js.read (fileIds (plugin st)) filePath in
  if Js.truthy known then
    drive_files_update E
      (mkUpdate known (Path.basename filePath) [parentId] mimeType content) (world st)
  else
    drive_files_create E
      (CreateFile (Path.basename filePath) [parentId] mimeType content) (world st).

(** The console line that follows a successful call. *)
Definition file_logged (filePath : string) (st : State E) (id : string) : Event :=
  if Js.truthy (Js.read (fileIds (plugin st)) filePath)
  then EvConsoleLog ("File updated: " +:+ filePath +:+ ", ID: " +:+ id)
  else EvConsoleLog ("File created: " +:+ filePath +:+ ", ID: " +:+ id).

Definition upload_error (filePath : string) (e : Exn) : Event :=
  EvConsoleError ("Error uploading file " +:+ filePath +:+ ":") e.

(** The file ids in memory are the same. *)
Definition same_fileIds (st st' : State E) : Prop :=
  fileIds (plugin st') = fileIds (plugin st).

Definition after_call (st : State E) (w : World E) (evs : list Event) : State E :=
  mkState (plugin st) w (disk st) (events st ++ evs).

Definition record_fileId (filePath id : string) (st : State E) : State E :=
  with_plugin st (set_fileIds (js_write (fileIds (plugin st)) filePath id) (plugin st)).

End Uploader.

Section Resolver.

(** The value of [currentPath] at each round of the loop of
    [ensureDriveFolder]: the cache key of each segment. *)
Fixpoint segment_paths (parts : list string) (cur : string) : list string :=
  match parts with
  | [] => []
  | part :: rest => Path.join cur part :: segment_paths rest (Path.join cur part)
  end.

(** [this.drivefolderIds[key]] passes the test of the loop. *)
Definition cached (cache : gmap string string) (key : string) : bool :=
  Js.truthy (Js.get cache key).

(** The segments the cache does not answer. *)
Fixpoint uncached_parts (cache : gmap string string)
    (parts : list string) (cur : string) : list string :=
  match parts with
  | [] => []
  | part :: rest =>
      let key := Path.join cur part in
      if cached cache key then uncached_parts cache rest key
      else part :: uncached_parts cache rest key
  end.

(** Names asked for by the list-children queries of a log, and names
    of the folders it creates, in order. *)
Definition listed_names (evs : list Event) : list string :=
  omap (fun ev => match ev with EvList q => Some (q_name q) | _ => None end) evs.

Definition created_folder_names (evs : list Event) : list string :=
  omap (fun ev => match ev with
                  | EvCreate (CreateFolder n _) => Some n
                  | _ => None
                  end) evs.

(** A call the resolver may issue. *)
Definition folder_call (ev : Event) : Prop :=
  is_list_call ev || is_create_folder_call ev = true.

(** [this.drivefolderIds[key] = id]. *)
Definition cache_folder {E} (key id : string) (st : State E) : State E :=
  with_plugin st (set_drivefolderIds (js_set (drivefolderIds (plugin st)) key id) (plugin st)).

(** What the log of [st'] holds beyond the log of [st]. *)
Definition issued_after {E} (st : State E) (st' : State E) : list Event :=
  drop (length (events st)) (events st').

End Resolver.

Section FolderOperations.

Context {E : Env}.

(** A folder operation fails while [folderPath] is resolved from [st]:
    the segments [before] are resolved, which leaves the state [s1]
    and the parent [parent]; the next segment [part] is not answered by
    the cache; and the list-children query for it fails, or finds
    nothing and the create-folder call that follows fails.  [sf] is
    the state the failing call leaves and [e] its error. *)
Definition folder_operation_fails
    (folderPath : string) (st sf : State E) (e : Exn) : Prop :=
  exists before part rest (s1 : State E) parent,
    pathParts_of folderPath = before ++ part :: rest /\
    ensureDriveFolder_loop before "" (of_nullable (obsidianFolderId (plugin st))) st
      = (s1, inr parent) /\
    cached (drivefolderIds (plugin s1)) (Path.join (fold_left Path.join before "") part)
      = false /\
    let q := mkQuery part (Some parent) in
    let c := CreateFolder part [parent] in
    (exists w, drive_files_list E q (world s1) = (w, inl e) /\
               sf = after_call s1 w [EvList q]) \/
    (exists w w', drive_files_list E q (world s1) = (w, inr []) /\
                  drive_files_create E c w = (w', inl e) /\
                  sf = after_call s1 w' [EvList q; EvCreate c]).

End FolderOperations.

Section Detector.

Context {E : Env}.

(** [uploadObsidianFile] uploads the file: what it does starts with the
    vault read of the file, and once the content is read and the
    parent folder is resolved, the calls it issues on files are one
    call, for the joined path, with the content that was read: an
    update of the id on record or a create under the parent. *)
Definition uploads (f : TFile) (cur : string) (st : State E) : Prop :=
  let path := Path.join cur (name f) in
  let mime := getMimeType (extension f) in
  let issued := issued_after st (fst (uploadObsidianFile f cur st)) in
  head issued = Some (read_event f) /\
  forall (sr sf : State E) content parentId,
    read_content f mime st = (sr, inr content) ->
    ensureDriveFolder (Path.dirname path) sr = (sf, inr parentId) ->
    List.filter is_file_call issued = [file_request path content mime parentId sf].

End Detector.

Section Lifecycle.

Context {E : Env}.

(** What [syncWithGoogleDrive] awaits before it walks the vault. *)
Definition steps_before_walk : M E unit :=
  exec call EvGetAccessToken (oauth_getAccessToken E);
  exec notice "Syncing with Google Drive...";
  exec modify (set_drivefolderIds ∅);
  ensureObsidianFolder.

(** Between two states: an entry of [fileIds] is kept, or written
    with a non-empty id. *)
Definition only_grows (st st' : State E) : Prop :=
  forall k, fileIds (plugin st') !! k = fileIds (plugin st) !! k \/
            exists id, fileIds (plugin st') !! k = Some (Js.Str id) /\ id <> "".

(** What happens to a loaded plugin until it is loaded again. *)
Inductive Op : Type :=
| OpSync (root : list TAbstractFile)
| OpUnload.

Definition run_op (st : State E) (op : Op) : State E :=
  match op with
  | OpSync root => fst (syncWithGoogleDrive root st)
  | OpUnload => fst (onunload st)
  end.

Definition run_ops (ops : list Op) (st : State E) : State E :=
  fold_left run_op ops st.

End Lifecycle.

(** Induction over a vault tree, with the hypothesis available for
    every child of a folder. *)
Fixpoint TAbstractFile_ind' (P : TAbstractFile -> Prop)
    (Hfile : forall f, P (File f))
    (Hfolder : forall n children, Forall P children -> P (Folder n children))
    (item : TAbstractFile) : P item :=
  match item with
  | File f => Hfile f
  | Folder n children =>
      Hfolder n children
        ((fix all (l : list TAbstractFile) : Forall P l :=
            match l with
            | [] => @List.Forall_nil _ P
            | x :: rest =>
                @List.Forall_cons _ P x rest (TAbstractFile_ind' P Hfile Hfolder x) (all rest)
            end) children)
  end.

(** ** Paths as lists of segments *)

Fixpoint has_slash (s : string) : bool :=
  match s with
  | EmptyString => false
  | String c rest => Path.is_slash c || has_slash rest
  end.

(** A segment of a normalised path: a non-empty name without
    separator that is neither "." nor "..". *)
Definition plain (s : string) : Prop :=
  s <> "" /\ has_slash s = false /\ s <> "." /\ s <> "..".

(** The filter of [ensureDriveFolder]. *)
Definition nonempty_part (part : string) : bool := (0 <? String.length part)%nat.

(** The cache key of the path made of the segments [parts]. *)
Definition key_of (parts : list string) : string := String.concat "/" parts.

Arguments key_of : simpl never.

(** ** Concrete runs against the in-memory store *)

Definition b_md : TFile := mkTFile "b.md" "md" 100.

(** A vault with a folder followed by a file. *)
Definition two_item_vault : list TAbstractFile :=
  [Folder "notes" [File a_md]; File b_md].

(** The state after a first complete pass over [notes_vault]. *)
Definition after_first_pass : State Drive.env :=
  fst (syncWithGoogleDrive notes_vault (start [] 1000)).

(** A pass over [notes_vault] up to the upload of a.md, with the
    seventh call scripted to fail: the token refresh, the two calls for
    the root, the two for notes and the read succeed, the file call
    fails. *)
Definition before_a_md : State Drive.env :=
  fst (ensureDriveFolder "/notes"
         (fst (steps_before_walk
                 (start [false; false; false; false; false; false; true] 1000)))).

(** ** Reading the in-memory store *)

(** The folder a list-children query for [part] under [parent] puts
    first, if any. *)
Definition first_match (d : list Drive.Entry) (parent : Js.Val) (part : string)
    : option string :=
  head (map Drive.e_id (List.filter (Drive.matches (mkQuery part (Some parent))) d)).

(** The folder the root query puts first, if any. *)
Definition first_root (d : list Drive.Entry) : option string :=
  head (map Drive.e_id (List.filter (Drive.matches (mkQuery "Obsidian Vault" None)) d)).

(** Following the segments [rest] down from [parent], the segments
    [above] being resolved already: what the resolver returns when every folder on
    the way exists already.  A first segment named like a member of
    [Object.prototype] resolves to that member. *)
Fixpoint chain (d : list Drive.Entry) (above : list string) (parent : Js.Val)
    (rest : list string) : option Js.Val :=
  match rest with
  | [] => Some parent
  | part :: rest' =>
      let key := key_of (above ++ [part]) in
      if bool_decide (key ∈ Js.prototype_members)
      then chain d (above ++ [part]) (Js.Inherited key) rest'
      else match first_match d parent part with
           | Some id => chain d (above ++ [part]) (Js.Str id) rest'
           | None => None
           end
  end.

Definition entries_of (st : State Drive.env) : list Drive.Entry :=
  Drive.entries (world st).

Definition root_of (st : State Drive.env) : Js.Val :=
  of_nullable (obsidianFolderId (plugin st)).

(** Every folder on the way to [path] exists under the root. *)
Definition covered (st : State Drive.env) (path : string) : Prop :=
  is_Some (chain (entries_of st) [] (root_of st) (pathParts_of path)).

(** The folder-id cache tells what the store tells: a non-empty id
    cached for a path is the one the chain of first matches leads to. *)
Definition cache_agrees (st : State Drive.env) : Prop :=
  (forall key, key ∈ Js.prototype_members -> drivefolderIds (plugin st) !! key = None) /\
  (forall parts id,
      parts <> [] -> Forall plain parts ->
      drivefolderIds (plugin st) !! key_of parts = Some id -> id <> "" ->
      chain (entries_of st) [] (root_of st) parts = Some (Js.Str id)).

(** The paths [uploadFolderContents] resolves for the folders of a
    tree, and the files of the tree. *)
Fixpoint folder_paths_item (item : TAbstractFile) (cur : string) : list string :=
  match item with
  | File _ => []
  | Folder n children =>
      Path.join cur n
        :: flat_map (fun child => folder_paths_item child (Path.join cur n)) children
  end.

Definition folder_paths (children : list TAbstractFile) (cur : string) : list string :=
  flat_map (fun item => folder_paths_item item cur) children.

Fixpoint files_of_item (item : TAbstractFile) : list TFile :=
  match item with
  | File f => [f]
  | Folder _ children => flat_map files_of_item children
  end.

Definition files_of (children : list TAbstractFile) : list TFile :=
  flat_map files_of_item children.

(** Calls that neither create, update nor read anything. *)
Definition quiet (ev : Event) : bool :=
  match ev with
  | EvCreate _ | EvUpdate _ | EvRead _ | EvReadBinary _ => false
  | _ => true
  end.

(** A step that leaves the store and the root as they are and only
    issues quiet calls. *)
Definition quiet_step (st st' : State Drive.env) : Prop :=
  entries_of st' = entries_of st /\
  settings (plugin st') = settings (plugin st) /\
  obsidianFolderId (plugin st') = obsidianFolderId (plugin st) /\
  exists issued, events st' = events st ++ issued /\ Forall (fun ev => quiet ev = true) issued.

(** A step that may add objects to the store. *)
Definition grows (st st' : State Drive.env) : Prop :=
  (exists more, entries_of st' = entries_of st ++ more) /\
  obsidianFolderId (plugin st') = obsidianFolderId (plugin st).

(** The same, from a cache in agreement to a cache in agreement. *)
Definition growing_step (st st' : State Drive.env) : Prop :=
  cache_agrees st -> grows st st' /\ cache_agrees st'.

Definition found_step (st st' : State Drive.env) : Prop :=
  cache_agrees st -> quiet_step st st' /\ cache_agrees st'.

(** A pass that leaves the store as it is and only issues quiet calls. *)
Definition quiet_pass (st st' : State Drive.env) : Prop :=
  entries_of st' = entries_of st /\
  exists issued, events st' = events st ++ issued /\ Forall (fun ev => quiet ev = true) issued.

(** What the first walk establishes for an item, when it returns. *)
Definition covers_item (item : TAbstractFile) : Prop :=
  forall cur (st : State Drive.env),
    Path.isAbsolute cur = true ->
    cache_agrees st ->
    snd (uploadItem item cur st) = inr tt ->
    Forall (covered (fst (uploadItem item cur st))) (folder_paths_item item cur).


(** ** The sync command, the login exchange and the settings tab *)

(** What [oauth2Client.getToken] answers.  The plugin reads
    [refresh_token] and hands the whole object to [setCredentials]. *)
Record Tokens : Type := mkTokens {
  refresh_token : option string;      (* string | null | undefined *)
  access_token : option string
}.

(** The two calls of the login exchange on the OAuth client.  The
    client is part of the outside world, as it is for
    [oauth_getAccessToken]. *)
Record Account (E : Env) : Type := mkAccount {
  oauth_getToken : string -> World E -> World E * (Exn + Tokens);
  oauth_setCredentials : Tokens -> World E -> World E
}.

Arguments oauth_getToken {E} a authCode w.
Arguments oauth_setCredentials {E} a tokens w.

Definition set_googleDriveClientId (v : string) (s : MyPluginSettings) : MyPluginSettings :=
  mkSettings v (googleDriveClientSecret s) (googleDriveRefreshToken s) (lastSyncTimestamp s)
             (other_properties s).
Definition set_googleDriveClientSecret (v : string) (s : MyPluginSettings) : MyPluginSettings :=
  mkSettings (googleDriveClientId s) v (googleDriveRefreshToken s) (lastSyncTimestamp s)
             (other_properties s).
Definition set_googleDriveRefreshToken (v : string) (s : MyPluginSettings) : MyPluginSettings :=
  mkSettings (googleDriveClientId s) (googleDriveClientSecret s) v (lastSyncTimestamp s)
             (other_properties s).

Section Commands.

Context {E : Env}.

(** The callback of the command 'sync-with-google-drive'. *)
Definition sync_command (root : list TAbstractFile) : M E unit :=
  await token <- gets (fun p => googleDriveRefreshToken (settings p));
  if negb (Js.truthy (Js.Str token)) then
    notice "You are not logged in. Please log in first."
  else syncWithGoogleDrive root.

(** An awaited call on the OAuth client, and a call on it that
    answers nothing; neither is written to the log. *)
Definition ask {A} (op : World E -> World E * (Exn + A)) : M E A :=
  fun st =>
    let '(w', r) := op (world st) in
    (mkState (plugin st) w' (disk st) (events st), r).

Definition tell (op : World E -> World E) : M E unit :=
  fun st => (mkState (plugin st) (op (world st)) (disk st) (events st), inr tt).

Context (account : Account E).

Definition exchangeCodeForTokens (authCode : string) : M E unit :=
  try_catch
    (await tokens <- ask (oauth_getToken account authCode);
     exec tell (oauth_setCredentials account tokens);
     if Js.truthy (of_nullable (refresh_token tokens)) then
       exec modify (fun p =>
              set_settings
                (set_googleDriveRefreshToken (default "" (refresh_token tokens))
                                             (settings p)) p);
       exec saveSettings;
       notice "Logged in successfully and refresh token saved!"
     else notice "No refresh token received. Please try again.")
    (fun error =>
       exec console_error "Error exchanging authorization code for tokens:" error;
       notice "Authentication failed. Please try again.").

End Commands.

Section SettingTab.

Context {E : Env}.

(** The [onChange] handlers of [GoogleDriveSettingTab.display]: assign
    the field, save the settings. *)
Definition onChange (assign : string -> MyPluginSettings -> MyPluginSettings)
    (value : string) : M E unit :=
  exec modify (fun p => set_settings (assign value (settings p)) p);
  saveSettings.

Definition onChange_clientId : string -> M E unit := onChange set_googleDriveClientId.
Definition onChange_clientSecret : string -> M E unit := onChange set_googleDriveClientSecret.
Definition onChange_refreshToken : string -> M E unit := onChange set_googleDriveRefreshToken.

End SettingTab.

(** A login service for the in-memory store: an empty code is
    answered without refresh token, any other code with one. *)
Definition drive_account : Account Drive.env :=
  @mkAccount Drive.env
    (fun authCode =>
       Drive.failing "invalid_grant"
         (fun w => (w, mkTokens (if String.eqb authCode "" then None
                                 else Some ("refresh-" +:+ authCode))
                                (Some "access"))))
    (fun _ w => w).

(** A plugin that has not logged in yet. *)
Definition logged_out (faults : list bool) : State Drive.env :=
  @mkState Drive.env
    (mkPlugin (mkSettings "client-id" "client-secret" "" None ∅) None ∅ ∅)
    (Drive.mkW [] faults 1000) NoData [].

(** A plugin whose record for /a.md names an object the store does
    not hold. *)
Definition stale_record : State Drive.env :=
  with_plugin (start [] 1000) (set_fileIds {[ "/a.md" := Js.Str "id-7" ]} fresh_plugin).

(** A pass over [notes_vault] up to the upload of a.md, every call
    being answered. *)
Definition before_a_md_answered : State Drive.env :=
  fst (ensureDriveFolder "/notes" (fst (steps_before_walk (start [] 1000)))).

(** A script of call outcomes for a pass over [notes_vault] in which
    the seven calls up to the upload of a.md are answered and the save
    of the settings fails. *)
Definition save_fails : list bool :=
  [false; false; false; false; false; false; false; true].

(** ** Vocabulary of the further statements *)

Section Logs.

Context {E : Env}.

(** Whatever [m] writes to the log satisfies [P]. *)
Definition logs (P : Event -> Prop) {A} (m : M E A) : Prop :=
  forall st, exists issued,
    events (fst (m st)) = events st ++ issued /\ Forall P issued.

(** The notices of a log, in order. *)
Definition notices_of (evs : list Event) : list string :=
  omap (fun ev => match ev with EvNotice msg => Some msg | _ => None end) evs.

Definition is_notice (ev : Event) : bool :=
  match ev with EvNotice _ => true | _ => false end.

Definition is_read (ev : Event) : bool :=
  match ev with EvRead _ | EvReadBinary _ => true | _ => false end.

(** Events the walk can write: remote calls, vault reads and console
    lines. *)
Definition walk_event (ev : Event) : Prop :=
  match ev with
  | EvList _ | EvCreate _ | EvUpdate _ | EvRead _ | EvReadBinary _
  | EvConsoleLog _ | EvConsoleError _ _ => True
  | _ => False
  end.

(** The login settings. *)
Definition same_login (st st' : State E) : Prop :=
  googleDriveClientId (settings (plugin st')) = googleDriveClientId (settings (plugin st)) /\
  googleDriveClientSecret (settings (plugin st'))
    = googleDriveClientSecret (settings (plugin st)) /\
  googleDriveRefreshToken (settings (plugin st'))
    = googleDriveRefreshToken (settings (plugin st)).

(** The files the change detector lets through, given the timestamp
    of the previous pass. *)
Definition modified_files (last : option Z) (files : list TFile) : list TFile :=
  List.filter (fun f => negb (not_modified f last)) files.

(** What a method adds to the reads and the file calls of a walk over
    the files [fs]: it keeps the settings, reads a prefix of the
    modified files in order, and when it returns it has read all of
    them and issued one file call for each. *)
Definition reads_files {A} (m : M E A) (fs : list TFile) : Prop :=
  forall st,
    let expected :=
      map read_event (modified_files (lastSyncTimestamp (settings (plugin st))) fs) in
    same_settings st (fst (m st)) /\
    exists issued,
      events (fst (m st)) = events st ++ issued /\
      List.filter is_read issued `prefix_of` expected /\
      (forall a, snd (m st) = inr a ->
         List.filter is_read issued = expected /\
         count_calls is_file_call issued = length expected).

(** Paths enter [fileIds] only as absolute paths. *)
Definition records_absolute (st st' : State E) : Prop :=
  forall k, k ∈ dom (fileIds (plugin st')) ->
            k ∈ dom (fileIds (plugin st)) \/ Path.isAbsolute k = true.

(** Two states that differ at most in folder-cache entries under
    absolute keys. *)
Definition same_but_absolute_keys (st st' : State E) : Prop :=
  settings (plugin st') = settings (plugin st) /\
  obsidianFolderId (plugin st') = obsidianFolderId (plugin st) /\
  fileIds (plugin st') = fileIds (plugin st) /\
  world st' = world st /\ disk st' = disk st /\ events st' = events st /\
  forall key, Path.isAbsolute key = false ->
              drivefolderIds (plugin st') !! key = drivefolderIds (plugin st) !! key.

End Logs.

(** ** Folders of the in-memory store *)

(** A folder [later] that a list query issued before its creation
    would have found [earlier] for: same name, and a common parent (or
    no parent at all, as for the root folder). *)
Definition clash (earlier later : Drive.Entry) : Prop :=
  Drive.e_folder earlier = true /\ Drive.e_folder later = true /\
  Drive.e_name earlier = Drive.e_name later /\
  (Drive.e_parents later = [] \/
   exists p, p ∈ Drive.e_parents earlier /\ p ∈ Drive.e_parents later).

Definition no_clash (d : list Drive.Entry) : Prop :=
  forall i j earlier later,
    i < j -> d !! i = Some earlier -> d !! j = Some later -> ~ clash earlier later.

(** A step that keeps the folders of the store apart. *)
Definition apart_step (st st' : State Drive.env) : Prop :=
  no_clash (entries_of st) -> no_clash (entries_of st').
Example join_root_notes : Path.join "/" "notes" = "/notes".
Proof. reflexivity. Qed.
Example join_notes_file : Path.join "/notes" "a.md" = "/notes/a.md".
Proof. reflexivity. Qed.
Example join_empty_part : Path.join "" "notes" = "notes".
Proof. reflexivity. Qed.
Example dirname_file : Path.dirname "/notes/a.md" = "/notes".
Proof. reflexivity. Qed.
Example dirname_top : Path.dirname "/a.md" = "/".
Proof. reflexivity. Qed.
Example basename_file : Path.basename "/notes/a.md" = "a.md".
Proof. reflexivity. Qed.
Example mime_upper : getMimeType "JPG" = "image/jpeg".
Proof. reflexivity. Qed.


(** * Properties *)

(** ** MIME classification *)

Lemma lower_ascii_idem c : Js.lower_ascii (Js.lower_ascii c) = Js.lower_ascii c.
Proof.
  destruct c as [[] [] [] [] [] [] [] []]; reflexivity.
Qed.

Lemma toLowerCase_idem s : Js.toLowerCase (Js.toLowerCase s) = Js.toLowerCase s.
Proof.
  induction s as [|c s IH]; simpl; [reflexivity|].
  by rewrite lower_ascii_idem, IH.
Qed.

(** C9. [getMimeType] is total and only looks at the lower-cased
    extension; its value is one of six strings, fixed by the table
    md, png, jpg/jpeg, gif, json, and octet-stream for everything else. *)
Theorem getMimeType_table (e : string) :
  getMimeType e = getMimeType (Js.toLowerCase e) /\
  getMimeType e ∈ mime_types /\
  (Js.toLowerCase e = "md" -> getMimeType e = "text/markdown") /\
  (Js.toLowerCase e = "png" -> getMimeType e = "image/png") /\
  (Js.toLowerCase e = "jpg" -> getMimeType e = "image/jpeg") /\
  (Js.toLowerCase e = "jpeg" -> getMimeType e = "image/jpeg") /\
  (Js.toLowerCase e = "gif" -> getMimeType e = "image/gif") /\
  (Js.toLowerCase e = "json" -> getMimeType e = "application/json") /\
  (Js.toLowerCase e ∉ known_extensions ->
   getMimeType e = "application/octet-stream").
Proof.
  unfold getMimeType. rewrite toLowerCase_idem.
  split; [reflexivity|].
  split.
  { unfold mime_types.
    repeat (case String.eqb; [set_solver|]). set_solver. }
  repeat split; intros H; try (rewrite H; reflexivity).
  repeat match goal with
         | |- context [String.eqb ?a ?b] =>
             destruct (String.eqb_spec a b) as [Heq|_];
             [exfalso; apply H; rewrite Heq; unfold known_extensions; set_solver|]
         end.
  reflexivity.
Qed.

(** ** The monad, and relations kept by every method *)

Section Running.

Context {E : Env}.

Lemma bind_returns {A B} (m : M E A) (k : A -> M E B) st st' a :
  m st = (st', inr a) -> bind m k st = k a st'.
Proof. intros H. unfold bind. by rewrite H. Qed.

Lemma bind_throws {A B} (m : M E A) (k : A -> M E B) st st' e :
  m st = (st', inl e) -> bind m k st = (st', inl e).
Proof. intros H. unfold bind. by rewrite H. Qed.

Lemma for_of_cons {A} (body : A -> M E unit) item rest :
  for_of body (item :: rest) = bind (body item) (fun _ => for_of body rest).
Proof. reflexivity. Qed.

Lemma uploadItem_folder item_name children cur :
  uploadItem (E:=E) (Folder item_name children) cur =
  bind (ensureDriveFolder (Path.join cur item_name))
       (fun _ => uploadFolderContents children (Path.join cur item_name)).
Proof. reflexivity. Qed.

Lemma uploadFolderContents_cons item rest cur :
  uploadFolderContents (E:=E) (item :: rest) cur =
  bind (uploadItem item cur) (fun _ => uploadFolderContents rest cur).
Proof. reflexivity. Qed.

Lemma issued_after_app (st st' : State E) evs :
  events st' = events st ++ evs -> issued_after st st' = evs.
Proof. intros H. unfold issued_after. by rewrite H, drop_app_length. Qed.

End Running.

Section Stability.

Context {E : Env} (R : relation (State E)) `{!PreOrder R}.

(** [R] does not look at the outside world, and tolerates a longer log. *)
Hypothesis R_outside :
  forall st w ev, R st (mkState (plugin st) w (disk st) (events st ++ [ev])).

Lemma stable_ret {A} (a : A) : stable R (ret a).
Proof. intros st. reflexivity. Qed.

Lemma stable_gets {A} (f : MyPlugin -> A) : stable R (gets f).
Proof. intros st. reflexivity. Qed.

Lemma stable_bind {A B} (m : M E A) (k : A -> M E B) :
  stable R m -> (forall a, stable R (k a)) -> stable R (bind m k).
Proof.
  intros Hm Hk st. unfold bind. specialize (Hm st).
  destruct (m st) as [st' [e|a]]; simpl in *; [done|].
  etrans; [exact Hm|apply Hk].
Qed.

Lemma stable_try_catch {A} (m : M E A) h :
  stable R m -> (forall e, stable R (h e)) -> stable R (try_catch m h).
Proof.
  intros Hm Hh st. unfold try_catch. specialize (Hm st).
  destruct (m st) as [st' [e|a]]; simpl in *; [|done].
  etrans; [exact Hm|apply Hh].
Qed.

Lemma stable_emit ev : stable R (emit ev).
Proof. intros st. apply R_outside. Qed.

Lemma stable_call {A} ev (op : World E -> World E * (Exn + A)) :
  stable R (call ev op).
Proof.
  intros st. unfold call. destruct (op (world st)) as [w' r]. apply R_outside.
Qed.

Lemma stable_modify f :
  (forall st, R st (with_plugin st (f (plugin st)))) -> stable R (modify f).
Proof. intros H st. apply H. Qed.

Lemma stable_write_disk f :
  (forall st, R st (mkState (plugin st) (world st) (f (disk st)) (events st))) ->
  stable R (write_disk f).
Proof. intros H st. apply H. Qed.

Lemma stable_for_of {A} (body : A -> M E unit) items :
  Forall (fun item => stable R (body item)) items -> stable R (for_of body items).
Proof.
  induction 1 as [|item rest Hitem _ IH]; [apply stable_ret|].
  rewrite for_of_cons. apply stable_bind; [done|]. intros _. exact IH.
Qed.

(** The walk writes three fields: the root id, the folder cache, and
    the file ids (only ever with a non-empty id). *)
Hypothesis R_root :
  forall st id, R st (with_plugin st (set_obsidianFolderId id (plugin st))).
Hypothesis R_folders :
  forall st m, R st (with_plugin st (set_drivefolderIds m (plugin st))).
Hypothesis R_files :
  forall st k id, id <> "" ->
    R st (with_plugin st (set_fileIds (js_write (fileIds (plugin st)) k id) (plugin st))).

Lemma stable_ensureObsidianFolder : stable R ensureObsidianFolder.
Proof.
  unfold ensureObsidianFolder, files_list, files_create, console_log.
  apply stable_bind; [apply stable_call|]. intros files.
  apply stable_bind.
  { destruct files.
    - apply stable_bind; [apply stable_call|]. intros id.
      apply stable_modify. intros st. apply R_root.
    - apply stable_modify. intros st. apply R_root. }
  intros _. apply stable_bind; [apply stable_gets|]. intros root.
  apply stable_bind; [|intros _; apply stable_emit].
  destruct root; [|apply stable_ret].
  apply stable_modify. intros st. apply R_folders.
Qed.

Lemma stable_ensureDriveFolder_loop parts cur parent :
  stable R (ensureDriveFolder_loop parts cur parent).
Proof.
  revert cur parent. induction parts as [|part rest IH]; intros cur parent.
  { apply stable_ret. }
  simpl. apply stable_bind; [apply stable_gets|]. intros cached.
  destruct (Js.truthy cached); [apply IH|].
  apply stable_bind; [apply stable_call|]. intros files.
  apply stable_bind.
  { destruct files; [apply stable_call|apply stable_ret]. }
  intros id. apply stable_bind; [|intros _; apply IH].
  apply stable_modify. intros st. apply R_folders.
Qed.

Lemma stable_ensureDriveFolder folderPath : stable R (ensureDriveFolder folderPath).
Proof.
  unfold ensureDriveFolder. apply stable_bind; [apply stable_gets|].
  intros root. apply stable_ensureDriveFolder_loop.
Qed.

Lemma stable_uploadFile filePath content mimeType :
  stable R (uploadFile filePath content mimeType).
Proof.
  unfold uploadFile. apply stable_bind; [apply stable_ensureDriveFolder|].
  intros parentId. apply stable_try_catch.
  - apply stable_bind; [apply stable_gets|]. intros known.
    destruct (Js.truthy known);
      (apply stable_bind; [apply stable_call|]; intros id;
       apply stable_bind; [apply stable_emit|]; intros _; apply stable_ret).
  - intros e. apply stable_bind; [apply stable_emit|]. intros _. apply stable_ret.
Qed.

Lemma stable_read_content f mimeType : stable R (read_content f mimeType).
Proof.
  unfold read_content.
  destruct (_ || _);
    (apply stable_bind; [apply stable_call|]; intros ?; apply stable_ret).
Qed.

Lemma stable_upload_and_record f filePath mimeType :
  stable R (upload_and_record f filePath mimeType).
Proof.
  unfold upload_and_record. apply stable_bind; [apply stable_read_content|].
  intros content. apply stable_bind; [apply stable_uploadFile|].
  intros [id|]; simpl; [|apply stable_ret].
  destruct (String.eqb_spec id ""); simpl; [apply stable_ret|].
  apply stable_modify. intros st. by apply R_files.
Qed.

Lemma stable_uploadObsidianFile f cur : stable R (uploadObsidianFile f cur).
Proof.
  unfold uploadObsidianFile. apply stable_bind; [apply stable_gets|].
  intros last. destruct (not_modified f last).
  - apply stable_emit.
  - apply stable_upload_and_record.
Qed.

Lemma stable_uploadItem item : forall cur, stable R (uploadItem item cur).
Proof.
  induction item as [f|n children IH] using TAbstractFile_ind'; intros cur.
  - apply stable_uploadObsidianFile.
  - rewrite uploadItem_folder.
    apply stable_bind; [apply stable_ensureDriveFolder|]. intros _.
    apply stable_for_of. eapply Forall_impl; [exact IH|]. intros item H. apply H.
Qed.

Lemma stable_uploadFolderContents children cur :
  stable R (uploadFolderContents children cur).
Proof.
  apply stable_for_of. apply Forall_forall. intros item _. apply stable_uploadItem.
Qed.

(** The orchestrator also assigns the timestamp and saves. *)
Hypothesis R_timestamp :
  forall st t,
    R st (with_plugin st
            (set_settings (set_lastSyncTimestamp t (settings (plugin st))) (plugin st))).
Hypothesis R_saveSettings : stable R saveSettings.
Hypothesis R_saveFileIds : stable R saveFileIds.

Lemma stable_syncWithGoogleDrive root : stable R (syncWithGoogleDrive root).
Proof.
  unfold syncWithGoogleDrive, notice.
  apply stable_bind; [apply stable_gets|]. intros token.
  destruct (negb _); [apply stable_emit|].
  apply stable_try_catch.
  - apply stable_bind; [apply stable_call|intros _].
    apply stable_bind; [apply stable_emit|intros _].
    apply stable_bind; [apply stable_modify; intros st; apply R_folders|intros _].
    apply stable_bind; [apply stable_ensureObsidianFolder|intros _].
    apply stable_bind; [apply stable_uploadFolderContents|intros _].
    apply stable_bind; [apply stable_call|intros now].
    apply stable_bind; [apply stable_modify; intros st; apply R_timestamp|intros _].
    apply stable_bind; [apply R_saveSettings|intros _].
    apply stable_bind; [apply R_saveFileIds|intros _].
    apply stable_emit.
  - intros e. apply stable_bind; [apply stable_emit|intros _]. apply stable_emit.
Qed.

End Stability.

(** ** Two relations every step of the walk keeps *)

Section Relations.

Context {E : Env}.

#[global] Instance same_settings_preorder : PreOrder (same_settings (E:=E)).
Proof.
  split.
  - intros st. by split.
  - intros a b c [H1 H2] [H3 H4]. split; congruence.
Qed.

#[global] Instance log_extends_preorder : PreOrder (log_extends (E:=E)).
Proof.
  split.
  - intros st. exists []. by rewrite app_nil_r.
  - intros a b c [e1 H1] [e2 H2]. exists (e1 ++ e2).
    by rewrite H2, H1, app_assoc.
Qed.

Lemma walk_keeps_settings children cur :
  stable same_settings (uploadFolderContents (E:=E) children cur).
Proof. apply stable_uploadFolderContents; try apply _; intros; by split. Qed.

Lemma root_keeps_settings : stable same_settings (ensureObsidianFolder (E:=E)).
Proof. apply stable_ensureObsidianFolder; try apply _; intros; by split. Qed.

End Relations.
(** ** The orchestrator *)

Section OrchestratorFacts.

Context {E : Env}.

Lemma truthy_token (st : State E) :
  logged_in st ->
  negb (Js.truthy (Js.Str (googleDriveRefreshToken (settings (plugin st))))) = false.
Proof.
  unfold logged_in. simpl.
  by destruct (String.eqb_spec (googleDriveRefreshToken (settings (plugin st))) "").
Qed.

Lemma catch_block error (st : State E) :
  bind (console_error "Error syncing with Google Drive:" error)
       (fun _ => notice "Error during sync. Please try again.") st
  = (sync_failed error st, inr tt).
Proof.
  unfold bind, console_error, notice, emit, sync_failed, with_events. simpl.
  by rewrite <- app_assoc.
Qed.

(** A throw before the timestamp assignment lands in the [catch]
    block, which logs, notifies and returns. *)
Lemma sync_throws_early root (st st' : State E) e :
  logged_in st ->
  steps_before_timestamp root st = (st', inl e) ->
  syncWithGoogleDrive root st = (sync_failed e st', inr tt).
Proof.
  intros Hin Hsteps.
  unfold syncWithGoogleDrive. unfold bind at 1, gets at 1.
  rewrite (truthy_token _ Hin).
  unfold steps_before_timestamp in Hsteps.
  unfold try_catch, bind in *.
  repeat match type of Hsteps with
         | context [match ?m st with _ => _ end] => destruct (m st) as [? [?|?]]
         | context [match ?m ?s with _ => _ end] => destruct (m s) as [? [?|?]]
         end.
  all: try match type of Hsteps with
           | uploadVaultContents ?r ?s = _ =>
               destruct (uploadVaultContents r s) as [? [?|?]]
           end.
  all: simplify_eq; apply catch_block.
Qed.

Lemma sync_not_logged_in root (st : State E) :
  ~ logged_in st ->
  syncWithGoogleDrive root st =
  (with_events st (events st ++ [EvNotice "Please log in to Google Drive first."]),
   inr tt).
Proof.
  intros Hout. unfold syncWithGoogleDrive, bind at 1, gets at 1. simpl.
  destruct (String.eqb_spec (googleDriveRefreshToken (settings (plugin st))) "");
    [done|]. by destruct Hout.
Qed.

(** A pass of a logged-in plugin: the steps up to the walk, the
    steps after it, and the [catch] block around both. *)
Lemma sync_unfold root (st : State E) :
  logged_in st ->
  syncWithGoogleDrive root st =
  try_catch (bind (steps_before_timestamp root) (fun _ => finish_pass)) report_failure st.
Proof.
  intros Hin. unfold syncWithGoogleDrive. unfold bind at 1, gets at 1.
  rewrite (truthy_token _ Hin).
  unfold steps_before_timestamp, finish_pass, report_failure, try_catch, bind.
  repeat match goal with
         | |- context [match ?m st with _ => _ end] => destruct (m st) as [? [?|?]]
         | |- context [match ?m ?s with _ => _ end] =>
             lazymatch m with
             | call EvDateNow _ => fail
             | console_error _ _ => fail
             | _ => destruct (m s) as [? [?|?]]
             end
         end; reflexivity.
Qed.

Lemma sync_after_steps root (st sw : State E) :
  logged_in st ->
  steps_before_timestamp root st = (sw, inr tt) ->
  syncWithGoogleDrive root st = try_catch finish_pass report_failure sw.
Proof.
  intros Hin Hsteps. rewrite (sync_unfold _ _ Hin).
  unfold try_catch, bind. by rewrite Hsteps.
Qed.

Lemma steps_keep_settings root :
  stable same_settings (steps_before_timestamp (E:=E) root).
Proof.
  unfold steps_before_timestamp, notice.
  apply stable_bind; [apply _|apply stable_call; intros; by split|intros _].
  apply stable_bind; [apply _|apply stable_emit; intros; by split|intros _].
  apply stable_bind; [apply _|apply stable_modify; intros; by split|intros _].
  apply stable_bind; [apply _|apply root_keeps_settings|intros _].
  apply walk_keeps_settings.
Qed.

(** C2. When a step awaited before the assignment of
    [lastSyncTimestamp] throws, the pass ends with the timestamp it
    started with, in memory and on disk. *)
Theorem lastSyncTimestamp_kept_on_failure
    (root : list TAbstractFile) (st : State E) (e : Exn) :
  snd (steps_before_timestamp root st) = inl e ->
  let final := fst (syncWithGoogleDrive root st) in
  lastSyncTimestamp (settings (plugin final))
    = lastSyncTimestamp (settings (plugin st)) /\
  disk final = disk st.
Proof.
  intros Hthrow final. subst final.
  destruct (decide (logged_in st)) as [Hin|Hout].
  - destruct (steps_before_timestamp root st) as [st' r] eqn:Hsteps.
    simpl in Hthrow. subst r.
    rewrite (sync_throws_early _ _ _ _ Hin Hsteps). simpl.
    pose proof (steps_keep_settings root st) as [Hs Hd].
    rewrite Hsteps in Hs, Hd. simpl in *. by rewrite Hs, Hd.
  - by rewrite (sync_not_logged_in _ _ Hout).
Qed.

End OrchestratorFacts.

(** ** The uploader *)

Section UploaderFacts.

Context {E : Env}.

#[global] Instance same_fileIds_preorder : PreOrder (same_fileIds (E:=E)).
Proof.
  split.
  - by intros st.
  - intros a b c H1 H2. unfold same_fileIds in *. congruence.
Qed.

Lemma resolver_keeps_fileIds folderPath :
  stable same_fileIds (ensureDriveFolder (E:=E) folderPath).
Proof. apply stable_ensureDriveFolder; try apply _; by intros. Qed.

Lemma read_keeps_plugin f mimeType (st : State E) :
  plugin (fst (read_content f mimeType st)) = plugin st.
Proof.
  unfold read_content.
  destruct (_ || _); unfold bind, call;
    [destruct (vault_read E f (world st)) as [w [e|s]]
    |destruct (vault_readBinary E f (world st)) as [w [e|s]]]; reflexivity.
Qed.

(** A vault read writes one line to the log and leaves the plugin
    fields alone, whatever it answers. *)
Lemma read_content_run f mimeType (st : State E) :
  exists w r,
    read_content f mimeType st
    = (after_call st w
         [if Js.startsWith mimeType "text/" || String.eqb mimeType "application/json"
          then EvRead f else EvReadBinary f], r).
Proof.
  unfold read_content.
  destruct (_ || _); unfold bind, call, after_call;
    [destruct (vault_read E f (world st)) as [w [e|s]]
    |destruct (vault_readBinary E f (world st)) as [w [e|s]]]; by eexists _, _.
Qed.

(** [uploadFile] after its parent folder is resolved: one remote call,
    one console line, and no exception whatever the answer. *)
Lemma uploadFile_run filePath content mimeType (st sf : State E) parentId :
  ensureDriveFolder (Path.dirname filePath) st = (sf, inr parentId) ->
  uploadFile filePath content mimeType st =
  match file_answer filePath content mimeType parentId sf with
  | (w, inr id) =>
      (after_call sf w [file_request filePath content mimeType parentId sf;
                        file_logged filePath sf id], inr (Some id))
  | (w, inl e) =>
      (after_call sf w [file_request filePath content mimeType parentId sf;
                        upload_error filePath e], inr None)
  end.
Proof.
  intros Hres. unfold uploadFile.
  rewrite (bind_returns _ _ _ _ _ Hres).
  unfold file_answer, file_request, file_logged, upload_error, after_call.
  unfold try_catch, bind at 1, gets at 1.
  destruct (Js.truthy (Js.read (fileIds (plugin sf)) filePath));
    unfold bind, files_update, files_create, call, console_log, console_error, emit;
    simpl;
    match goal with
    | |- context [drive_files_update E ?r ?w] =>
        destruct (drive_files_update E r w) as [w' [e|id]]
    | |- context [drive_files_create E ?r ?w] =>
        destruct (drive_files_create E r w) as [w' [e|id]]
    end; simpl; by rewrite <- app_assoc.
Qed.

Lemma uploadFile_resolver_throws filePath content mimeType (st sf : State E) e :
  ensureDriveFolder (Path.dirname filePath) st = (sf, inl e) ->
  uploadFile filePath content mimeType st = (sf, inl e).
Proof. intros Hres. unfold uploadFile. by rewrite (bind_throws _ _ _ _ _ Hres). Qed.

(** [uploadObsidianFile] on a file that is not skipped, once its
    content is read and its parent folder resolved. *)
Lemma uploadObsidianFile_run f cur (st sr sf : State E) content parentId :
  let path := Path.join cur (name f) in
  let mime := getMimeType (extension f) in
  not_modified f (lastSyncTimestamp (settings (plugin st))) = false ->
  read_content f mime st = (sr, inr content) ->
  ensureDriveFolder (Path.dirname path) sr = (sf, inr parentId) ->
  uploadObsidianFile f cur st =
  match file_answer path content mime parentId sf with
  | (w, inr id) =>
      let done := after_call sf w [file_request path content mime parentId sf;
                                   file_logged path sf id] in
      (if Js.truthy (Js.Str id) then record_fileId path id done else done, inr tt)
  | (w, inl e) =>
      (after_call sf w [file_request path content mime parentId sf;
                        upload_error path e], inr tt)
  end.
Proof.
  intros path mime Hmod Hread Hres.
  unfold uploadObsidianFile, bind at 1, gets at 1. fold path mime. rewrite Hmod.
  unfold upload_and_record.
  rewrite (bind_returns _ _ _ _ _ Hread).
  unfold bind. rewrite (uploadFile_run _ _ _ _ _ _ Hres).
  destruct (file_answer path content mime parentId sf) as [w [e|id]]; [done|].
  simpl. by destruct (String.eqb id "").
Qed.

End UploaderFacts.

Section UploaderClaims.

Context {E : Env}.

Lemma absolute_not_inherited path :
  Path.isAbsolute path = true -> path ∉ Js.prototype_members.
Proof.
  intros Habs Hin. unfold Js.prototype_members in Hin.
  repeat (apply elem_of_cons in Hin as [->|Hin]; [done|]).
  by apply elem_of_nil in Hin.
Qed.

Lemma absolute_not_proto path :
  Path.isAbsolute path = true -> String.eqb path "__proto__" = false.
Proof. intros Habs. by destruct (String.eqb_spec path "__proto__") as [->|]. Qed.

Lemma get_known (m : gmap string Js.Val) path id :
  m !! path = Some (Js.Str id) -> id <> "" ->
  Js.read m path = Js.Str id /\ Js.truthy (Js.read m path) = true.
Proof.
  intros Hm Hid. unfold Js.read. rewrite Hm. split; [done|]. simpl.
  by destruct (String.eqb_spec id "").
Qed.

Lemma get_unknown (m : gmap string Js.Val) path :
  m !! path = None -> Path.isAbsolute path = true ->
  Js.truthy (Js.read m path) = false.
Proof.
  intros Hm Habs. unfold Js.read. rewrite Hm.
  rewrite bool_decide_eq_false_2; [done|]. by apply absolute_not_inherited.
Qed.

(** C4. When the create or update call for a file fails, [uploadFile]
    catches the error, logs it and returns null; [uploadObsidianFile]
    returns normally with [fileIds] as it was, and the walk goes on
    with the next item. *)
Theorem failed_file_call_is_caught
    (f : TFile) (cur : string) (st sr sf : State E)
    (content : Content) (parentId : Js.Val) (w : World E) (e : Exn) :
  let path := Path.join cur (name f) in
  let mime := getMimeType (extension f) in
  not_modified f (lastSyncTimestamp (settings (plugin st))) = false ->
  read_content f mime st = (sr, inr content) ->
  ensureDriveFolder (Path.dirname path) sr = (sf, inr parentId) ->
  file_answer path content mime parentId sf = (w, inl e) ->
  let final := after_call sf w [file_request path content mime parentId sf;
                                upload_error path e] in
  uploadFile path content mime sr = (final, inr None) /\
  uploadObsidianFile f cur st = (final, inr tt) /\
  fileIds (plugin final) = fileIds (plugin st) /\
  forall rest,
    uploadFolderContents (File f :: rest) cur st = uploadFolderContents rest cur final.
Proof.
  intros path mime Hmod Hread Hres Hfail final.
  assert (Hfile : uploadObsidianFile f cur st = (final, inr tt)).
  { rewrite (uploadObsidianFile_run _ _ _ _ _ _ _ Hmod Hread Hres).
    fold path mime. by rewrite Hfail. }
  repeat split.
  - rewrite (uploadFile_run _ _ _ _ _ _ Hres). by rewrite Hfail.
  - exact Hfile.
  - pose proof (resolver_keeps_fileIds (Path.dirname path) sr) as Hkeep.
    pose proof (read_keeps_plugin f mime st) as Hplug.
    rewrite Hres in Hkeep. rewrite Hread in Hplug. unfold same_fileIds in Hkeep.
    simpl in *. by rewrite Hkeep, Hplug.
  - intros rest. rewrite uploadFolderContents_cons.
    by rewrite (bind_returns (uploadItem (File f) cur) _ st final tt Hfile).
Qed.

(** C6. Once the parent folder is resolved, [uploadFile] issues one
    remote call: an update of the recorded id when [fileIds] holds an
    id for the path, a create under the resolved parent when it holds
    none.  So a file uploaded once is updated, under the id recorded
    then, when it is uploaded again. *)
Theorem uploadFile_update_or_create
    (filePath : string) (content : Content) (mimeType : string)
    (st sf : State E) (parentId : Js.Val) :
  Path.isAbsolute filePath = true ->
  ensureDriveFolder (Path.dirname filePath) st = (sf, inr parentId) ->
  let issued := issued_after sf (fst (uploadFile filePath content mimeType st)) in
  let fileName := Path.basename filePath in
  (forall id, fileIds (plugin st) !! filePath = Some (Js.Str id) -> id <> "" ->
     List.filter is_remote_call issued =
     [EvUpdate (mkUpdate (Js.Str id) fileName [parentId] mimeType content)]) /\
  (fileIds (plugin st) !! filePath = None ->
     List.filter is_remote_call issued =
     [EvCreate (CreateFile fileName [parentId] mimeType content)]) /\
  (forall id again content' sf' parentId',
     uploadFile filePath content mimeType st = (again, inr (Some id)) -> id <> "" ->
     let recorded := record_fileId filePath id again in
     ensureDriveFolder (Path.dirname filePath) recorded = (sf', inr parentId') ->
     List.filter is_remote_call
       (issued_after sf' (fst (uploadFile filePath content' mimeType recorded))) =
     [EvUpdate (mkUpdate (Js.Str id) fileName [parentId'] mimeType content')]).
Proof.
  intros Habs Hres issued fileName.
  assert (Hrule : forall (s s' : State E) c p,
    ensureDriveFolder (Path.dirname filePath) s = (s', inr p) ->
    List.filter is_remote_call (issued_after s' (fst (uploadFile filePath c mimeType s)))
    = List.filter is_remote_call [file_request filePath c mimeType p s']).
  { intros s s' c p Hs. rewrite (uploadFile_run _ _ _ _ _ _ Hs).
    assert (Hlog : forall id, is_remote_call (file_logged filePath s' id) = false).
    { intros id. unfold file_logged.
      by destruct (Js.truthy (Js.read (fileIds (plugin s')) filePath)). }
    destruct (file_answer filePath c mimeType p s') as [w [e|id]];
      (erewrite issued_after_app; [|reflexivity]);
      cbn [List.filter]; rewrite ?Hlog; reflexivity. }
  assert (Hsame : forall (s s' : State E) (p : Js.Val),
    ensureDriveFolder (Path.dirname filePath) s = (s', inr p) ->
    fileIds (plugin s') = fileIds (plugin s)).
  { intros s s' p Hs. pose proof (resolver_keeps_fileIds (Path.dirname filePath) s) as H.
    by rewrite Hs in H. }
  split; [|split].
  - intros id Hid Hne. subst issued. rewrite (Hrule _ _ _ _ Hres).
    unfold file_request. rewrite (Hsame _ _ _ Hres).
    destruct (get_known _ _ _ Hid Hne) as [-> ->]. reflexivity.
  - intros Hnone. subst issued. rewrite (Hrule _ _ _ _ Hres).
    unfold file_request. rewrite (Hsame _ _ _ Hres).
    by rewrite (get_unknown _ _ Hnone Habs).
  - intros id again content' sf' parentId' Hfirst Hne recorded Hres'.
    rewrite (Hrule _ _ _ _ Hres'). unfold file_request.
    rewrite (Hsame _ _ _ Hres').
    assert (Hrec : fileIds (plugin recorded) !! filePath = Some (Js.Str id)).
    { unfold recorded, record_fileId, js_write. simpl.
      rewrite (absolute_not_proto _ Habs). apply lookup_insert_eq. }
    destruct (get_known _ _ _ Hrec Hne) as [-> ->]. reflexivity.
Qed.

End UploaderClaims.

(** ** The folder resolver *)

Section ResolverFacts.

Context {E : Env}.

Lemma cached_js_set cache key id k :
  cached cache key = false -> cached cache k = true ->
  cached (js_set cache key id) k = true.
Proof.
  unfold cached, js_set, Js.get. intros Hkey Hk.
  destruct (String.eqb key "__proto__"); [done|].
  destruct (decide (key = k)) as [->|Hne]; [congruence|].
  by rewrite lookup_insert_ne.
Qed.

Lemma uncached_parts_mono (c c' : gmap string string) parts cur :
  (forall k, cached c k = true -> cached c' k = true) ->
  uncached_parts c' parts cur `sublist_of` uncached_parts c parts cur.
Proof.
  intros Hmono. revert cur. induction parts as [|part rest IH]; intros cur; simpl.
  { constructor. }
  destruct (cached c (Path.join cur part)) eqn:Hc.
  - rewrite (Hmono _ Hc). apply IH.
  - destruct (cached c' (Path.join cur part)).
    + apply sublist_cons, IH.
    + apply sublist_skip, IH.
Qed.

Lemma uncached_parts_length cache parts cur :
  length (uncached_parts cache parts cur) <= length parts.
Proof.
  revert cur. induction parts as [|part rest IH]; intros cur; simpl; [lia|].
  specialize (IH (Path.join cur part)).
  destruct (cached cache (Path.join cur part)); simpl; lia.
Qed.

(** One round of the loop. *)
Lemma loop_step part rest cur parent (st : State E) :
  ensureDriveFolder_loop (part :: rest) cur parent st =
  let key := Path.join cur part in
  let q := EvList (mkQuery part (Some parent)) in
  let c := EvCreate (CreateFolder part [parent]) in
  if cached (drivefolderIds (plugin st)) key then
    ensureDriveFolder_loop rest key (Js.get (drivefolderIds (plugin st)) key) st
  else
    match drive_files_list E (mkQuery part (Some parent)) (world st) with
    | (w, inl e) => (after_call st w [q], inl e)
    | (w, inr (first :: _)) =>
        ensureDriveFolder_loop rest key (Js.Str first)
          (cache_folder key first (after_call st w [q]))
    | (w, inr []) =>
        match drive_files_create E (CreateFolder part [parent]) w with
        | (w', inl e) => (after_call st w' [q; c], inl e)
        | (w', inr id) =>
            ensureDriveFolder_loop rest key (Js.Str id)
              (cache_folder key id (after_call st w' [q; c]))
        end
    end.
Proof.
  cbn [ensureDriveFolder_loop]. unfold bind at 1, gets at 1, cached.
  destruct (Js.truthy (Js.get (drivefolderIds (plugin st)) (Path.join cur part)));
    [reflexivity|].
  unfold bind at 1, files_list, call.
  destruct (drive_files_list E (mkQuery part (Some parent)) (world st))
    as [w [e|[|first others]]]; [reflexivity| |reflexivity].
  unfold bind at 1, files_create, call. cbn [world].
  destruct (drive_files_create E (CreateFolder part [parent]) w) as [w' [e|id]].
  - unfold after_call. cbn. by rewrite <- app_assoc.
  - unfold bind, modify, cache_folder, after_call, with_plugin. cbn.
    by rewrite <- app_assoc.
Qed.

(** The loop over a list of segments, in two parts. *)
Lemma loop_app before : forall rest cur parent (st : State E),
  ensureDriveFolder_loop (before ++ rest) cur parent st =
  match ensureDriveFolder_loop before cur parent st with
  | (s1, inr p) => ensureDriveFolder_loop rest (fold_left Path.join before cur) p s1
  | (s1, inl e) => (s1, inl e)
  end.
Proof.
  induction before as [|part before IH]; intros rest cur parent st; [done|].
  change ((part :: before) ++ rest) with (part :: (before ++ rest)).
  rewrite !loop_step. cbn zeta. cbn [fold_left].
  destruct (cached (drivefolderIds (plugin st)) (Path.join cur part)); [apply IH|].
  destruct (drive_files_list E (mkQuery part (Some parent)) (world st))
    as [w [e|[|first others]]]; [done| |apply IH].
  destruct (drive_files_create E (CreateFolder part [parent]) w) as [w' [e|id]];
    [done|apply IH].
Qed.

(** A failing list or create call leaves the resolver as an
    exception, right after the call. *)
Lemma failing_folder_operation_throws folderPath (st sf : State E) e :
  folder_operation_fails folderPath st sf e ->
  ensureDriveFolder folderPath st = (sf, inl e).
Proof.
  intros (before & part & rest & s1 & parent & Hparts & Hbefore & Hcached & Hcall).
  unfold ensureDriveFolder, bind at 1, gets at 1.
  rewrite Hparts, loop_app, Hbefore, loop_step. cbn zeta. rewrite Hcached.
  cbn zeta in Hcall.
  destruct Hcall as [(w & Hlist & ->)|(w & w' & Hlist & Hcreate & ->)].
  - by rewrite Hlist.
  - by rewrite Hlist, Hcreate.
Qed.

(** The loop of the resolver only lists and creates folders, asks
    only about segments the cache does not answer, in order, and
    creates only what it has just asked about. *)
Lemma loop_calls parts : forall cur parent (st : State E),
  exists issued,
    events (fst (ensureDriveFolder_loop parts cur parent st)) = events st ++ issued /\
    Forall folder_call issued /\
    listed_names issued
      `sublist_of` uncached_parts (drivefolderIds (plugin st)) parts cur /\
    created_folder_names issued `sublist_of` listed_names issued.
Proof.
  induction parts as [|part rest IH]; intros cur parent st.
  { exists []. simpl. rewrite app_nil_r. repeat split; constructor. }
  rewrite loop_step. cbn zeta. cbn [uncached_parts].
  destruct (cached (drivefolderIds (plugin st)) (Path.join cur part)) eqn:Hc.
  { apply IH. }
  destruct (drive_files_list E (mkQuery part (Some parent)) (world st))
    as [w [e|[|first others]]].
  - exists [EvList (mkQuery part (Some parent))]. simpl. repeat split.
    + repeat constructor.
    + apply sublist_skip, sublist_nil_l.
    + apply sublist_nil_l.
  - destruct (drive_files_create E (CreateFolder part [parent]) w) as [w' [e|id]].
    { exists [EvList (mkQuery part (Some parent)); EvCreate (CreateFolder part [parent])].
      simpl. repeat split.
      - repeat constructor.
      - apply sublist_skip, sublist_nil_l.
      - reflexivity. }
    match goal with
    | |- context [ensureDriveFolder_loop rest ?c ?p ?s] =>
        destruct (IH c p s) as (issued & Hev & Hall & Hlist & Hcreate)
    end.
    exists (EvList (mkQuery part (Some parent))
            :: EvCreate (CreateFolder part [parent]) :: issued).
    rewrite Hev. simpl. rewrite <- !app_assoc. repeat split.
    + repeat constructor; done.
    + apply sublist_skip. etrans; [exact Hlist|]. simpl.
      apply uncached_parts_mono. intros k. by apply cached_js_set.
    + apply sublist_skip, Hcreate.
  - match goal with
    | |- context [ensureDriveFolder_loop rest ?c ?p ?s] =>
        destruct (IH c p s) as (issued & Hev & Hall & Hlist & Hcreate)
    end.
    exists (EvList (mkQuery part (Some parent)) :: issued).
    rewrite Hev. simpl. rewrite <- !app_assoc. repeat split.
    + repeat constructor; done.
    + apply sublist_skip. etrans; [exact Hlist|]. simpl.
      apply uncached_parts_mono. intros k. by apply cached_js_set.
    + apply sublist_cons, Hcreate.
Qed.

Lemma count_listed evs : count_calls is_list_call evs = length (listed_names evs).
Proof.
  unfold count_calls, listed_names.
  induction evs as [|[] evs IH]; simpl; auto.
Qed.

Lemma count_created evs :
  count_calls is_create_folder_call evs = length (created_folder_names evs).
Proof.
  unfold count_calls, created_folder_names.
  induction evs as [|[| |[]| | | | | | | | |] evs IH]; simpl; auto.
Qed.

Lemma folder_calls_only evs :
  Forall folder_call evs ->
  listed_names evs = [] -> created_folder_names evs = [] -> evs = [].
Proof.
  intros Hall Hl Hc. destruct evs as [|ev evs]; [done|].
  exfalso. inversion Hall as [|? ? Hev Hrest]; subst.
  unfold folder_call in Hev.
  destruct ev as [| |[]| | | | | | | | |]; simpl in *; done.
Qed.

End ResolverFacts.

Section ResolverBounds.

Context {E : Env}.

Lemma all_cached_no_parts cache parts cur :
  Forall (fun key => cached cache key = true) (segment_paths parts cur) ->
  uncached_parts cache parts cur = [].
Proof.
  revert cur. induction parts as [|part rest IH]; intros cur Hall; [done|].
  simpl in *. inversion Hall as [|? ? Hkey Hrest]; subst.
  rewrite Hkey. by apply IH.
Qed.

Lemma ensureDriveFolder_calls folderPath (st : State E) :
  exists issued,
    events (fst (ensureDriveFolder folderPath st)) = events st ++ issued /\
    Forall folder_call issued /\
    listed_names issued `sublist_of`
      uncached_parts (drivefolderIds (plugin st)) (pathParts_of folderPath) "" /\
    created_folder_names issued `sublist_of` listed_names issued.
Proof.
  unfold ensureDriveFolder, bind at 1, gets at 1. apply loop_calls.
Qed.

(** C7. Resolving a folder path of [n] segments issues at most [n]
    list-children queries and at most [n] create-folder calls, nothing
    else; the queries are for segments the folder-id cache does not
    answer, the creations for segments just queried; when every
    segment is cached no call is issued at all. *)
Theorem resolver_call_bounds (folderPath : string) (st : State E) :
  let parts := pathParts_of folderPath in
  let cache := drivefolderIds (plugin st) in
  let issued := issued_after st (fst (ensureDriveFolder folderPath st)) in
  count_calls is_list_call issued <= length parts /\
  count_calls is_create_folder_call issued <= length parts /\
  Forall folder_call issued /\
  listed_names issued `sublist_of` uncached_parts cache parts "" /\
  created_folder_names issued `sublist_of` listed_names issued /\
  (Forall (fun key => cached cache key = true) (segment_paths parts "") ->
   issued = []).
Proof.
  intros parts cache issued.
  destruct (ensureDriveFolder_calls folderPath st) as (evs & Hev & Hall & Hl & Hc).
  assert (issued = evs) as -> by (by apply issued_after_app).
  fold parts cache in Hl.
  pose proof (uncached_parts_length cache parts "") as Hlen.
  pose proof (sublist_length _ _ Hl) as Hl'.
  pose proof (sublist_length _ _ Hc) as Hc'.
  rewrite count_listed, count_created.
  repeat split; try done; try lia.
  intros Hcached. rewrite (all_cached_no_parts _ _ _ Hcached) in Hl.
  apply sublist_nil_r in Hl. rewrite Hl in Hc. apply sublist_nil_r in Hc.
  by apply folder_calls_only.
Qed.

End ResolverBounds.

(** ** The change detector *)

Section ChangeDetector.

Context {E : Env}.

Lemma read_event_no_file_call f : is_file_call (read_event f) = false.
Proof. unfold read_event. by destruct (_ || _). Qed.

Lemma file_request_is_file_call path content mime parentId (st : State E) :
  is_file_call (file_request path content mime parentId st) = true.
Proof. unfold file_request. by destruct (Js.truthy _). Qed.

Lemma folder_calls_no_file_call (evs : list Event) :
  Forall folder_call evs -> List.filter is_file_call evs = [].
Proof.
  induction 1 as [|ev evs Hev _ IH]; [done|].
  destruct ev as [| | [] | | | | | | | | |]; try (by vm_compute in Hev); exact IH.
Qed.

(** What [uploadObsidianFile] writes to the log when the detector lets
    the file through: the read first; then, if the read is answered,
    the calls of the resolver for the parent folder; then, if the
    parent is resolved, the file call and one console line. *)
Lemma upload_branch_log f cur (st : State E) :
  let path := Path.join cur (name f) in
  let mime := getMimeType (extension f) in
  not_modified f (lastSyncTimestamp (settings (plugin st))) = false ->
  exists later,
    issued_after st (fst (uploadObsidianFile f cur st)) = read_event f :: later /\
    forall (sr sf : State E) content parentId,
      read_content f mime st = (sr, inr content) ->
      ensureDriveFolder (Path.dirname path) sr = (sf, inr parentId) ->
      exists folders console,
        Forall folder_call folders /\
        later = folders ++ [file_request path content mime parentId sf; console] /\
        is_file_call console = false.
Proof.
  intros path mime Hmod.
  destruct (read_content_run f mime st) as (w & r & Hread).
  change (read_content f mime st = (after_call st w [read_event f], r)) in Hread.
  destruct r as [e|content].
  { exists []. split.
    - unfold uploadObsidianFile, bind at 1, gets at 1. fold path mime. rewrite Hmod.
      unfold upload_and_record. rewrite (bind_throws _ _ _ _ _ Hread). cbn [fst].
      by erewrite issued_after_app.
    - intros sr sf c p Hr. by rewrite Hread in Hr. }
  set (sr := after_call st w [read_event f]) in *.
  destruct (ensureDriveFolder_calls (Path.dirname path) sr)
    as (folders & Hev & Hall & _).
  destruct (ensureDriveFolder (Path.dirname path) sr) as [sf [e|parentId]] eqn:Hres.
  { exists folders. split.
    - unfold uploadObsidianFile, bind at 1, gets at 1. fold path mime. rewrite Hmod.
      unfold upload_and_record. rewrite (bind_returns _ _ _ _ _ Hread).
      rewrite (bind_throws _ _ _ _ _ (uploadFile_resolver_throws _ _ _ _ _ _ Hres)).
      cbn [fst] in *. erewrite issued_after_app; [reflexivity|].
      rewrite Hev. subst sr. cbn. by rewrite <- app_assoc.
    - intros sr' sf' c p Hr Hp. rewrite Hread in Hr. injection Hr as <- <-.
      by rewrite Hres in Hp. }
  cbn [fst] in Hev.
  assert (Hlog : forall id, is_file_call (file_logged path sf id) = false).
  { intros id. unfold file_logged. by destruct (Js.truthy _). }
  pose proof (uploadObsidianFile_run f cur st sr sf content parentId Hmod Hread Hres)
    as Hrun. cbn zeta in Hrun. fold path mime in Hrun.
  destruct (file_answer path content mime parentId sf) as [w' [e|id]] eqn:Hanswer.
  - exists (folders ++ [file_request path content mime parentId sf; upload_error path e]).
    split.
    + rewrite Hrun. cbn [fst]. erewrite issued_after_app; [reflexivity|].
      cbn. rewrite Hev. subst sr. cbn. by rewrite <- !app_assoc.
    + intros sr' sf' c p Hr Hp. rewrite Hread in Hr. injection Hr as <- <-.
      rewrite Hres in Hp. injection Hp as <- <-. by eexists _, _.
  - exists (folders ++ [file_request path content mime parentId sf; file_logged path sf id]).
    split.
    + rewrite Hrun. cbn [fst]. erewrite issued_after_app; [reflexivity|].
      destruct (Js.truthy (Js.Str id)); cbn; rewrite Hev; subst sr; cbn;
        by rewrite <- !app_assoc.
    + intros sr' sf' c p Hr Hp. rewrite Hread in Hr. injection Hr as <- <-.
      rewrite Hres in Hp. injection Hp as <- <-. by eexists _, _.
Qed.

Lemma let_through_uploads f cur (st : State E) :
  not_modified f (lastSyncTimestamp (settings (plugin st))) = false -> uploads f cur st.
Proof.
  intros Hmod. destruct (upload_branch_log f cur st Hmod) as (later & Hissued & Hlater).
  unfold uploads. cbn zeta. rewrite Hissued. split; [done|].
  intros sr sf content parentId Hread Hres.
  destruct (Hlater sr sf content parentId Hread Hres)
    as (folders & console & Hall & -> & Hconsole).
  cbn [List.filter]. rewrite read_event_no_file_call, List.filter_app.
  rewrite (folder_calls_no_file_call _ Hall). cbn [List.filter app].
  by rewrite file_request_is_file_call, Hconsole.
Qed.

Lemma not_let_through_skips f cur (st : State E) :
  not_modified f (lastSyncTimestamp (settings (plugin st))) = true ->
  uploadObsidianFile f cur st = skipped f cur st.
Proof.
  intros Hmod. unfold uploadObsidianFile, bind, gets. by rewrite Hmod.
Qed.

Lemma skipped_not_uploads f cur (st : State E) :
  uploadObsidianFile f cur st = skipped f cur st -> ~ uploads f cur st.
Proof.
  intros Hskip [Hhead _]. rewrite Hskip in Hhead. cbn [fst skipped] in Hhead.
  erewrite issued_after_app in Hhead; [|reflexivity].
  unfold read_event in Hhead. by destruct (_ || _).
Qed.

(** C1. With no previous sync the file is uploaded whatever its
    modification time; with a previous sync at [T] it is uploaded
    exactly when its modification time is greater than [T], and
    skipped (one console line, no read, no call) exactly when it is
    not; so a file modified at [T] is skipped and one modified at
    [T+1] is uploaded. *)
Theorem change_detector_policy (f : TFile) (cur : string) (st : State E) (T : Z) :
  let never := with_lastSync None st in
  let synced := with_lastSync (Some T) st in
  uploads f cur never /\
  (uploads f cur synced <-> (T < mtime f)%Z) /\
  (uploadObsidianFile f cur synced = skipped f cur synced <-> (mtime f <= T)%Z) /\
  uploadObsidianFile (with_mtime T f) cur synced = skipped (with_mtime T f) cur synced /\
  uploads (with_mtime (T + 1) f) cur synced.
Proof.
  intros never synced.
  assert (Hold : forall g, (mtime g <= T)%Z ->
    uploadObsidianFile g cur synced = skipped g cur synced).
  { intros g Hg. apply not_let_through_skips. cbn. by apply Z.leb_le. }
  assert (Hnew : forall g, (T < mtime g)%Z -> uploads g cur synced).
  { intros g Hg. apply let_through_uploads. cbn. by apply Z.leb_gt. }
  split; [by apply let_through_uploads|].
  split; [|split; [|split]].
  - split; [|apply Hnew]. intros Hup.
    destruct (Z.le_gt_cases (mtime f) T) as [Hle|Hlt]; [|done].
    by destruct (skipped_not_uploads _ _ _ (Hold f Hle)).
  - split; [|apply Hold]. intros Hskip.
    destruct (Z.le_gt_cases (mtime f) T) as [Hle|Hlt]; [done|].
    by destruct (skipped_not_uploads _ _ _ Hskip (Hnew f Hlt)).
  - apply Hold. cbn. lia.
  - apply Hnew. cbn. lia.
Qed.

End ChangeDetector.
(** ** Failures of folder operations *)

Section FolderFailures.

Context {E : Env}.

Lemma steps_split root (st : State E) :
  steps_before_timestamp root st =
  bind steps_before_walk (fun _ => uploadVaultContents root) st.
Proof.
  unfold steps_before_timestamp, steps_before_walk, bind.
  repeat match goal with
         | |- context [match ?m ?s with _ => _ end] =>
             lazymatch m with
             | uploadVaultContents _ => fail
             | _ => destruct (m s) as [? [?|?]]
             end
         end; reflexivity.
Qed.

(** C3 (as the code has it). A failure of a list-children or
    create-folder call is not handled where it happens.  It leaves the
    resolver as an exception right after the failing call; from the
    folder step of the walk and from [uploadFile], which resolves the
    parent folder before its [try] block, it leaves the walk, so the
    items that remain are not visited; and [syncWithGoogleDrive] ends
    the pass in its [catch] block, with [lastSyncTimestamp] as it
    was. *)
Theorem folder_failure_aborts_pass :
  (forall folderPath (st sf : State E) e,
      folder_operation_fails folderPath st sf e ->
      ensureDriveFolder folderPath st = (sf, inl e)) /\
  (forall n children rest cur (st sf : State E) e,
      folder_operation_fails (Path.join cur n) st sf e ->
      uploadFolderContents (Folder n children :: rest) cur st = (sf, inl e)) /\
  (forall f rest cur (st sr sf : State E) content e,
      let path := Path.join cur (name f) in
      let mime := getMimeType (extension f) in
      not_modified f (lastSyncTimestamp (settings (plugin st))) = false ->
      read_content f mime st = (sr, inr content) ->
      folder_operation_fails (Path.dirname path) sr sf e ->
      uploadFile path content mime sr = (sf, inl e) /\
      uploadFolderContents (File f :: rest) cur st = (sf, inl e)) /\
  (forall n children rest cur (st s1 sf : State E) parentId e,
      ensureDriveFolder (Path.join cur n) st = (s1, inr parentId) ->
      uploadFolderContents children (Path.join cur n) s1 = (sf, inl e) ->
      uploadFolderContents (Folder n children :: rest) cur st = (sf, inl e)) /\
  (forall root (st s0 sf : State E) e,
      logged_in st ->
      steps_before_walk st = (s0, inr tt) ->
      uploadVaultContents root s0 = (sf, inl e) ->
      syncWithGoogleDrive root st = (sync_failed e sf, inr tt) /\
      lastSyncTimestamp (settings (plugin (sync_failed e sf)))
        = lastSyncTimestamp (settings (plugin st))) /\
  (forall n children rest (st s0 sf : State E) e,
      logged_in st ->
      steps_before_walk st = (s0, inr tt) ->
      folder_operation_fails (Path.join "/" n) s0 sf e ->
      let final := fst (syncWithGoogleDrive (Folder n children :: rest) st) in
      snd (syncWithGoogleDrive (Folder n children :: rest) st) = inr tt /\
      issued_after sf final
        = [EvConsoleError "Error syncing with Google Drive:" e;
           EvNotice "Error during sync. Please try again."] /\
      plugin final = plugin sf /\
      lastSyncTimestamp (settings (plugin final))
        = lastSyncTimestamp (settings (plugin st)) /\
      disk final = disk st).
Proof.
  assert (Hfolder : forall n children rest cur (st sf : State E) e,
    ensureDriveFolder (Path.join cur n) st = (sf, inl e) ->
    uploadFolderContents (Folder n children :: rest) cur st = (sf, inl e)).
  { intros n children rest cur st sf e Hres.
    rewrite uploadFolderContents_cons. apply bind_throws.
    rewrite uploadItem_folder. by apply bind_throws. }
  assert (Hpass : forall root (st s0 sf : State E) e,
    logged_in st ->
    steps_before_walk st = (s0, inr tt) ->
    uploadVaultContents root s0 = (sf, inl e) ->
    syncWithGoogleDrive root st = (sync_failed e sf, inr tt) /\
    same_settings st sf).
  { intros root st s0 sf e Hin Hpre Hwalk.
    assert (Hsteps : steps_before_timestamp root st = (sf, inl e)).
    { rewrite steps_split. by rewrite (bind_returns _ _ _ _ _ Hpre). }
    split; [by apply sync_throws_early|].
    pose proof (steps_keep_settings root st) as Hs. by rewrite Hsteps in Hs. }
  split; [exact failing_folder_operation_throws|].
  split; [|split; [|split; [|split]]].
  - intros n children rest cur st sf e Hfails.
    by apply Hfolder, failing_folder_operation_throws.
  - intros f rest cur st sr sf content e path mime Hmod Hread Hfails.
    assert (Hup : uploadFile path content mime sr = (sf, inl e))
      by by apply uploadFile_resolver_throws, failing_folder_operation_throws.
    split; [exact Hup|].
    rewrite uploadFolderContents_cons. apply bind_throws.
    cbn [uploadItem]. unfold uploadObsidianFile, bind at 1, gets at 1.
    rewrite Hmod. unfold upload_and_record.
    rewrite (bind_returns _ _ _ _ _ Hread). by apply bind_throws.
  - intros n children rest cur st s1 sf parentId e Hres Hwalk.
    rewrite uploadFolderContents_cons. apply bind_throws.
    rewrite uploadItem_folder. by rewrite (bind_returns _ _ _ _ _ Hres).
  - intros root st s0 sf e Hin Hpre Hwalk.
    destruct (Hpass root st s0 sf e Hin Hpre Hwalk) as [Hsync [Hs _]].
    split; [exact Hsync|]. cbn. by rewrite Hs.
  - intros n children rest st s0 sf e Hin Hpre Hfails final.
    assert (Hwalk : uploadVaultContents (Folder n children :: rest) s0 = (sf, inl e))
      by by apply Hfolder, failing_folder_operation_throws.
    destruct (Hpass _ st s0 sf e Hin Hpre Hwalk) as [Hsync [Hs Hd]].
    subst final. rewrite Hsync. cbn [fst snd].
    split; [done|]. split; [by erewrite issued_after_app|].
    split; [done|]. split; [cbn; by rewrite Hs|exact Hd].
Qed.

End FolderFailures.


(** ** Keys of the file-id map *)

Section FileKeys.

Context {E : Env}.

Lemma pre_walk_keeps_settings : stable same_settings (steps_before_walk (E:=E)).
Proof.
  unfold steps_before_walk, notice.
  apply stable_bind; [apply _|apply stable_call; intros; by split|intros _].
  apply stable_bind; [apply _|apply stable_emit; intros; by split|intros _].
  apply stable_bind; [apply _|apply stable_modify; intros; by split|intros _].
  apply root_keeps_settings.
Qed.

Lemma pre_walk_keeps_fileIds : stable same_fileIds (steps_before_walk (E:=E)).
Proof.
  unfold steps_before_walk, notice.
  apply stable_bind; [apply _|by apply stable_call|intros _].
  apply stable_bind; [apply _|by apply stable_emit|intros _].
  apply stable_bind; [apply _|by apply stable_modify|intros _].
  apply stable_ensureObsidianFolder; try apply _; by intros.
Qed.

Lemma resolver_keeps_settings folderPath :
  stable same_settings (ensureDriveFolder (E:=E) folderPath).
Proof. apply stable_ensureDriveFolder; try apply _; intros; by split. Qed.

(** After the walk the orchestrator does not touch [fileIds], and
    sets the timestamp to what the clock reads then. *)
Lemma sync_after_walk root (st sw : State E) :
  logged_in st ->
  steps_before_timestamp root st = (sw, inr tt) ->
  fileIds (plugin (fst (syncWithGoogleDrive root st))) = fileIds (plugin sw) /\
  lastSyncTimestamp (settings (plugin (fst (syncWithGoogleDrive root st))))
    = Some (snd (date_now E (world sw))).
Proof.
  intros Hin Hsteps. rewrite (sync_after_steps _ _ _ Hin Hsteps).
  unfold try_catch, finish_pass, report_failure, saveSettings, saveFileIds,
    write_disk, modify, gets, bind, call, console_error, notice, emit.
  destruct (date_now E (world sw)) as [w1 now]. cbn.
  destruct (store_write E w1) as [w2 [e2|[]]]; cbn; [by split|].
  destruct (store_write E w2) as [w3 [e3|[]]]; cbn; by split.
Qed.

(** C5 (as the code has it). The key of a file is
    [path.join(currentPath, name)] with the walk started at ["/"], so
    it begins with the separator: a pass over the vault that holds
    exactly notes/a.md, with no previous sync and every call
    answered, records the new id under ["/notes/a.md"]; nothing is
    recorded under ["notes/a.md"]. *)
Theorem notes_file_recorded_with_leading_slash
    (st s0 s1 s2 s3 : State E) (p1 p : Js.Val) (c : Content)
    (w : World E) (id : string) :
  logged_in st ->
  lastSyncTimestamp (settings (plugin st)) = None ->
  steps_before_walk st = (s0, inr tt) ->
  ensureDriveFolder "/notes" s0 = (s1, inr p1) ->
  read_content a_md "text/markdown" s1 = (s2, inr c) ->
  ensureDriveFolder "/notes" s2 = (s3, inr p) ->
  file_answer "/notes/a.md" c "text/markdown" p s3 = (w, inr id) ->
  id <> "" ->
  let final := fst (syncWithGoogleDrive notes_vault st) in
  fileIds (plugin final) = <["/notes/a.md" := Js.Str id]> (fileIds (plugin st)) /\
  fileIds (plugin final) !! "notes/a.md" = fileIds (plugin st) !! "notes/a.md".
Proof.
  intros Hin Hnever Hpre Hfolder Hread Hparent Hanswer Hid final.
  assert (Hlast : lastSyncTimestamp (settings (plugin s1)) = None).
  { pose proof (pre_walk_keeps_settings st) as [H0 _].
    pose proof (resolver_keeps_settings "/notes" s0) as [H1 _].
    rewrite Hpre in H0. rewrite Hfolder in H1. simpl in *. by rewrite H1, H0. }
  assert (Hfile : uploadObsidianFile a_md "/notes" s1 =
    (record_fileId "/notes/a.md" id
       (after_call s3 w [file_request "/notes/a.md" c "text/markdown" p s3;
                         file_logged "/notes/a.md" s3 id]), inr tt)).
  { rewrite (uploadObsidianFile_run a_md "/notes" s1 s2 s3 c p);
      [|by rewrite Hlast|exact Hread|exact Hparent].
    change (Path.join "/notes" (name a_md)) with "/notes/a.md".
    change (getMimeType (extension a_md)) with "text/markdown".
    rewrite Hanswer. simpl. by destruct (String.eqb_spec id ""). }
  assert (Hwalk : steps_before_timestamp notes_vault st =
    (record_fileId "/notes/a.md" id
       (after_call s3 w [file_request "/notes/a.md" c "text/markdown" p s3;
                         file_logged "/notes/a.md" s3 id]), inr tt)).
  { rewrite steps_split, (bind_returns _ _ _ _ _ Hpre).
    unfold uploadVaultContents, notes_vault.
    rewrite uploadFolderContents_cons, uploadItem_folder.
    change (Path.join "/" "notes") with "/notes".
    unfold bind. rewrite Hfolder.
    rewrite uploadFolderContents_cons. cbn [uploadItem].
    unfold bind. rewrite Hfile. reflexivity. }
  assert (Hfinal : fileIds (plugin final)
                   = <["/notes/a.md" := Js.Str id]> (fileIds (plugin st))).
  { subst final. rewrite (proj1 (sync_after_walk _ _ _ Hin Hwalk)). simpl.
    unfold js_write. simpl.
    pose proof (pre_walk_keeps_fileIds st) as H0.
    pose proof (resolver_keeps_fileIds "/notes" s0) as H1.
    pose proof (read_keeps_plugin a_md "text/markdown" s1) as H2.
    pose proof (resolver_keeps_fileIds "/notes" s2) as H3.
    rewrite Hpre in H0. rewrite Hfolder in H1. rewrite Hread in H2.
    rewrite Hparent in H3. unfold same_fileIds in *. simpl in *.
    by rewrite H3, H2, H1, H0. }
  split; [exact Hfinal|].
  rewrite Hfinal. by apply lookup_insert_ne.
Qed.

End FileKeys.


(** ** The data file *)

Section DataFile.

Context {E : Env}.

Lemma onload_run (st : State E) :
  onload st =
  (mkState (mkPlugin (assign_settings (E:=E) (disk st)) (obsidianFolderId (plugin st))
                     (drivefolderIds (plugin st)) (assign_loaded (disk st)))
           (world st) (disk st) (events st), inr tt).
Proof. reflexivity. Qed.

Lemma saveFileIds_run (st : State E) :
  saveFileIds st =
  match store_write E (world st) with
  | (w, inl e) => (after_call st w [EvSaveFileIds], inl e)
  | (w, inr _) =>
      (mkState (plugin st) w (SavedString "fileIds") (events st ++ [EvSaveFileIds]), inr tt)
  end.
Proof.
  unfold saveFileIds, bind, call, write_disk, after_call.
  by destruct (store_write E (world st)) as [w [e|[]]].
Qed.

(** The index of a character is written in decimal digits, so it is
    never a path of the walk. *)
Lemma pretty_N_char_not_slash (n : N) : pretty_N_char n <> "/"%char.
Proof. unfold pretty_N_char. by repeat case_match. Qed.

Lemma pretty_N_go_relative (x : N) : forall s,
  Path.isAbsolute (pretty_N_go x s) = true -> Path.isAbsolute s = true.
Proof.
  induction (N.lt_wf_0 x) as [x _ IH]. intros s.
  destruct (decide (x = 0%N)) as [->|Hx]; [by rewrite pretty_N_go_0|].
  rewrite pretty_N_go_step by lia. intros Habs%IH.
  - cbn in Habs. apply Ascii.eqb_eq in Habs. by apply pretty_N_char_not_slash in Habs.
  - apply N.div_lt; lia.
Qed.

Lemma index_is_relative (i : nat) : Path.isAbsolute (pretty i) = false.
Proof.
  unfold pretty, pretty_nat, pretty, pretty_N. case_decide; [done|].
  apply not_true_is_false. by intros Habs%pretty_N_go_relative.
Qed.

Lemma index_keys_relative text : forall i k,
  k ∈ (Js.index_properties_from i text).*1 -> Path.isAbsolute k = false.
Proof.
  induction text as [|c text IH]; intros i k; [by intros H%elem_of_nil|].
  cbn. intros [->|Hk]%elem_of_cons; [apply index_is_relative|by apply (IH (S i))].
Qed.

(** A file-id map copied from a string holds no path of the walk. *)
Lemma reloaded_string_holds_no_path text k :
  Path.isAbsolute k = true ->
  (Js.Str <$> Js.index_properties text : gmap string Js.Val) !! k = None.
Proof.
  intros Hk. rewrite lookup_fmap. unfold Js.index_properties.
  rewrite (not_elem_of_list_to_map_1 _ k); [done|].
  intros Hin%index_keys_relative. congruence.
Qed.

End DataFile.

(** C10 (where the code departs from it). [saveData] and [loadData]
    take no key: unloading writes the string ['fileIds'] to data.json,
    not the map, and loading copies the characters of that string into
    [fileIds].  After a first pass over the vault that holds
    notes/a.md, an unload and a load, the path recorded by the pass is
    no longer a key of [fileIds]. *)
Theorem reload_forgets_recorded_paths :
  let unloaded := fst (onunload after_first_pass) in
  let reloaded := fst (onload unloaded) in
  fileIds (plugin after_first_pass) !! "/notes/a.md" = Some (Js.Str "id-2") /\
  snd (onunload after_first_pass) = inr tt /\
  fileIds (plugin unloaded) !! "/notes/a.md" = Some (Js.Str "id-2") /\
  disk unloaded = SavedString "fileIds" /\
  fileIds (plugin reloaded) = Js.Str <$> Js.index_properties "fileIds" /\
  fileIds (plugin reloaded) !! "/notes/a.md" = None /\
  fileIds (plugin reloaded) !! "0" = Some (Js.Str "f").
Proof.
  intros unloaded reloaded.
  assert (Hdisk : disk unloaded = SavedString "fileIds") by (vm_compute; reflexivity).
  assert (Hids : fileIds (plugin reloaded) = Js.Str <$> Js.index_properties "fileIds").
  { subst reloaded. rewrite onload_run. cbn [fst plugin fileIds]. by rewrite Hdisk. }
  split; [vm_compute; reflexivity|]. split; [vm_compute; reflexivity|].
  split; [vm_compute; reflexivity|]. split; [exact Hdisk|]. split; [exact Hids|].
  rewrite Hids. split; [by apply reloaded_string_holds_no_path|].
  vm_compute. reflexivity.
Qed.

(** ** Paths stay on record until the plugin is loaded again *)

Section Monotone.

Context {E : Env}.

#[global] Instance only_grows_preorder : PreOrder (only_grows (E:=E)).
Proof.
  split.
  - intros st k. by left.
  - intros a b c Hab Hbc k. destruct (Hbc k) as [Hk|Hk]; [|by right].
    rewrite Hk. apply Hab.
Qed.

Lemma only_grows_same_files (st st' : State E) :
  fileIds (plugin st') = fileIds (plugin st) -> only_grows st st'.
Proof. intros Hp k. left. by rewrite Hp. Qed.

Lemma only_grows_record (st : State E) k id :
  id <> "" -> only_grows st (record_fileId k id st).
Proof.
  intros Hid k'. unfold record_fileId, js_write. simpl.
  destruct (String.eqb k "__proto__"); [by left|].
  destruct (decide (k = k')) as [->|Hne].
  - right. exists id. by rewrite lookup_insert_eq.
  - left. by rewrite lookup_insert_ne.
Qed.

Lemma only_grows_saveSettings : stable only_grows (saveSettings (E:=E)).
Proof.
  intros st. apply only_grows_same_files.
  unfold saveSettings, bind, call, gets, write_disk.
  by destruct (store_write E (world st)) as [w [e|[]]].
Qed.

Lemma only_grows_saveFileIds : stable only_grows (saveFileIds (E:=E)).
Proof.
  intros st. apply only_grows_same_files. rewrite saveFileIds_run.
  by destruct (store_write E (world st)) as [w [e|[]]].
Qed.

Lemma only_grows_sync root : stable only_grows (syncWithGoogleDrive (E:=E) root).
Proof.
  apply stable_syncWithGoogleDrive; try apply _.
  - intros. by apply only_grows_same_files.
  - intros. by apply only_grows_same_files.
  - intros. by apply only_grows_same_files.
  - intros st k id Hid. by apply only_grows_record.
  - intros. by apply only_grows_same_files.
  - apply only_grows_saveSettings.
  - apply only_grows_saveFileIds.
Qed.

Lemma only_grows_ops ops : forall st : State E, only_grows st (run_ops ops st).
Proof.
  induction ops as [|op ops IH]; intros st; [reflexivity|].
  simpl. etrans; [|apply IH].
  destruct op as [root|]; simpl; [apply only_grows_sync|apply only_grows_saveFileIds].
Qed.

(** X25. Until the plugin is loaded again, through any sequence of sync
    passes and unloads and whatever fails on the way, a key of
    [fileIds] stays a key, and an entry only changes by being written
    with a non-empty id. *)
Theorem recorded_paths_stay_until_reload (ops : list Op) (st : State E) (k : string) :
  let later := run_ops ops st in
  (k ∈ dom (fileIds (plugin st)) -> k ∈ dom (fileIds (plugin later))) /\
  (forall v, fileIds (plugin later) !! k = Some v ->
             fileIds (plugin st) !! k = Some v \/
             exists id, v = Js.Str id /\ id <> "").
Proof.
  intros later. pose proof (only_grows_ops ops st k) as Hk. fold later in Hk.
  split.
  - rewrite !elem_of_dom. intros [v Hv].
    destruct Hk as [Hk|(id & Hk & _)]; rewrite Hk; eauto.
  - intros v Hv. destruct Hk as [Hk|(id & Hk & Hne)].
    + left. by rewrite <- Hk.
    + right. exists id. split; [congruence|done].
Qed.

End Monotone.
(** ** Path arithmetic *)

Section Splitting.

Lemma append_cons x (a b : string) : String x a +:+ b = String x (a +:+ b).
Proof. reflexivity. Qed.

Lemma append_nil_l (a : string) : "" +:+ a = a.
Proof. reflexivity. Qed.

Lemma append_assoc (a b c : string) : (a +:+ b) +:+ c = a +:+ (b +:+ c).
Proof.
  induction a as [|x a IH]; [done|]. rewrite !append_cons. by rewrite IH.
Qed.

Lemma split_slash_nonempty s : Js.split_slash s <> [].
Proof.
  induction s as [|c s IH]; simpl; [done|].
  destruct (Ascii.eqb c "/"); [done|]. by destruct (Js.split_slash s).
Qed.

Lemma split_slash_app a b :
  Js.split_slash (a +:+ String "/" b) = Js.split_slash a ++ Js.split_slash b.
Proof.
  induction a as [|c a IH]; [done|]. rewrite append_cons. simpl.
  destruct (Ascii.eqb c "/"); [by rewrite IH|].
  rewrite IH. pose proof (split_slash_nonempty a).
  by destruct (Js.split_slash a).
Qed.

Lemma split_slash_single s : has_slash s = false -> Js.split_slash s = [s].
Proof.
  induction s as [|c s IH]; simpl; [done|].
  unfold Path.is_slash. destruct (Ascii.eqb c "/"); [done|].
  simpl. intros H. by rewrite (IH H).
Qed.

Lemma split_slash_no_slash s : Forall (fun seg => has_slash seg = false) (Js.split_slash s).
Proof.
  induction s as [|c s IH]; simpl; [by repeat constructor|].
  destruct (Ascii.eqb c "/") eqn:Hc; [by constructor|].
  pose proof (split_slash_nonempty s).
  destruct (Js.split_slash s) as [|seg segs]; [done|].
  inversion IH; subst. constructor; [|done].
  simpl. unfold Path.is_slash. by rewrite Hc.
Qed.

Lemma concat_cons_cons sep (x y : string) l :
  String.concat sep (x :: y :: l) = x +:+ sep +:+ String.concat sep (y :: l).
Proof. reflexivity. Qed.

Lemma key_of_snoc parts part :
  parts <> [] -> key_of (parts ++ [part]) = key_of parts +:+ "/" +:+ part.
Proof.
  unfold key_of. induction parts as [|x parts IH]; [done|]. intros _.
  destruct parts as [|y parts]; [reflexivity|].
  change ((x :: y :: parts) ++ [part]) with (x :: y :: (parts ++ [part])).
  rewrite !concat_cons_cons.
  change (y :: parts ++ [part]) with ((y :: parts) ++ [part]).
  rewrite IH by done. by rewrite !append_assoc.
Qed.

Lemma split_key_of parts :
  parts <> [] -> Forall (fun seg => has_slash seg = false) parts ->
  Js.split_slash (key_of parts) = parts.
Proof.
  unfold key_of. induction parts as [|x parts IH]; [done|]. intros _ Hall.
  inversion Hall as [|? ? Hx Hrest]; subst.
  destruct parts as [|y parts]; [by apply split_slash_single|].
  rewrite concat_cons_cons. change ("/" +:+ ?s) with (String "/" s).
  rewrite split_slash_app, (split_slash_single _ Hx), IH; done.
Qed.

Lemma plain_no_slash parts :
  Forall plain parts -> Forall (fun seg => has_slash seg = false) parts.
Proof. intros H. eapply Forall_impl; [exact H|]. by intros s (_ & Hs & _). Qed.

Lemma key_of_inj ps qs :
  Forall plain ps -> Forall plain qs -> key_of ps = key_of qs -> ps = qs.
Proof.
  intros Hp Hq Heq.
  assert (Hnil : forall l, Forall plain l -> key_of l = "" -> l = []).
  { intros [|x l] Hl; [done|]. inversion Hl as [|? ? (Hx & _) _]; subst.
    unfold key_of. destruct l; simpl; [done|]. by destruct x. }
  destruct ps as [|p ps].
  { symmetry. apply Hnil; [done|]. by rewrite <- Heq. }
  destruct qs as [|q qs].
  { apply Hnil; [done|]. by rewrite Heq. }
  rewrite <- (split_key_of (p :: ps)), <- (split_key_of (q :: qs));
    try done; try by apply plain_no_slash.
  by rewrite Heq.
Qed.

End Splitting.

Section Joining.

Lemma plain_push allow kept seg :
  plain seg -> Path.push_segment allow kept seg = seg :: kept.
Proof.
  intros (Hne & _ & Hdot & Hdotdot). unfold Path.push_segment, Path.is_dot, Path.is_dotdot.
  destruct (String.eqb_spec seg ""); [done|].
  destruct (String.eqb_spec seg "."); [done|].
  by destruct (String.eqb_spec seg "..").
Qed.

Lemma fold_push_plain allow segs : forall kept,
  Forall plain segs ->
  fold_left (Path.push_segment allow) segs kept = rev segs ++ kept.
Proof.
  induction segs as [|seg segs IH]; intros kept Hall; [done|].
  inversion Hall as [|? ? Hseg Hrest]; subst. simpl.
  rewrite (plain_push _ _ _ Hseg), IH by done.
  by rewrite <- app_assoc.
Qed.

Lemma isAbsolute_append a b : a <> "" -> Path.isAbsolute (a +:+ b) = Path.isAbsolute a.
Proof. by destruct a. Qed.

Lemma plain_not_absolute s : plain s -> Path.isAbsolute s = false.
Proof.
  intros (Hne & Hslash & _). destruct s as [|c s]; [done|].
  simpl in *. unfold Path.is_slash in Hslash. by destruct (Ascii.eqb c "/").
Qed.

Lemma key_of_nonempty parts : parts <> [] -> Forall plain parts -> key_of parts <> "".
Proof.
  intros Hne Hall. destruct parts as [|x parts]; [done|].
  inversion Hall as [|? ? (Hx & _) _]; subst.
  unfold key_of. destruct parts; simpl; [done|]. by destruct x.
Qed.

Lemma key_of_not_absolute parts : Forall plain parts -> Path.isAbsolute (key_of parts) = false.
Proof.
  intros Hall. destruct parts as [|x parts]; [done|].
  inversion Hall as [|? ? Hx _]; subst.
  pose proof (plain_not_absolute _ Hx) as Habs.
  unfold key_of. destruct parts; [done|].
  rewrite concat_cons_cons, isAbsolute_append; [done|]. by destruct Hx.
Qed.

Lemma ends_with_slash_append a b :
  b <> "" -> Path.ends_with_slash (a +:+ b) = Path.ends_with_slash b.
Proof.
  intros Hb. induction a as [|c a IH]; [done|].
  rewrite append_cons. simpl. rewrite IH.
  destruct (a +:+ b) eqn:Hab; [|done].
  destruct a; [by destruct b|done].
Qed.

Lemma no_slash_no_trailing s : has_slash s = false -> Path.ends_with_slash s = false.
Proof.
  induction s as [|c s IH]; [done|]. simpl. unfold Path.is_slash.
  destruct (Ascii.eqb c "/") eqn:Hc; [done|]. simpl. intros Hs.
  destruct s; [done|]. by apply IH.
Qed.

Lemma key_of_no_trailing parts :
  Forall plain parts -> Path.ends_with_slash (key_of parts) = false.
Proof.
  induction parts as [|x parts IH] using rev_ind; intros Hall; [done|].
  apply Forall_app in Hall as [Hparts Hx]. inversion Hx as [|? ? (Hne & Hs & _) _]; subst.
  destruct parts as [|y parts]; [by apply no_slash_no_trailing|].
  rewrite key_of_snoc by done.
  rewrite ends_with_slash_append by done.
  rewrite append_cons, append_nil_l. simpl. destruct x; [done|].
  by apply (no_slash_no_trailing (String a x)).
Qed.

Lemma normalize_key_of parts :
  parts <> [] -> Forall plain parts -> Path.normalize (key_of parts) = key_of parts.
Proof.
  intros Hne Hall. unfold Path.normalize.
  pose proof (key_of_nonempty _ Hne Hall) as Hkey.
  destruct (String.eqb_spec (key_of parts) ""); [done|].
  rewrite (key_of_not_absolute _ Hall), (key_of_no_trailing _ Hall).
  cbv zeta. unfold Path.normalizeString.
  rewrite split_key_of by (done || by apply plain_no_slash).
  rewrite fold_push_plain, app_nil_r, rev_involutive by done.
  fold (key_of parts). simpl negb. cbv iota.
  by destruct (String.eqb_spec (key_of parts) "").
Qed.

(** The cache key the resolver builds for a segment is the
    slash-joined list of the segments so far. *)
Lemma join_key_of parts part :
  Forall plain (parts ++ [part]) ->
  Path.join (key_of parts) part = key_of (parts ++ [part]).
Proof.
  intros Hall. pose proof Hall as Hall'.
  apply Forall_app in Hall' as [Hparts Hpart].
  inversion Hpart as [|? ? (Hne & _) _]; subst.
  unfold Path.join. destruct (String.eqb_spec part ""); [done|].
  destruct parts as [|x parts].
  - simpl. by apply (normalize_key_of [part]).
  - pose proof (key_of_nonempty (x :: parts) ltac:(done) Hparts).
    destruct (String.eqb_spec (key_of (x :: parts)) ""); [done|].
    rewrite <- key_of_snoc by done. apply normalize_key_of; [|done].
    by destruct parts.
Qed.

End Joining.

Section Normalising.

Lemma filter_plain parts :
  Forall plain parts -> List.filter nonempty_part parts = parts.
Proof.
  induction 1 as [|x parts (Hx & _) _ IH]; [done|].
  simpl. rewrite IH. by destruct x.
Qed.

Lemma push_keeps_plain seg kept :
  has_slash seg = false -> Forall plain kept ->
  Forall plain (Path.push_segment false kept seg).
Proof.
  intros Hseg Hkept. unfold Path.push_segment, Path.is_dot, Path.is_dotdot.
  destruct (String.eqb_spec seg ""); [done|].
  destruct (String.eqb_spec seg "."); [done|].
  destruct (String.eqb_spec seg "..").
  - destruct kept as [|top below]; [done|].
    inversion Hkept; subst. by destruct (String.eqb top "..").
  - simpl. by constructor.
Qed.

Lemma fold_push_keeps_plain segs : forall kept,
  Forall (fun seg => has_slash seg = false) segs -> Forall plain kept ->
  Forall plain (fold_left (Path.push_segment false) segs kept).
Proof.
  induction segs as [|seg segs IH]; intros kept Hsegs Hkept; [done|].
  inversion Hsegs; subst. simpl. apply IH; [done|]. by apply push_keeps_plain.
Qed.

Lemma pathParts_of_rooted parts :
  Forall plain parts -> pathParts_of ("/" +:+ key_of parts) = parts.
Proof.
  intros Hall. unfold pathParts_of. fold nonempty_part.
  change ("/" +:+ key_of parts) with ("" +:+ String "/" (key_of parts)).
  rewrite split_slash_app. simpl.
  destruct parts as [|x parts]; [done|].
  rewrite split_key_of by (done || by apply plain_no_slash).
  by apply filter_plain.
Qed.

Lemma pathParts_of_rooted_trailing parts :
  parts <> [] -> Forall plain parts ->
  pathParts_of ("/" +:+ key_of parts +:+ "/") = parts.
Proof.
  intros Hne Hall. unfold pathParts_of. fold nonempty_part.
  change ("/" +:+ key_of parts +:+ "/")
    with ("" +:+ String "/" (key_of parts +:+ String "/" "")).
  rewrite !split_slash_app. simpl.
  rewrite split_key_of by (done || by apply plain_no_slash).
  rewrite List.filter_app, filter_plain by done. simpl. by rewrite app_nil_r.
Qed.

(** Normalising an absolute path leaves an absolute path whose parts
    are plain. *)
Lemma normalize_absolute s :
  Path.isAbsolute s = true ->
  Path.isAbsolute (Path.normalize s) = true /\
  Forall plain (pathParts_of (Path.normalize s)).
Proof.
  intros Habs. unfold Path.normalize.
  destruct (String.eqb_spec s ""); [by subst|].
  rewrite Habs. cbv zeta. simpl negb. unfold Path.normalizeString.
  set (kept := fold_left (Path.push_segment false) (Js.split_slash s) []).
  assert (Hkept : Forall plain (rev kept)).
  { apply Forall_rev. apply fold_push_keeps_plain; [apply split_slash_no_slash|done]. }
  fold (key_of (rev kept)).
  destruct (String.eqb_spec (key_of (rev kept)) "") as [Hnil|Hne].
  { split; [done|]. by vm_compute. }
  assert (rev kept <> []) by (by intros Heq; rewrite Heq in Hne).
  destruct (Path.ends_with_slash s).
  - split; [done|]. by rewrite pathParts_of_rooted_trailing.
  - split; [done|]. by rewrite pathParts_of_rooted.
Qed.

Lemma join_absolute cur n :
  Path.isAbsolute cur = true ->
  Path.isAbsolute (Path.join cur n) = true /\
  Forall plain (pathParts_of (Path.join cur n)).
Proof.
  intros Habs. unfold Path.join.
  destruct (String.eqb_spec cur ""); [by subst|].
  destruct (String.eqb n ""); apply normalize_absolute; [done|].
  by rewrite isAbsolute_append.
Qed.

End Normalising.

Section Dirname.

Lemma drop_while_suffix p l : exists pre, l = pre ++ Path.drop_while p l.
Proof.
  induction l as [|c l [pre IH]]; [by exists []|]. simpl.
  destruct (p c); [|by exists []].
  exists (c :: pre). simpl. by rewrite <- IH.
Qed.

Lemma drop_while_head p l x rest :
  Path.drop_while p l = x :: rest -> p x = false.
Proof.
  induction l as [|c l IH]; [done|]. simpl.
  destruct (p c) eqn:Hc; [done|]. by intros [= <- _].
Qed.

Lemma string_of_list_ascii_app a b :
  string_of_list_ascii (a ++ b) = string_of_list_ascii a +:+ string_of_list_ascii b.
Proof.
  induction a as [|c a IH]; [done|]. simpl. rewrite append_cons. by rewrite IH.
Qed.

(** [dirname] of an absolute path is the root, or what stands before
    one of its separators. *)
Lemma dirname_absolute p :
  Path.isAbsolute p = true ->
  Path.dirname p = "/" \/ Path.dirname p = "//" \/
  exists b, p = Path.dirname p +:+ String "/" b.
Proof.
  intros Habs. unfold Path.dirname.
  remember (list_ascii_of_string p) as l eqn:Hl.
  assert (Hp : p = string_of_list_ascii l).
  { subst l. symmetry. apply string_of_list_ascii_of_string. }
  destruct l as [|c0 rest].
  { destruct p; [done|discriminate Hl]. }
  assert (Path.is_slash c0 = true) as ->.
  { destruct p as [|c p]; [done|]. simpl in Hl. by injection Hl as -> _. }
  rewrite Hp. clear Hp Hl Habs p.
  destruct (drop_while_suffix Path.is_slash (rev rest)) as [s1 H1].
  destruct (drop_while_suffix (fun c => negb (Path.is_slash c))
              (Path.drop_while Path.is_slash (rev rest))) as [s2 H2].
  destruct (Path.drop_while _ (Path.drop_while _ (rev rest))) as [|x before] eqn:Hscan;
    [by left|].
  destruct (length before =? 0)%nat; [by right; left|].
  right; right. simpl andb. cbv iota.
  apply drop_while_head in Hscan as Hx. apply negb_false_iff in Hx.
  unfold Path.is_slash in Hx. apply Ascii.eqb_eq in Hx. subst x.
  assert (Hrest : rest = rev before ++ "/"%char :: rev s2 ++ rev s1).
  { rewrite <- (rev_involutive rest), H1, H2. rewrite !rev_app_distr. simpl.
    by rewrite <- !app_assoc. }
  exists (string_of_list_ascii (rev s2 ++ rev s1)).
  rewrite Hrest.
  change (c0 :: rev before ++ "/"%char :: rev s2 ++ rev s1)
    with ((c0 :: rev before) ++ "/"%char :: rev s2 ++ rev s1).
  by rewrite string_of_list_ascii_app.
Qed.

Lemma dirname_parts p :
  Path.isAbsolute p = true ->
  Forall plain (pathParts_of p) ->
  Forall plain (pathParts_of (Path.dirname p)).
Proof.
  intros Habs Hall.
  destruct (dirname_absolute p Habs) as [->|[->|[b Hb]]]; [by vm_compute..|].
  rewrite Hb in Hall. unfold pathParts_of in *.
  rewrite split_slash_app, List.filter_app in Hall.
  by apply Forall_app in Hall as [? _].
Qed.

End Dirname.

(** ** The engine against the in-memory store *)

Section StoreFacts.

Lemma first_match_app d more parent part id :
  first_match d parent part = Some id -> first_match (d ++ more) parent part = Some id.
Proof.
  unfold first_match. rewrite List.filter_app, map_app.
  by destruct (map Drive.e_id (List.filter _ d)).
Qed.

Lemma first_root_app d more id :
  first_root d = Some id -> first_root (d ++ more) = Some id.
Proof.
  unfold first_root. rewrite List.filter_app, map_app.
  by destruct (map Drive.e_id (List.filter _ d)).
Qed.

Lemma first_match_created d parent part id :
  first_match d parent part = None ->
  first_match (d ++ [Drive.entry_of id (CreateFolder part [parent])]) parent part = Some id.
Proof.
  unfold first_match. rewrite List.filter_app, map_app.
  destruct (map Drive.e_id (List.filter _ d)); [|done]. intros _.
  simpl. unfold Drive.matches. simpl. rewrite String.eqb_refl.
  rewrite bool_decide_eq_true_2; [done|]. by apply list_elem_of_singleton.
Qed.

Lemma first_root_created d id :
  first_root d = None ->
  first_root (d ++ [Drive.entry_of id (CreateFolder "Obsidian Vault" [])]) = Some id.
Proof.
  unfold first_root. rewrite List.filter_app, map_app.
  by destruct (map Drive.e_id (List.filter _ d)).
Qed.

Lemma chain_entries_app d more rest : forall above parent v,
  chain d above parent rest = Some v -> chain (d ++ more) above parent rest = Some v.
Proof.
  induction rest as [|part rest IH]; intros above parent v; [done|]. simpl.
  destruct (bool_decide _); [apply IH|].
  destruct (first_match d parent part) as [id|] eqn:Hm; [|done].
  rewrite (first_match_app _ more _ _ _ Hm). apply IH.
Qed.

Lemma chain_app d a : forall above parent b,
  chain d above parent (a ++ b) =
  match chain d above parent a with
  | Some p => chain d (above ++ a) p b
  | None => None
  end.
Proof.
  induction a as [|part a IH]; intros above parent b; simpl.
  { by rewrite app_nil_r. }
  destruct (bool_decide _).
  - rewrite IH. by rewrite <- app_assoc.
  - destruct (first_match d parent part); [|done].
    rewrite IH. by rewrite <- app_assoc.
Qed.

(** What the store answers. *)
Lemma list_answer q (w : Drive.W) :
  exists w', Drive.entries w' = Drive.entries w /\
    (drive_files_list Drive.env q w = (w', inl "list failed") \/
     drive_files_list Drive.env q w =
       (w', inr (map Drive.e_id (List.filter (Drive.matches q) (Drive.entries w))))).
Proof.
  simpl. unfold Drive.failing, Drive.next_fault, Drive.list_files.
  destruct (Drive.faults w) as [|[] rest]; simpl.
  - exists w. split; [done|by right].
  - eexists. split; [|left; reflexivity]. done.
  - eexists. split; [|right; reflexivity]. done.
Qed.

Lemma create_answer r (w : Drive.W) :
  exists w',
    (Drive.entries w' = Drive.entries w /\
     drive_files_create Drive.env r w = (w', inl "create failed")) \/
    (exists id, Drive.entries w' = Drive.entries w ++ [Drive.entry_of id r] /\
                drive_files_create Drive.env r w = (w', inr id)).
Proof.
  simpl. unfold Drive.failing, Drive.next_fault, Drive.create.
  destruct (Drive.faults w) as [|[] rest]; simpl.
  - eexists. right. eexists. split; [|reflexivity]. done.
  - eexists. left. split; [|reflexivity]. done.
  - eexists. right. eexists. split; [|reflexivity]. done.
Qed.

Lemma update_answer r (w : Drive.W) :
  Drive.entries (fst (drive_files_update Drive.env r w)) = Drive.entries w.
Proof.
  simpl. unfold Drive.update, Drive.next_fault.
  destruct (Drive.faults w) as [|[] rest]; simpl; try done;
    destruct (u_fileId r); try done; by destruct (existsb _ _).
Qed.

Lemma failing_keeps_entries {A} what (a : A) (w : Drive.W) :
  Drive.entries (fst (Drive.failing what (fun w => (w, a)) w)) = Drive.entries w.
Proof.
  unfold Drive.failing, Drive.next_fault.
  by destruct (Drive.faults w) as [|[] rest].
Qed.

End StoreFacts.

Section ResolverOnStore.

#[global] Instance grows_preorder : PreOrder grows.
Proof.
  split.
  - intros st. split; [exists []; by rewrite app_nil_r|done].
  - intros a b c ([m1 H1] & Hr1) ([m2 H2] & Hr2). split; [|congruence].
    exists (m1 ++ m2). by rewrite H2, H1, app_assoc.
Qed.

#[global] Instance quiet_step_preorder : PreOrder quiet_step.
Proof.
  split.
  - intros st. repeat (split; [done|]). exists []. by rewrite app_nil_r.
  - intros a b c (He1 & Hs1 & Hr1 & i1 & Hi1 & Hq1) (He2 & Hs2 & Hr2 & i2 & Hi2 & Hq2).
    repeat (split; [congruence|]).
    exists (i1 ++ i2). split; [by rewrite Hi2, Hi1, app_assoc|]. by apply Forall_app.
Qed.

#[global] Instance growing_step_preorder : PreOrder growing_step.
Proof.
  split.
  - intros st Ha. by split.
  - intros a b c Hab Hbc Ha. destruct (Hab Ha) as [H1 Hb].
    destruct (Hbc Hb) as [H2 Hc]. split; [by etrans|done].
Qed.

#[global] Instance found_step_preorder : PreOrder found_step.
Proof.
  split.
  - intros st Ha. by split.
  - intros a b c Hab Hbc Ha. destruct (Hab Ha) as [H1 Hb].
    destruct (Hbc Hb) as [H2 Hc]. split; [by etrans|done].
Qed.


Lemma chain_cons d above parent part rest :
  chain d above parent (part :: rest) =
  match chain d above parent [part] with
  | Some p => chain d (above ++ [part]) p rest
  | None => None
  end.
Proof. apply (chain_app d [part]). Qed.

Lemma chain_single d above parent part :
  key_of (above ++ [part]) ∉ Js.prototype_members ->
  chain d above parent [part] = Js.Str <$> first_match d parent part.
Proof.
  intros Hkey. simpl. rewrite bool_decide_eq_false_2 by done.
  by destruct (first_match d parent part).
Qed.

Lemma proto_key_not_set key : key ∉ Js.prototype_members -> String.eqb key "__proto__" = false.
Proof.
  intros Hkey. destruct (String.eqb_spec key "__proto__") as [->|]; [|done].
  exfalso. apply Hkey. unfold Js.prototype_members. set_solver.
Qed.

(** A segment the cache does not answer is not an inherited name. *)
Lemma uncached_not_inherited st key :
  cache_agrees st -> cached (drivefolderIds (plugin st)) key = false ->
  key ∉ Js.prototype_members.
Proof.
  intros [Hproto _] Hc Hin. unfold cached, Js.get in Hc.
  rewrite (Hproto _ Hin), bool_decide_eq_true_2 in Hc; done.
Qed.

(** A segment the cache answers: the answer is the one of the store. *)
Lemma cached_is_chain st above parent part :
  Forall plain (above ++ [part]) ->
  cache_agrees st ->
  chain (entries_of st) [] (root_of st) above = Some parent ->
  cached (drivefolderIds (plugin st)) (key_of (above ++ [part])) = true ->
  chain (entries_of st) above parent [part]
    = Some (Js.get (drivefolderIds (plugin st)) (key_of (above ++ [part]))).
Proof.
  intros Hplain [Hproto Hcache] Habove Hc. unfold cached, Js.get in *.
  destruct (drivefolderIds (plugin st) !! key_of (above ++ [part])) as [id|] eqn:Hk.
  - assert (id <> "") as Hid by (by intros ->).
    pose proof (Hcache (above ++ [part]) id ltac:(by destruct above) Hplain Hk Hid) as Hch.
    rewrite chain_app, Habove in Hch. exact Hch.
  - destruct (bool_decide (key_of (above ++ [part]) ∈ Js.prototype_members)) eqn:Hin;
      [|done].
    simpl. by rewrite Hin.
Qed.

(** Caching the id of a segment just resolved keeps the cache in
    agreement with the store. *)
Lemma agrees_after_cache (st st' : State Drive.env) above part id :
  Forall plain (above ++ [part]) ->
  cache_agrees st ->
  (exists more, entries_of st' = entries_of st ++ more) ->
  obsidianFolderId (plugin st') = obsidianFolderId (plugin st) ->
  drivefolderIds (plugin st')
    = js_set (drivefolderIds (plugin st)) (key_of (above ++ [part])) id ->
  key_of (above ++ [part]) ∉ Js.prototype_members ->
  chain (entries_of st') [] (root_of st') (above ++ [part]) = Some (Js.Str id) ->
  cache_agrees st'.
Proof.
  intros Hplain [Hproto Hcache] [more Hmore] Hroot Hset Hkey Hnew.
  unfold js_set in Hset. rewrite (proto_key_not_set _ Hkey) in Hset.
  split.
  - intros key Hin. rewrite Hset, lookup_insert_ne; [by apply Hproto|].
    by intros <-.
  - intros parts id' Hne Hparts Hlook Hid'.
    rewrite Hset in Hlook.
    destruct (decide (key_of (above ++ [part]) = key_of parts)) as [Heq|Hneq].
    + apply key_of_inj in Heq; [|done..]. subst parts.
      rewrite lookup_insert_eq in Hlook. by injection Hlook as <-.
    + rewrite lookup_insert_ne in Hlook by done.
      unfold root_of. rewrite Hroot, Hmore. apply chain_entries_app.
      by apply Hcache.
Qed.

Lemma agrees_after_call (st : State Drive.env) w evs more :
  Drive.entries w = entries_of st ++ more ->
  cache_agrees st -> cache_agrees (after_call st w evs).
Proof.
  intros Hmore [Hproto Hcache]. split; [exact Hproto|].
  intros parts id Hne Hparts Hlook Hid.
  unfold entries_of, root_of. simpl. rewrite Hmore. apply chain_entries_app.
  by apply Hcache.
Qed.

End ResolverOnStore.

Section ResolverLoop.

Lemma grows_after_call (st : State Drive.env) w evs more :
  Drive.entries w = entries_of st ++ more ->
  grows st (after_call st w evs).
Proof. intros Hmore. split; [by exists more|done]. Qed.

Lemma quiet_after_call (st : State Drive.env) w evs :
  Drive.entries w = entries_of st ->
  Forall (fun ev => quiet ev = true) evs ->
  quiet_step st (after_call st w evs).
Proof. intros Hsame Hquiet. repeat (split; [done|]). by exists evs. Qed.

(** The loop of the resolver against the store: objects are only
    added, the cache stays in agreement, the value returned is the one
    the chain of first matches leads to; and when that chain exists
    before the call nothing is created. *)
Lemma loop_resolves rest : forall above parent (st : State Drive.env),
  Forall plain (above ++ rest) ->
  cache_agrees st ->
  chain (entries_of st) [] (root_of st) above = Some parent ->
  forall res, res = ensureDriveFolder_loop rest (key_of above) parent st ->
  grows st (fst res) /\
  cache_agrees (fst res) /\
  (forall v, snd res = inr v ->
             chain (entries_of (fst res)) above parent rest = Some v) /\
  (is_Some (chain (entries_of st) above parent rest) -> quiet_step st (fst res)).
Proof.
  induction rest as [|part rest IH]; intros above parent st Hplain Hagree Habove res ->.
  { simpl. split; [reflexivity|]. split; [done|]. split.
    - by intros v [= <-].
    - intros _. reflexivity. }
  assert (Hplain1 : Forall plain (above ++ [part])).
  { apply Forall_app in Hplain as [Ha Hr]. inversion Hr; subst.
    apply Forall_app. split; [done|]. by constructor. }
  assert (Hplain2 : Forall plain ((above ++ [part]) ++ rest)) by (by rewrite <- app_assoc).
  rewrite loop_step. cbv zeta. rewrite (join_key_of _ _ Hplain1).
  destruct (cached (drivefolderIds (plugin st)) (key_of (above ++ [part]))) eqn:Hc.
  - pose proof (cached_is_chain st above parent part Hplain1 Hagree Habove Hc) as Hstep.
    set (p := Js.get _ (key_of (above ++ [part]))) in *.
    assert (Habove' : chain (entries_of st) [] (root_of st) (above ++ [part]) = Some p).
    { by rewrite chain_app, Habove. }
    destruct (IH (above ++ [part]) p st Hplain2 Hagree Habove' _ eq_refl)
      as (Hg & Ha & Hv & Hf).
    split; [done|]. split; [done|]. split.
    + intros v Hres. rewrite chain_cons.
      destruct Hg as ([more Hmore] & _). rewrite Hmore.
      rewrite (chain_entries_app _ more _ _ _ _ Hstep). rewrite <- Hmore. by apply Hv.
    + intros Hsome. apply Hf. by rewrite chain_cons, Hstep in Hsome.
  - pose proof (uncached_not_inherited _ _ Hagree Hc) as Hkey.
    pose proof (chain_single (entries_of st) above parent part Hkey) as Hstep.
    assert (Hdescend : forall (s1 : State Drive.env) more id,
      entries_of s1 = entries_of st ++ more ->
      obsidianFolderId (plugin s1) = obsidianFolderId (plugin st) ->
      drivefolderIds (plugin s1)
        = js_set (drivefolderIds (plugin st)) (key_of (above ++ [part])) id ->
      first_match (entries_of s1) parent part = Some id ->
      (is_Some (first_match (entries_of st) parent part) -> quiet_step st s1) ->
      grows st
        (fst (ensureDriveFolder_loop rest (key_of (above ++ [part])) (Js.Str id) s1)) /\
      cache_agrees
        (fst (ensureDriveFolder_loop rest (key_of (above ++ [part])) (Js.Str id) s1)) /\
      (forall v,
          snd (ensureDriveFolder_loop rest (key_of (above ++ [part])) (Js.Str id) s1)
            = inr v ->
          chain (entries_of
                   (fst (ensureDriveFolder_loop rest (key_of (above ++ [part]))
                           (Js.Str id) s1)))
                above parent (part :: rest) = Some v) /\
      (is_Some (chain (entries_of st) above parent (part :: rest)) ->
       quiet_step st
         (fst (ensureDriveFolder_loop rest (key_of (above ++ [part])) (Js.Str id) s1)))).
    { intros s1 more id Hmore Hroot Hcache Hfirst Hquiet.
      assert (Hstep1 : chain (entries_of s1) above parent [part] = Some (Js.Str id)).
      { by rewrite (chain_single _ _ _ _ Hkey), Hfirst. }
      assert (Habove1 : chain (entries_of s1) [] (root_of s1) (above ++ [part])
                        = Some (Js.Str id)).
      { assert (root_of s1 = root_of st) as Hr by (unfold root_of; by rewrite Hroot).
        rewrite chain_app, Hr, Hmore.
        rewrite (chain_entries_app _ more _ _ _ _ Habove).
        rewrite <- Hmore. exact Hstep1. }
      assert (Hagree1 : cache_agrees s1).
      { apply (agrees_after_cache st s1 above part id); try done. by exists more. }
      destruct (IH (above ++ [part]) (Js.Str id) s1 Hplain2 Hagree1 Habove1 _ eq_refl)
        as (Hg & Ha & Hv & Hf).
      assert (Hgrow : grows st s1).
      { split; [by exists more|done]. }
      split; [by etrans|]. split; [done|]. split.
      - intros v Hres. rewrite chain_cons.
        destruct Hg as ([more' Hmore'] & _). rewrite Hmore'.
        rewrite (chain_entries_app _ more' _ _ _ _ Hstep1). rewrite <- Hmore'.
        by apply Hv.
      - intros Hsome. rewrite chain_cons, Hstep in Hsome.
        destruct (first_match (entries_of st) parent part) as [id'|] eqn:Hm;
          [|by destruct Hsome].
        assert (id' = id) as ->.
        { apply (first_match_app _ more) in Hm. rewrite <- Hmore, Hfirst in Hm.
          by injection Hm. }
        etrans; [by apply Hquiet|]. apply Hf.
        destruct Hsome as [v Hv']. exists v.
        rewrite Hmore. by apply chain_entries_app. }
    destruct (list_answer (mkQuery part (Some parent)) (world st))
      as (w & Hw & [Hl|Hl]); rewrite Hl.
    { split; [apply (grows_after_call st w _ []); by rewrite app_nil_r|].
      split; [apply (agrees_after_call st w _ []); [by rewrite app_nil_r|done]|].
      split; [done|]. intros _. apply quiet_after_call; [done|by repeat constructor]. }
    destruct (map Drive.e_id
                (List.filter (Drive.matches (mkQuery part (Some parent)))
                             (Drive.entries (world st)))) as [|first others] eqn:Hfiles.
    + assert (Hnone : first_match (entries_of st) parent part = None).
      { unfold first_match, entries_of. by rewrite Hfiles. }
      destruct (create_answer (CreateFolder part [parent]) w)
        as (w' & [[Hw' Hcr]|(id & Hw' & Hcr)]); rewrite Hcr.
      * split; [apply (grows_after_call st w' _ []); by rewrite app_nil_r, Hw', Hw|].
        split; [apply (agrees_after_call st w' _ []); [by rewrite app_nil_r, Hw', Hw|done]|].
        split; [done|]. intros Hsome. exfalso.
        rewrite chain_cons, Hstep, Hnone in Hsome. by destruct Hsome.
      * apply (Hdescend _ [Drive.entry_of id (CreateFolder part [parent])]);
          try done.
        -- unfold entries_of. simpl. by rewrite Hw', Hw.
        -- unfold entries_of. simpl. rewrite Hw', Hw. by apply first_match_created.
        -- rewrite Hnone. by intros [? ?].
    + assert (Hsome : first_match (entries_of st) parent part = Some first).
      { unfold first_match, entries_of. by rewrite Hfiles. }
      apply (Hdescend _ []); try done.
      * unfold entries_of. simpl. by rewrite Hw, app_nil_r.
      * unfold entries_of. simpl. by rewrite Hw.
      * intros _. repeat (split; [done|]).
        eexists. split; [reflexivity|]. by repeat constructor.
Qed.

End ResolverLoop.
Section FirstPass.

Lemma covered_grows st st' path : grows st st' -> covered st path -> covered st' path.
Proof.
  intros ([more Hmore] & Hroot) [v Hv]. exists v.
  unfold covered, root_of. rewrite Hroot, Hmore. by apply chain_entries_app.
Qed.

(** The resolver against the store, for a path whose parts are plain. *)
Lemma resolver_on_store path (st : State Drive.env) :
  Forall plain (pathParts_of path) ->
  cache_agrees st ->
  grows st (fst (ensureDriveFolder path st)) /\
  cache_agrees (fst (ensureDriveFolder path st)) /\
  (forall v, snd (ensureDriveFolder path st) = inr v ->
             covered (fst (ensureDriveFolder path st)) path) /\
  (covered st path -> quiet_step st (fst (ensureDriveFolder path st))).
Proof.
  intros Hplain Hagree.
  destruct (loop_resolves (pathParts_of path) [] (root_of st) st Hplain Hagree eq_refl
              (ensureDriveFolder path st) eq_refl) as (Hg & Ha & Hv & Hf).
  split; [done|]. split; [done|]. split; [|done].
  intros v Hres. exists v. unfold root_of.
  destruct Hg as [_ ->]. by apply Hv.
Qed.

Lemma growing_same_store (st st' : State Drive.env) :
  entries_of st' = entries_of st ->
  obsidianFolderId (plugin st') = obsidianFolderId (plugin st) ->
  drivefolderIds (plugin st') = drivefolderIds (plugin st) ->
  growing_step st st'.
Proof.
  intros He Hr Hc [Hproto Hcache]. split.
  - split; [|done]. exists []. by rewrite app_nil_r.
  - unfold cache_agrees, root_of. rewrite He, Hr, Hc. by split.
Qed.

Lemma growing_call {A} ev (op : Drive.W -> Drive.W * (Exn + A)) :
  (forall w, exists more, Drive.entries (fst (op w)) = Drive.entries w ++ more) ->
  stable growing_step (call (E:=Drive.env) ev op).
Proof.
  intros Hop st Hagree. unfold call. destruct (Hop (world st)) as [more Hmore].
  destruct (op (world st)) as [w r]. simpl in *. split.
  - by apply (grows_after_call st w [ev] more).
  - by apply (agrees_after_call st w [ev] more).
Qed.

Lemma growing_emit ev : stable growing_step (emit (E:=Drive.env) ev).
Proof. intros st. by apply growing_same_store. Qed.

Lemma growing_resolver path :
  Forall plain (pathParts_of path) ->
  stable growing_step (ensureDriveFolder (E:=Drive.env) path).
Proof.
  intros Hplain st Hagree.
  destruct (resolver_on_store path st Hplain Hagree) as (Hg & Ha & _). by split.
Qed.

Lemma growing_read f mimeType : stable growing_step (read_content (E:=Drive.env) f mimeType).
Proof.
  unfold read_content.
  destruct (_ || _);
    (apply stable_bind; [apply _| |intros ?; apply stable_ret; apply _]);
    apply growing_call; intros w; exists []; rewrite app_nil_r;
    apply failing_keeps_entries.
Qed.

Lemma growing_uploadFile cur n content mimeType :
  Path.isAbsolute cur = true ->
  stable growing_step (uploadFile (E:=Drive.env) (Path.join cur n) content mimeType).
Proof.
  intros Habs. destruct (join_absolute cur n Habs) as [Habs' Hparts].
  unfold uploadFile. apply stable_bind; [apply _| |intros parentId].
  { apply growing_resolver. by apply dirname_parts. }
  apply stable_try_catch; [apply _| |].
  - apply stable_bind; [apply _|apply stable_gets; apply _|]. intros known.
    destruct (Js.truthy known).
    + apply stable_bind; [apply _| |intros id].
      { apply growing_call. intros w. exists []. rewrite app_nil_r. apply update_answer. }
      apply stable_bind; [apply _|apply growing_emit|intros _]. apply stable_ret; apply _.
    + apply stable_bind; [apply _| |intros id].
      { apply growing_call. intros w.
        destruct (create_answer (CreateFile (Path.basename (Path.join cur n)) [parentId]
                                   mimeType content) w)
          as (w' & [[Hw Hc]|(id & Hw & Hc)]); rewrite Hc; simpl.
        - exists []. by rewrite app_nil_r.
        - by eexists. }
      apply stable_bind; [apply _|apply growing_emit|intros _]. apply stable_ret; apply _.
  - intros e. apply stable_bind; [apply _|apply growing_emit|intros _]. apply stable_ret; apply _.
Qed.

Lemma growing_uploadObsidianFile f cur :
  Path.isAbsolute cur = true ->
  stable growing_step (uploadObsidianFile (E:=Drive.env) f cur).
Proof.
  intros Habs. unfold uploadObsidianFile.
  apply stable_bind; [apply _|apply stable_gets; apply _|]. intros last.
  destruct (not_modified f last); [apply growing_emit|].
  unfold upload_and_record.
  apply stable_bind; [apply _|apply growing_read|intros content].
  apply stable_bind; [apply _|by apply growing_uploadFile|intros fileId].
  destruct (Js.truthy _); [|apply stable_ret; apply _].
  apply stable_modify. intros st. by apply growing_same_store.
Qed.

Lemma growing_uploadItem item : forall cur,
  Path.isAbsolute cur = true ->
  stable growing_step (uploadItem (E:=Drive.env) item cur).
Proof.
  induction item as [f|n children IH] using TAbstractFile_ind'; intros cur Habs.
  - by apply growing_uploadObsidianFile.
  - destruct (join_absolute cur n Habs) as [Habs' Hparts].
    rewrite uploadItem_folder.
    apply stable_bind; [apply _|by apply growing_resolver|intros _].
    apply stable_for_of; [apply _|].
    eapply Forall_impl; [exact IH|]. intros item H. by apply H.
Qed.

(** A walk that returns has resolved every folder of the tree. *)
Lemma first_pass_covers_list items : forall cur (s : State Drive.env),
  Forall covers_item items ->
  Path.isAbsolute cur = true ->
  cache_agrees s ->
  snd (uploadFolderContents items cur s) = inr tt ->
  grows s (fst (uploadFolderContents items cur s)) /\
  cache_agrees (fst (uploadFolderContents items cur s)) /\
  Forall (covered (fst (uploadFolderContents items cur s))) (folder_paths items cur).
Proof.
  induction items as [|item items IHitems]; intros cur s Hall Habs Hs Hr.
  { split; [reflexivity|]. split; [done|constructor]. }
  inversion Hall as [|? ? Hitem Hrest]; subst.
  rewrite uploadFolderContents_cons in Hr |- *. unfold bind in Hr |- *.
  pose proof (growing_uploadItem item cur Habs s Hs) as [Hg1 Ha1].
  pose proof (Hitem cur s Habs Hs) as Hcov.
  destruct (uploadItem item cur s) as [s2 [e|[]]]; [done|].
  simpl in Hg1, Ha1, Hcov. specialize (Hcov eq_refl).
  destruct (IHitems cur s2 Hrest Habs Ha1 Hr) as (Hg2 & Ha2 & Hcov2).
  split; [by etrans|]. split; [done|].
  unfold folder_paths. cbn [flat_map]. apply Forall_app. split; [|done].
  eapply Forall_impl; [exact Hcov|]. intros path. by apply covered_grows.
Qed.

Lemma first_pass_covers item : covers_item item.
Proof.
  induction item as [f|n children IH] using TAbstractFile_ind'; intros cur st Habs Hagree Hret.
  { constructor. }
  destruct (join_absolute cur n Habs) as [Habs' Hparts].
  set (p := Path.join cur n) in *.
  rewrite uploadItem_folder in Hret |- *. fold p in Hret |- *.
  cbn [folder_paths_item]. fold p.
  destruct (resolver_on_store p st Hparts Hagree) as (Hg & Ha & Hv & _).
  unfold bind in Hret |- *.
  destruct (ensureDriveFolder p st) as [s1 [e|v]]; [done|].
  simpl in Hg, Ha, Hv. specialize (Hv v eq_refl).
  destruct (first_pass_covers_list children p s1 IH Habs' Ha Hret) as (Hg2 & _ & Hcov).
  constructor; [|done]. by apply (covered_grows s1).
Qed.

Lemma first_pass_walk root (s : State Drive.env) :
  cache_agrees s ->
  snd (uploadVaultContents root s) = inr tt ->
  grows s (fst (uploadVaultContents root s)) /\
  Forall (covered (fst (uploadVaultContents root s))) (folder_paths root "/").
Proof.
  intros Hs Hr.
  destruct (first_pass_covers_list root "/" s) as (Hg & _ & Hcov); try done.
  apply Forall_forall. intros item _. apply first_pass_covers.
Qed.

End FirstPass.
Section SecondPass.






End SecondPass.
Section Passes.

#[global] Instance quiet_pass_preorder : PreOrder quiet_pass.
Proof.
  split.
  - intros st. split; [done|]. exists []. by rewrite app_nil_r.
  - intros a b c (He1 & i1 & Hi1 & Hq1) (He2 & i2 & Hi2 & Hq2).
    split; [unfold entries_of in *; congruence|].
    exists (i1 ++ i2). split; [by rewrite Hi2, Hi1, app_assoc|]. by apply Forall_app.
Qed.


Lemma quiet_call {A} ev (op : Drive.W -> Drive.W * (Exn + A)) :
  quiet ev = true ->
  (forall w, Drive.entries (fst (op w)) = Drive.entries w) ->
  stable quiet_pass (call (E:=Drive.env) ev op).
Proof.
  intros Hev Hop st. unfold call. specialize (Hop (world st)).
  destruct (op (world st)) as [w r]. split; [done|].
  exists [ev]. split; [done|]. by constructor.
Qed.

Lemma quiet_emit ev : quiet ev = true -> stable quiet_pass (emit (E:=Drive.env) ev).
Proof. intros Hev st. split; [done|]. exists [ev]. split; [done|]. by constructor. Qed.

Lemma quiet_modify f : stable quiet_pass (modify (E:=Drive.env) f).
Proof. intros st. split; [done|]. exists []. split; [by rewrite app_nil_r|done]. Qed.

Lemma quiet_write_disk f : stable quiet_pass (write_disk (E:=Drive.env) f).
Proof. intros st. split; [done|]. exists []. split; [by rewrite app_nil_r|done]. Qed.

Lemma quiet_store_write ev :
  quiet ev = true -> stable quiet_pass (call (E:=Drive.env) ev (store_write Drive.env)).
Proof. intros Hev. apply quiet_call; [done|]. intros w. apply failing_keeps_entries. Qed.

Lemma quiet_finish : stable quiet_pass (finish_pass (E:=Drive.env)).
Proof.
  unfold finish_pass, saveSettings, saveFileIds, notice.
  apply stable_bind; [apply _| |intros now].
  { apply quiet_call; [done|]. intros w. by destruct w. }
  apply stable_bind; [apply _|apply quiet_modify|intros _].
  apply stable_bind; [apply _| |intros _].
  { apply stable_bind; [apply _|by apply quiet_store_write|intros _].
    apply stable_bind; [apply _|apply stable_gets; apply _|intros s].
    apply quiet_write_disk. }
  apply stable_bind; [apply _| |intros _].
  { apply stable_bind; [apply _|by apply quiet_store_write|intros _].
    apply quiet_write_disk. }
  by apply quiet_emit.
Qed.

Lemma quiet_report e : stable quiet_pass (report_failure (E:=Drive.env) e).
Proof.
  unfold report_failure, console_error, notice.
  apply stable_bind; [apply _|by apply quiet_emit|intros _]. by apply quiet_emit.
Qed.

Lemma key_of_not_root parts : Forall plain parts -> key_of parts <> "/".
Proof.
  intros Hall Heq. destruct parts as [|x parts]; [done|].
  pose proof (split_key_of (x :: parts) ltac:(done) (plain_no_slash _ Hall)) as Hs.
  rewrite Heq in Hs. simpl in Hs. injection Hs as <- _.
  inversion Hall as [|? ? (Hx & _) _]; subst. done.
Qed.

(** At the start of the walk the cache holds the root only, and agrees
    with any store. *)
Lemma agrees_initial (st : State Drive.env) r :
  drivefolderIds (plugin st) = js_set ∅ "/" r -> cache_agrees st.
Proof.
  intros Hc. unfold js_set in Hc. simpl in Hc. split.
  - intros key Hin. rewrite Hc. apply lookup_insert_None. split; [done|].
    intros <-. unfold Js.prototype_members in Hin.
    repeat (apply elem_of_cons in Hin as [Hin|Hin]; [discriminate Hin|]).
    by apply elem_of_nil in Hin.
  - intros parts id Hne Hplain Hlook. rewrite Hc in Hlook.
    rewrite lookup_insert_ne in Hlook; [done|].
    intros Heq. by apply (key_of_not_root parts).
Qed.

(** The root folder against the store. *)
Lemma root_on_store (st : State Drive.env) :
  forall res, res = ensureObsidianFolder st ->
  (exists more, entries_of (fst res) = entries_of st ++ more) /\
  settings (plugin (fst res)) = settings (plugin st) /\
  (snd res = inr tt ->
   exists r, obsidianFolderId (plugin (fst res)) = Some r /\
             first_root (entries_of (fst res)) = Some r /\
             drivefolderIds (plugin (fst res))
               = js_set (drivefolderIds (plugin st)) "/" r) /\
  (is_Some (first_root (entries_of st)) -> quiet_pass st (fst res)).
Proof.
  intros res Hres.
  unfold ensureObsidianFolder, bind at 1, files_list, call in Hres.
  destruct (list_answer (mkQuery "Obsidian Vault" None) (world st))
    as (w & Hw & [Hl|Hl]); rewrite Hl in Hres.
  { subst res. cbn [fst snd].
    split; [exists []; by rewrite app_nil_r|]. split; [done|].
    split; [done|]. intros _. split; [done|].
    eexists. split; [reflexivity|]. by repeat constructor. }
  fold (first_root (Drive.entries (world st))) in Hres.
  destruct (map Drive.e_id _) as [|first others] eqn:Hfiles.
  - assert (Hnone : first_root (entries_of st) = None).
    { unfold first_root, entries_of. by rewrite Hfiles. }
    unfold bind at 1, bind at 1, files_create, call in Hres. cbn [world] in Hres.
    destruct (create_answer (CreateFolder "Obsidian Vault" []) w)
      as (w' & [[Hw' Hcr]|(id & Hw' & Hcr)]); rewrite Hcr in Hres.
    + subst res. cbn [fst snd].
      split; [exists []; rewrite app_nil_r; unfold entries_of; simpl; congruence|].
      split; [done|].
      split; [done|]. rewrite Hnone. by intros [? ?].
    + unfold bind, modify, gets, console_log, emit in Hres. simpl in Hres.
      subst res. cbn [fst snd].
      split; [eexists; unfold entries_of; simpl; by rewrite Hw', Hw|].
      split; [done|]. split.
      * intros _. exists id. split; [done|]. split; [|done].
        unfold entries_of. simpl. rewrite Hw', Hw. by apply first_root_created.
      * rewrite Hnone. by intros [? ?].
  - assert (Hsome : first_root (entries_of st) = Some first).
    { unfold first_root, entries_of. by rewrite Hfiles. }
    unfold bind, modify, gets, console_log, emit in Hres. simpl in Hres.
    subst res. cbn [fst snd].
    split; [exists []; rewrite app_nil_r; unfold entries_of; simpl; congruence|].
    split; [done|]. split.
    + intros _. exists first. split; [done|]. split; [|done].
      unfold entries_of. simpl. by rewrite Hw.
    + intros _. split; [done|].
      eexists. simpl. rewrite <- app_assoc. split; [reflexivity|]. by repeat constructor.
Qed.

Lemma pre_walk_on_store (st : State Drive.env) :
  forall res, res = steps_before_walk st ->
  (exists more, entries_of (fst res) = entries_of st ++ more) /\
  settings (plugin (fst res)) = settings (plugin st) /\
  (snd res = inr tt ->
   exists r, obsidianFolderId (plugin (fst res)) = Some r /\
             first_root (entries_of (fst res)) = Some r /\
             drivefolderIds (plugin (fst res)) = js_set ∅ "/" r) /\
  (is_Some (first_root (entries_of st)) -> quiet_pass st (fst res)).
Proof.
  intros res Hres.
  unfold steps_before_walk, bind at 1, call in Hres.
  pose proof (failing_keeps_entries "token refresh failed" tt (world st)) as Htoken.
  change (oauth_getAccessToken Drive.env)
    with (Drive.failing "token refresh failed" (fun w : Drive.W => (w, tt))) in Hres.
  destruct (Drive.failing _ _ (world st)) as [w [e|[]]]; simpl in Htoken.
  { subst res. cbn [fst snd]. split; [exists []; by rewrite app_nil_r|]. split; [done|].
    split; [done|]. intros _. split; [done|].
    eexists. split; [reflexivity|]. by repeat constructor. }
  unfold bind at 1, notice, emit in Hres. unfold bind at 1, modify in Hres.
  cbn [plugin world disk events] in Hres.
  match type of Hres with
  | res = ensureObsidianFolder ?s =>
      destruct (root_on_store s res Hres) as ([more Hmore] & Hset & Hroot & Hquiet);
      set (s0 := s) in *
  end.
  assert (He0 : entries_of s0 = entries_of st) by done.
  split; [exists more; by rewrite Hmore, He0|]. split; [by rewrite Hset|]. split.
  - intros Hret. destruct (Hroot Hret) as (r & Ho & Hf & Hc). by exists r.
  - intros Hsome. rewrite <- He0 in Hsome.
    destruct (Hquiet Hsome) as (He & issued & Hi & Hq).
    split; [by rewrite He|].
    exists ([EvGetAccessToken; EvNotice "Syncing with Google Drive..."] ++ issued).
    split; [|apply Forall_app; split; [by repeat constructor|done]].
    rewrite Hi. subst s0. simpl. by rewrite <- !app_assoc.
Qed.


(** What a pass that got through its walk leaves in the store: the
    root it used is the first match of the root query, and every folder
    of the tree is found under it. *)
Lemma first_pass_on_store root (st0 : State Drive.env) :
  logged_in st0 ->
  snd (steps_before_timestamp root st0) = inr tt ->
  exists r,
    first_root (entries_of (fst (syncWithGoogleDrive root st0))) = Some r /\
    Forall (fun path =>
              is_Some (chain (entries_of (fst (syncWithGoogleDrive root st0))) []
                             (Js.Str r) (pathParts_of path)))
           (folder_paths root "/").
Proof.
  intros Hin Hsteps.
  rewrite steps_split in Hsteps. unfold bind in Hsteps.
  destruct (pre_walk_on_store st0 _ eq_refl) as (_ & _ & Hroot & _).
  destruct (steps_before_walk st0) as [s0 [e|[]]] eqn:Hpre; [done|].
  destruct (Hroot eq_refl) as (r & Ho & Hf & Hc). cbn [fst] in Ho, Hf, Hc.
  pose proof (agrees_initial s0 r Hc) as Hagree.
  destruct (first_pass_walk root s0 Hagree) as [Hg Hcov].
  { by destruct (uploadVaultContents root s0) as [? [?|[]]]. }
  destruct (uploadVaultContents root s0) as [sw [e|[]]] eqn:Hwalk; [done|].
  cbn [fst] in Hg, Hcov.
  assert (Hsame : entries_of (fst (syncWithGoogleDrive root st0)) = entries_of sw).
  { rewrite (sync_unfold _ _ Hin).
    pose proof (stable_try_catch quiet_pass finish_pass report_failure
                  quiet_finish quiet_report sw) as [He _].
    unfold try_catch in He |- *. unfold bind at 1. rewrite steps_split. unfold bind.
    rewrite Hpre, Hwalk. exact He. }
  rewrite Hsame. destruct Hg as [[more Hmore] Hr]. exists r. split.
  - rewrite Hmore. by apply first_root_app.
  - eapply Forall_impl; [exact Hcov|]. intros path Hp.
    unfold covered, root_of in Hp. by rewrite Hr, Ho in Hp.
Qed.



End Passes.

(** * Further properties of the engine *)

(** ** What the methods write to the log *)

Section Logging.

Context {E : Env} (P : Event -> Prop).

Lemma logs_ret {A} (a : A) : logs (E:=E) P (ret a).
Proof. intros st. exists []. simpl. by rewrite app_nil_r. Qed.

Lemma logs_gets {A} (f : MyPlugin -> A) : logs (E:=E) P (gets f).
Proof. intros st. exists []. simpl. by rewrite app_nil_r. Qed.

Lemma logs_modify f : logs (E:=E) P (modify f).
Proof. intros st. exists []. simpl. by rewrite app_nil_r. Qed.

Lemma logs_write_disk f : logs (E:=E) P (write_disk f).
Proof. intros st. exists []. simpl. by rewrite app_nil_r. Qed.

Lemma logs_bind {A B} (m : M E A) (k : A -> M E B) :
  logs P m -> (forall a, logs P (k a)) -> logs P (bind m k).
Proof.
  intros Hm Hk st. unfold bind. destruct (Hm st) as (evs & Hev & Hall).
  destruct (m st) as [st' [e|a]]; simpl in *; [by exists evs|].
  destruct (Hk a st') as (evs' & Hev' & Hall').
  exists (evs ++ evs'). rewrite Hev', Hev, app_assoc. split; [done|].
  by apply Forall_app.
Qed.

Lemma logs_try_catch {A} (m : M E A) h :
  logs P m -> (forall e, logs P (h e)) -> logs P (try_catch m h).
Proof.
  intros Hm Hh st. unfold try_catch. destruct (Hm st) as (evs & Hev & Hall).
  destruct (m st) as [st' [e|a]]; simpl in *; [|by exists evs].
  destruct (Hh e st') as (evs' & Hev' & Hall').
  exists (evs ++ evs'). rewrite Hev', Hev, app_assoc. split; [done|].
  by apply Forall_app.
Qed.

Lemma logs_emit ev : P ev -> logs (E:=E) P (emit ev).
Proof. intros Hev st. exists [ev]. split; [done|]. by constructor. Qed.

Lemma logs_call {A} ev (op : World E -> World E * (Exn + A)) :
  P ev -> logs P (call ev op).
Proof.
  intros Hev st. exists [ev]. unfold call. destruct (op (world st)).
  split; [done|]. by constructor.
Qed.

Lemma logs_for_of {A} (body : A -> M E unit) items :
  Forall (fun item => logs P (body item)) items -> logs P (for_of body items).
Proof.
  induction 1 as [|item rest Hitem _ IH]; [apply logs_ret|].
  rewrite for_of_cons. apply logs_bind; [done|]. intros _. exact IH.
Qed.

(** The walk and the root step only write remote calls, vault reads
    and console lines. *)
Hypothesis P_walk : forall ev, walk_event ev -> P ev.

Lemma logs_ensureObsidianFolder : logs (E:=E) P ensureObsidianFolder.
Proof.
  unfold ensureObsidianFolder, files_list, files_create, console_log.
  apply logs_bind; [by apply logs_call, P_walk|]. intros files.
  apply logs_bind.
  { destruct files; [|apply logs_modify].
    apply logs_bind; [by apply logs_call, P_walk|]. intros id. apply logs_modify. }
  intros _. apply logs_bind; [apply logs_gets|]. intros root.
  apply logs_bind; [|intros _; by apply logs_emit, P_walk].
  destruct root; [apply logs_modify|apply logs_ret].
Qed.

Lemma logs_ensureDriveFolder folderPath : logs (E:=E) P (ensureDriveFolder folderPath).
Proof.
  intros st. destruct (ensureDriveFolder_calls folderPath st) as (evs & Hev & Hall & _).
  exists evs. split; [done|]. eapply Forall_impl; [exact Hall|].
  intros [] Hcall; apply P_walk; try done; by vm_compute in Hcall.
Qed.

Lemma logs_uploadFile filePath content mimeType :
  logs (E:=E) P (uploadFile filePath content mimeType).
Proof.
  unfold uploadFile. apply logs_bind; [apply logs_ensureDriveFolder|].
  intros parentId. apply logs_try_catch.
  - apply logs_bind; [apply logs_gets|]. intros known.
    unfold files_update, files_create, console_log.
    destruct (Js.truthy known);
      (apply logs_bind; [by apply logs_call, P_walk|]; intros id;
       apply logs_bind; [by apply logs_emit, P_walk|]; intros _; apply logs_ret).
  - intros e. apply logs_bind; [by apply logs_emit, P_walk|]. intros _. apply logs_ret.
Qed.

Lemma logs_uploadObsidianFile f cur : logs (E:=E) P (uploadObsidianFile f cur).
Proof.
  unfold uploadObsidianFile. apply logs_bind; [apply logs_gets|].
  intros last. destruct (not_modified f last); [by apply logs_emit, P_walk|].
  unfold upload_and_record, read_content. apply logs_bind.
  { destruct (_ || _);
      (apply logs_bind; [by apply logs_call, P_walk|]; intros ?; apply logs_ret). }
  intros content. apply logs_bind; [apply logs_uploadFile|].
  intros fileId. destruct (Js.truthy _); [apply logs_modify|apply logs_ret].
Qed.

Lemma logs_uploadItem item : forall cur, logs (E:=E) P (uploadItem item cur).
Proof.
  induction item as [f|n children IH] using TAbstractFile_ind'; intros cur.
  - apply logs_uploadObsidianFile.
  - rewrite uploadItem_folder.
    apply logs_bind; [apply logs_ensureDriveFolder|]. intros _.
    apply logs_for_of. eapply Forall_impl; [exact IH|]. intros item H. apply H.
Qed.

Lemma logs_uploadFolderContents children cur :
  logs (E:=E) P (uploadFolderContents children cur).
Proof.
  apply logs_for_of. apply Forall_forall. intros item _. apply logs_uploadItem.
Qed.

End Logging.

(** ** A pass from start to end *)

(** A string is none of those listed. *)
Ltac not_listed :=
  let H := fresh in
  intros H; repeat (apply elem_of_cons in H as [H|H]; [discriminate H|]);
  by apply elem_of_nil in H.

Section PassFacts.

Context {E : Env}.

#[global] Instance same_login_preorder : PreOrder (same_login (E:=E)).
Proof.
  split.
  - intros st. by repeat split.
  - intros a b c (H1 & H2 & H3) (H4 & H5 & H6). repeat split; congruence.
Qed.

Lemma notices_of_app (a b : list Event) :
  notices_of (a ++ b) = notices_of a ++ notices_of b.
Proof. apply omap_app. Qed.

Lemma notices_of_silent (evs : list Event) :
  Forall (fun ev => is_notice ev = false) evs -> notices_of evs = [].
Proof.
  induction 1 as [|ev evs Hev _ IH]; [done|].
  destruct ev; try discriminate Hev; exact IH.
Qed.

Lemma walk_event_silent ev : walk_event ev -> is_notice ev = false.
Proof. by destruct ev. Qed.

Lemma report_failure_run e (st : State E) :
  report_failure e st = (sync_failed e st, inr tt).
Proof. unfold report_failure. apply catch_block. Qed.

(** The steps before the timestamp show the opening notice and no
    other, unless the token refresh fails. *)
Lemma steps_notices root (st : State E) :
  exists issued,
    events (fst (steps_before_timestamp root st)) = events st ++ issued /\
    notices_of issued = match snd (oauth_getAccessToken E (world st)) with
                        | inr _ => ["Syncing with Google Drive..."]
                        | inl _ => []
                        end /\
    (forall e, snd (oauth_getAccessToken E (world st)) = inl e ->
               snd (steps_before_timestamp root st) = inl e).
Proof.
  remember (steps_before_timestamp root st) as res eqn:Hres.
  unfold steps_before_timestamp, bind at 1, call in Hres.
  destruct (oauth_getAccessToken E (world st)) as [w [e|[]]]; simpl.
  { subst res. exists [EvGetAccessToken]. split; [done|]. split; [done|].
    by intros ? [= <-]. }
  unfold bind at 1, notice, emit in Hres. cbn [fst snd] in Hres.
  match type of Hres with
  | context [bind ?m ?k ?s] =>
      assert (Hlog : logs (fun ev => is_notice ev = false) (bind m k));
      [|destruct (Hlog s) as (evs & Hev & Hall)]
  end.
  { apply logs_bind; [apply logs_modify|]. intros _.
    apply logs_bind; [apply logs_ensureObsidianFolder, walk_event_silent|]. intros _.
    apply logs_uploadFolderContents, walk_event_silent. }
  subst res.
  exists (EvGetAccessToken :: EvNotice "Syncing with Google Drive..." :: evs).
  rewrite Hev. cbn [events]. rewrite <- !app_assoc. split; [done|]. split; [|done].
  change (EvGetAccessToken :: EvNotice "Syncing with Google Drive..." :: evs)
    with ([EvGetAccessToken; EvNotice "Syncing with Google Drive..."] ++ evs).
  by rewrite notices_of_app, (notices_of_silent _ Hall).
Qed.

(** The steps after the walk: the clock is read, [saveData] is called
    with the settings and then with ['fileIds'], each call replacing
    the content of data.json, and the closing notice is shown when
    both are answered. *)
Lemma finish_pass_run (sw : State E) :
  let now := snd (date_now E (world sw)) in
  let w1 := fst (date_now E (world sw)) in
  let stamped := set_settings (set_lastSyncTimestamp (Some now) (settings (plugin sw)))
                              (plugin sw) in
  finish_pass sw =
  match store_write E w1 with
  | (w2, inl e) =>
      (mkState stamped w2 (disk sw) (events sw ++ [EvDateNow; EvSaveSettings]), inl e)
  | (w2, inr _) =>
      match store_write E w2 with
      | (w3, inl e) =>
          (mkState stamped w3 (SavedSettings (settings stamped))
             (events sw ++ [EvDateNow; EvSaveSettings; EvSaveFileIds]), inl e)
      | (w3, inr _) =>
          (mkState stamped w3 (SavedString "fileIds")
             (events sw ++ [EvDateNow; EvSaveSettings; EvSaveFileIds;
                            EvNotice "Sync complete!"]), inr tt)
      end
  end.
Proof.
  unfold finish_pass, saveSettings, saveFileIds, write_disk, modify, gets, bind, call,
    notice, emit.
  destruct (date_now E (world sw)) as [w1 now]. cbn.
  destruct (store_write E w1) as [w2 [e2|[]]]; cbn; [by rewrite <- app_assoc|].
  destruct (store_write E w2) as [w3 [e3|[]]]; cbn; by rewrite <- !app_assoc.
Qed.

Lemma finish_pass_notices (sw : State E) :
  exists issued,
    events (fst (finish_pass sw)) = events sw ++ issued /\
    notices_of issued = match snd (finish_pass sw) with
                        | inr _ => ["Sync complete!"]
                        | inl _ => []
                        end.
Proof.
  rewrite finish_pass_run. cbn zeta.
  destruct (store_write E (fst (date_now E (world sw)))) as [w2 [e2|[]]];
    [by eexists|].
  destruct (store_write E w2) as [w3 [e3|[]]]; by eexists.
Qed.

Lemma notices_of_elem msg (evs : list Event) :
  msg ∈ notices_of evs -> EvNotice msg ∈ evs.
Proof.
  induction evs as [|ev evs IH]; [by intros H%elem_of_nil|].
  intros Hin. destruct ev; try (apply elem_of_cons; right; by apply IH).
  change (notices_of (EvNotice msg0 :: evs)) with (msg0 :: notices_of evs) in Hin.
  apply elem_of_cons in Hin as [->|Hin]; apply elem_of_cons; [by left|right; by apply IH].
Qed.

(** What a pass of a logged-in plugin writes to the log never is the
    notice of the login guard. *)
Lemma pass_never_shows_guard root :
  logs (E:=E) (fun ev => ev <> EvNotice "Please log in to Google Drive first.")
       (try_catch (bind (steps_before_timestamp root) (fun _ => finish_pass))
                  report_failure).
Proof.
  assert (Hwalk : forall ev, walk_event ev ->
                             ev <> EvNotice "Please log in to Google Drive first.").
  { by intros []. }
  apply logs_try_catch.
  - apply logs_bind.
    + unfold steps_before_timestamp, notice.
      apply logs_bind; [by apply logs_call|intros _].
      apply logs_bind; [by apply logs_emit|intros _].
      apply logs_bind; [apply logs_modify|intros _].
      apply logs_bind; [by apply logs_ensureObsidianFolder|intros _].
      by apply logs_uploadFolderContents.
    + intros _. unfold finish_pass, saveSettings, saveFileIds, notice.
      apply logs_bind; [by apply logs_call|intros now].
      apply logs_bind; [apply logs_modify|intros _].
      apply logs_bind; [|intros _].
      { apply logs_bind; [by apply logs_call|intros _].
        apply logs_bind; [apply logs_gets|intros ?]. apply logs_write_disk. }
      apply logs_bind; [|intros _; by apply logs_emit].
      apply logs_bind; [by apply logs_call|intros _]. apply logs_write_disk.
  - intros e. unfold report_failure, console_error, notice.
    apply logs_bind; [by apply logs_emit|intros _]. by apply logs_emit.
Qed.

Lemma reset_forgets_cache {A} (k : M E A) cache (st : State E) :
  snd (oauth_getAccessToken E (world st)) = inr tt ->
  bind (call EvGetAccessToken (oauth_getAccessToken E))
       (fun _ => bind (notice "Syncing with Google Drive...")
                      (fun _ => bind (modify (set_drivefolderIds ∅)) (fun _ => k)))
       (with_plugin st (set_drivefolderIds cache (plugin st)))
  = bind (call EvGetAccessToken (oauth_getAccessToken E))
         (fun _ => bind (notice "Syncing with Google Drive...")
                        (fun _ => bind (modify (set_drivefolderIds ∅)) (fun _ => k)))
         st.
Proof.
  unfold bind, call, notice, emit, modify, with_plugin. cbn.
  by destruct (oauth_getAccessToken E (world st)) as [w [e|[]]].
Qed.

Lemma same_login_saveSettings : stable same_login (saveSettings (E:=E)).
Proof.
  intros st. unfold saveSettings, bind, call, gets, write_disk.
  by destruct (store_write E (world st)) as [w [e|[]]].
Qed.

Lemma same_login_saveFileIds : stable same_login (saveFileIds (E:=E)).
Proof.
  intros st. unfold saveFileIds, bind, call, gets, write_disk.
  by destruct (store_write E (world st)) as [w [e|[]]].
Qed.

Lemma same_login_sync root : stable same_login (syncWithGoogleDrive (E:=E) root).
Proof.
  apply stable_syncWithGoogleDrive; try apply _; try done.
  - apply same_login_saveSettings.
  - apply same_login_saveFileIds.
Qed.

(** X1. [syncWithGoogleDrive] never rejects: whatever a step throws is
    caught by its [catch] block, which itself cannot throw. *)
Theorem syncWithGoogleDrive_never_throws (root : list TAbstractFile) (st : State E) :
  snd (syncWithGoogleDrive root st) = inr tt.
Proof.
  destruct (decide (logged_in st)) as [Hin|Hout].
  - rewrite (sync_unfold _ _ Hin). unfold try_catch.
    destruct (bind (steps_before_timestamp root) (fun _ => finish_pass) st)
      as [s [e|[]]]; [|done].
    by rewrite report_failure_run.
  - by rewrite (sync_not_logged_in _ _ Hout).
Qed.

(** X2. A pass of a logged-in plugin tells the user how it ended, once:
    after the opening notice it shows "Sync complete!" when every
    step of the [try] block returned and the error notice otherwise;
    the opening notice is missing only when the token refresh failed.
    The walk itself shows no notice. *)
Theorem pass_shows_one_closing_notice (root : list TAbstractFile) (st : State E) :
  logged_in st ->
  let body := bind (steps_before_timestamp root) (fun _ => finish_pass) in
  let shown := notices_of (issued_after st (fst (syncWithGoogleDrive root st))) in
  match snd (body st), snd (oauth_getAccessToken E (world st)) with
  | inr _, _ => shown = ["Syncing with Google Drive..."; "Sync complete!"]
  | inl _, inr _ => shown = ["Syncing with Google Drive...";
                             "Error during sync. Please try again."]
  | inl _, inl _ => shown = ["Error during sync. Please try again."]
  end.
Proof.
  intros Hin body shown. subst shown body.
  rewrite (sync_unfold _ _ Hin). unfold try_catch, bind.
  destruct (steps_notices root st) as (evs & Hev & Hshown & Htok).
  destruct (steps_before_timestamp root st) as [sw [e|[]]] eqn:Hsteps; cbn [fst snd] in *.
  - rewrite report_failure_run. cbn [fst snd].
    erewrite issued_after_app; [|unfold sync_failed; cbn; rewrite Hev, <- app_assoc; done].
    rewrite notices_of_app, Hshown.
    by destruct (snd (oauth_getAccessToken E (world st))).
  - assert (Hok : exists u, snd (oauth_getAccessToken E (world st)) = inr u).
    { destruct (snd (oauth_getAccessToken E (world st))) as [e|u]; [|by eauto].
      by specialize (Htok e eq_refl). }
    destruct Hok as [u Hok]. rewrite Hok in Hshown |- *.
    destruct (finish_pass_notices sw) as (evs' & Hev' & Hshown').
    destruct (finish_pass sw) as [sf [e|[]]]; cbn [fst snd] in *.
    + rewrite report_failure_run. cbn [fst snd].
      erewrite issued_after_app;
        [|unfold sync_failed; cbn; rewrite Hev', Hev, <- !app_assoc; done].
      by rewrite !notices_of_app, Hshown, Hshown'.
    + erewrite issued_after_app; [|rewrite Hev', Hev, <- !app_assoc; done].
      by rewrite !notices_of_app, Hshown, Hshown'.
Qed.

(** X3. The folder-id cache is volatile: once the access token is
    refreshed a pass empties it, so neither its outcome nor the state
    it ends in depends on what earlier passes left in the cache. *)
Theorem pass_ignores_earlier_folder_cache
    (root : list TAbstractFile) (st : State E) (cache : gmap string string) :
  logged_in st ->
  snd (oauth_getAccessToken E (world st)) = inr tt ->
  syncWithGoogleDrive root (with_plugin st (set_drivefolderIds cache (plugin st)))
  = syncWithGoogleDrive root st.
Proof.
  intros Hin Htok.
  rewrite (sync_unfold root st Hin).
  rewrite (sync_unfold root
             (with_plugin st (set_drivefolderIds cache (plugin st))) Hin).
  unfold try_catch, bind.
  assert (Hsteps :
    steps_before_timestamp root (with_plugin st (set_drivefolderIds cache (plugin st)))
    = steps_before_timestamp root st).
  { unfold steps_before_timestamp. by apply reset_forgets_cache. }
  by rewrite Hsteps.
Qed.

(** X4. Sync passes and unloads never change the login settings: the
    client id, the client secret and the refresh token stay as they
    are, so a plugin that is logged in stays logged in. *)
Theorem passes_keep_login_settings (ops : list Op) (st : State E) :
  same_login st (run_ops ops st) /\
  (logged_in st <-> logged_in (run_ops ops st)).
Proof.
  assert (H : same_login st (run_ops ops st)).
  { revert st. induction ops as [|op ops IH]; intros st; [reflexivity|].
    simpl. etrans; [|apply IH].
    destruct op; simpl; [apply same_login_sync|apply same_login_saveFileIds]. }
  split; [exact H|]. destruct H as (_ & _ & Htok). unfold logged_in. by rewrite Htok.
Qed.

(** X5. When the walk returned and both saves are answered, the pass
    ends with the new timestamp in memory, what the clock read after
    the walk, but not on disk: the second save,
    [saveData('fileIds', this.fileIds)], replaces the settings just
    written by the string ['fileIds'].  Loading the plugin again gives
    the default settings, so no refresh token and no timestamp, and a
    file-id map that holds the seven characters of that string and
    none of the paths recorded. *)
Theorem finished_pass_leaves_no_settings_on_disk
    (root : list TAbstractFile) (st sw : State E) (w2 w3 : World E) :
  logged_in st ->
  steps_before_timestamp root st = (sw, inr tt) ->
  store_write E (fst (date_now E (world sw))) = (w2, inr tt) ->
  store_write E w2 = (w3, inr tt) ->
  let final := fst (syncWithGoogleDrive root st) in
  let reloaded := fst (onload final) in
  lastSyncTimestamp (settings (plugin final)) = Some (snd (date_now E (world sw))) /\
  issued_after sw final
    = [EvDateNow; EvSaveSettings; EvSaveFileIds; EvNotice "Sync complete!"] /\
  disk final = SavedString "fileIds" /\
  settings (plugin reloaded)
    = mkSettings (env_client_id E) (env_client_secret E) "" None
                 (Js.index_properties "fileIds") /\
  ~ logged_in reloaded /\
  fileIds (plugin reloaded) = Js.Str <$> Js.index_properties "fileIds" /\
  (forall k, Path.isAbsolute k = true -> fileIds (plugin reloaded) !! k = None).
Proof.
  intros Hin Hsteps Hw1 Hw2 final reloaded. subst reloaded final.
  rewrite (sync_after_steps _ _ _ Hin Hsteps). unfold try_catch.
  rewrite finish_pass_run. cbn zeta. rewrite Hw1, Hw2. cbn [fst snd].
  split; [done|]. split; [by erewrite issued_after_app|]. split; [done|].
  split; [done|]. split; [by intros Hl|]. split; [done|].
  intros k Hk. by apply reloaded_string_holds_no_path.
Qed.

(** X6. The timestamp is assigned before anything is saved.  When saving
    the settings fails, the pass is reported as failed and nothing
    reaches the disk, but the new timestamp stays in memory; when
    the save that follows fails, the pass is reported as failed too,
    with the new timestamp in memory and in the settings on disk. *)
Theorem failed_save_keeps_new_timestamp
    (root : list TAbstractFile) (st sw : State E) :
  logged_in st ->
  steps_before_timestamp root st = (sw, inr tt) ->
  let now := snd (date_now E (world sw)) in
  let w1 := fst (date_now E (world sw)) in
  let final := fst (syncWithGoogleDrive root st) in
  (forall w2 e, store_write E w1 = (w2, inl e) ->
     lastSyncTimestamp (settings (plugin final)) = Some now /\
     disk final = disk sw /\
     notices_of (issued_after sw final) = ["Error during sync. Please try again."]) /\
  (forall w2 w3 e, store_write E w1 = (w2, inr tt) -> store_write E w2 = (w3, inl e) ->
     lastSyncTimestamp (settings (plugin final)) = Some now /\
     (lastSyncTimestamp <$> saved_settings (disk final)) = Some (Some now) /\
     disk final = SavedSettings (settings (plugin final)) /\
     notices_of (issued_after sw final) = ["Error during sync. Please try again."]).
Proof.
  intros Hin Hsteps now w1 final. subst now w1 final.
  rewrite (sync_after_steps _ _ _ Hin Hsteps). unfold try_catch.
  rewrite finish_pass_run. cbn zeta. split.
  - intros w2 e Hw1. rewrite Hw1, report_failure_run. cbn [fst snd].
    repeat split.
    erewrite issued_after_app; [|unfold sync_failed; cbn; by rewrite <- app_assoc].
    done.
  - intros w2 w3 e Hw1 Hw2. rewrite Hw1, Hw2, report_failure_run. cbn [fst snd].
    repeat split.
    erewrite issued_after_app; [|unfold sync_failed; cbn; by rewrite <- app_assoc].
    done.
Qed.

(** X8. The sync command refuses to start without a refresh token and
    otherwise runs the pass; the login guard inside
    [syncWithGoogleDrive] is then never the branch taken, so its
    notice is never shown by the command. *)
Theorem sync_command_guard (root : list TAbstractFile) (st : State E) :
  (~ logged_in st ->
   sync_command root st =
   (with_events st (events st ++ [EvNotice "You are not logged in. Please log in first."]),
    inr tt)) /\
  (logged_in st -> sync_command root st = syncWithGoogleDrive root st) /\
  "Please log in to Google Drive first."
    ∉ notices_of (issued_after st (fst (sync_command root st))).
Proof.
  assert (Hout : ~ logged_in st ->
    sync_command root st =
    (with_events st (events st ++ [EvNotice "You are not logged in. Please log in first."]),
     inr tt)).
  { intros Hout. unfold sync_command, bind at 1, gets at 1. simpl.
    destruct (String.eqb_spec (googleDriveRefreshToken (settings (plugin st))) "");
      [done|]. by destruct Hout. }
  assert (Hin : logged_in st -> sync_command root st = syncWithGoogleDrive root st).
  { intros Hin. unfold sync_command, bind at 1, gets at 1.
    by rewrite (truthy_token _ Hin). }
  split; [exact Hout|]. split; [exact Hin|].
  destruct (decide (logged_in st)) as [Hl|Hl].
  - rewrite (Hin Hl), (sync_unfold _ _ Hl).
    destruct (pass_never_shows_guard root st) as (issued & Hev & Hall).
    rewrite (issued_after_app _ _ _ Hev). intros Hshown%notices_of_elem.
    rewrite Forall_forall in Hall. by apply (Hall _ Hshown).
  - rewrite (Hout Hl). cbn [fst]. erewrite issued_after_app; [|reflexivity].
    not_listed.
Qed.

(** X7. The timestamp is read after the walk.  A file whose
    modification time is not later than that reading, for instance a
    file changed while the pass was running, is skipped by the passes
    that follow, whether or not the pass has uploaded that change. *)
Theorem files_touched_during_a_pass_are_skipped
    (root : list TAbstractFile) (st sw : State E) (f : TFile) (cur : string) :
  logged_in st ->
  steps_before_timestamp root st = (sw, inr tt) ->
  (mtime f <= snd (date_now E (world sw)))%Z ->
  let final := fst (syncWithGoogleDrive root st) in
  uploadObsidianFile f cur final = skipped f cur final /\
  forall rest, uploadFolderContents (File f :: rest) cur final
               = uploadFolderContents rest cur (fst (skipped f cur final)).
Proof.
  intros Hin Hsteps Hle final.
  destruct (sync_after_walk root st sw Hin Hsteps) as [_ Hstamp]. fold final in Hstamp.
  assert (Hskip : uploadObsidianFile f cur final = skipped f cur final).
  { unfold uploadObsidianFile, bind, gets. rewrite Hstamp. cbn [not_modified].
    by destruct (Z.leb_spec (mtime f) (snd (date_now E (world sw)))); [|lia]. }
  split; [exact Hskip|]. intros rest.
  rewrite uploadFolderContents_cons. cbn [uploadItem]. unfold bind at 1. by rewrite Hskip.
Qed.

End PassFacts.

(** ** The login exchange *)

Section AccountFacts.

Context {E : Env} (account : Account E).

(** [exchangeCodeForTokens] by the answer of [getToken] and of the
    save. *)
Lemma exchange_run authCode (st : State E) :
  exchangeCodeForTokens account authCode st =
  match oauth_getToken account authCode (world st) with
  | (w, inl e) =>
      (after_call st w
         [EvConsoleError "Error exchanging authorization code for tokens:" e;
          EvNotice "Authentication failed. Please try again."], inr tt)
  | (w, inr tokens) =>
      let w1 := oauth_setCredentials account tokens w in
      if Js.truthy (of_nullable (refresh_token tokens)) then
        let p := set_settings
                   (set_googleDriveRefreshToken (default "" (refresh_token tokens))
                                                (settings (plugin st))) (plugin st) in
        match store_write E w1 with
        | (w2, inl e) =>
            (mkState p w2 (disk st)
               (events st ++
                [EvSaveSettings;
                 EvConsoleError "Error exchanging authorization code for tokens:" e;
                 EvNotice "Authentication failed. Please try again."]), inr tt)
        | (w2, inr _) =>
            (mkState p w2 (SavedSettings (settings p))
               (events st ++
                [EvSaveSettings;
                 EvNotice "Logged in successfully and refresh token saved!"]), inr tt)
        end
      else
        (after_call st w1 [EvNotice "No refresh token received. Please try again."],
         inr tt)
  end.
Proof.
  unfold exchangeCodeForTokens, try_catch, bind at 1, ask.
  destruct (oauth_getToken account authCode (world st)) as [w [e|tokens]].
  { unfold bind, console_error, notice, emit, after_call. cbn.
    by rewrite <- app_assoc. }
  unfold bind at 1, tell. cbn [plugin world disk events].
  destruct (Js.truthy (of_nullable (refresh_token tokens))).
  - unfold saveSettings, bind, modify, call, gets, write_disk, notice, console_error, emit.
    cbn. destruct (store_write E (oauth_setCredentials account tokens w))
      as [w2 [e|[]]]; cbn; by rewrite <- ?app_assoc.
  - reflexivity.
Qed.

(** X9. [exchangeCodeForTokens] never rejects, and shows exactly one
    notice: success, no refresh token, or failure. *)
Theorem exchangeCodeForTokens_never_throws (authCode : string) (st : State E) :
  let final := fst (exchangeCodeForTokens account authCode st) in
  snd (exchangeCodeForTokens account authCode st) = inr tt /\
  exists msg,
    notices_of (issued_after st final) = [msg] /\
    msg ∈ ["Logged in successfully and refresh token saved!";
           "No refresh token received. Please try again.";
           "Authentication failed. Please try again."].
Proof.
  rewrite exchange_run.
  destruct (oauth_getToken account authCode (world st)) as [w [e|tokens]]; cbn zeta.
  { split; [done|]. eexists. erewrite issued_after_app; [|reflexivity].
    split; [reflexivity|]. set_solver. }
  destruct (Js.truthy (of_nullable (refresh_token tokens))).
  - destruct (store_write E (oauth_setCredentials account tokens w)) as [w2 [e|[]]];
      (split; [done|]); eexists; (erewrite issued_after_app; [|reflexivity]);
      (split; [reflexivity|]); set_solver.
  - split; [done|]. eexists. erewrite issued_after_app; [|reflexivity].
    split; [reflexivity|]. set_solver.
Qed.

(** X10. When [getToken] answers with a non-empty refresh token and the
    save is answered, the token is in the settings, in memory and on
    disk, nothing else of the settings changes, the plugin is logged
    in (also after a reload) and the sync command runs the pass. *)
Theorem exchange_stores_refresh_token
    (authCode : string) (st : State E) (w w2 : World E) (tokens : Tokens) (t : string) :
  oauth_getToken account authCode (world st) = (w, inr tokens) ->
  refresh_token tokens = Some t -> t <> "" ->
  store_write E (oauth_setCredentials account tokens w) = (w2, inr tt) ->
  let final := fst (exchangeCodeForTokens account authCode st) in
  settings (plugin final) = set_googleDriveRefreshToken t (settings (plugin st)) /\
  saved_settings (disk final) = Some (settings (plugin final)) /\
  fileIds (plugin final) = fileIds (plugin st) /\
  notices_of (issued_after st final) = ["Logged in successfully and refresh token saved!"] /\
  logged_in final /\
  logged_in (fst (onload final)) /\
  forall root, sync_command root final = syncWithGoogleDrive root final.
Proof.
  intros Hanswer Htoken Hne Hsave final. subst final.
  rewrite exchange_run, Hanswer. cbn zeta. rewrite Htoken. cbn [of_nullable Js.truthy].
  destruct (String.eqb_spec t "") as [|_]; [done|]. cbn [negb default].
  rewrite Hsave. cbn [fst].
  assert (Hin : forall (s : State E),
    googleDriveRefreshToken (settings (plugin s)) = t -> logged_in s).
  { intros s Hs. unfold logged_in. by rewrite Hs. }
  split; [done|]. split; [done|]. split; [done|].
  split; [erewrite issued_after_app; [|reflexivity]; done|].
  split; [by apply Hin|]. split; [by apply Hin|].
  intros root. unfold sync_command, bind at 1, gets at 1.
  rewrite truthy_token; [done|]. by apply Hin.
Qed.

(** X11. When [getToken] fails, or answers without a refresh token, the
    plugin fields and the disk are as before. *)
Theorem exchange_without_token_changes_nothing (authCode : string) (st : State E) :
  (forall tokens, snd (oauth_getToken account authCode (world st)) = inr tokens ->
                  Js.truthy (of_nullable (refresh_token tokens)) = false) ->
  let final := fst (exchangeCodeForTokens account authCode st) in
  plugin final = plugin st /\ disk final = disk st /\
  notices_of (issued_after st final) =
    match snd (oauth_getToken account authCode (world st)) with
    | inl _ => ["Authentication failed. Please try again."]
    | inr _ => ["No refresh token received. Please try again."]
    end.
Proof.
  intros Hnone final. subst final. rewrite exchange_run.
  destruct (oauth_getToken account authCode (world st)) as [w [e|tokens]]; cbn zeta.
  { cbn [fst snd]. repeat split. erewrite issued_after_app; [|reflexivity]; done. }
  rewrite (Hnone tokens eq_refl). cbn [fst snd]. repeat split.
  erewrite issued_after_app; [|reflexivity]; done.
Qed.

(** X12. When the refresh token is received but saving the settings fails,
    the user is told that authentication failed, although the token is
    in the settings in memory: the plugin is logged in until it is
    unloaded, and the disk is as before. *)
Theorem exchange_save_failure_keeps_token_in_memory
    (authCode : string) (st : State E) (w w2 : World E) (tokens : Tokens)
    (t : string) (e : Exn) :
  oauth_getToken account authCode (world st) = (w, inr tokens) ->
  refresh_token tokens = Some t -> t <> "" ->
  store_write E (oauth_setCredentials account tokens w) = (w2, inl e) ->
  let final := fst (exchangeCodeForTokens account authCode st) in
  googleDriveRefreshToken (settings (plugin final)) = t /\
  logged_in final /\
  disk final = disk st /\
  notices_of (issued_after st final) = ["Authentication failed. Please try again."].
Proof.
  intros Hanswer Htoken Hne Hsave final. subst final.
  rewrite exchange_run, Hanswer. cbn zeta. rewrite Htoken. cbn [of_nullable Js.truthy].
  destruct (String.eqb_spec t "") as [|_]; [done|]. cbn [negb default].
  rewrite Hsave. cbn [fst]. unfold logged_in.
  split; [done|]. split; [done|]. split; [done|].
  erewrite issued_after_app; [|reflexivity]; done.
Qed.

End AccountFacts.

(** ** The settings tab, loading and unloading *)

Section SettingsFacts.

Context {E : Env}.

Lemma onChange_run assign value (st : State E) :
  let p := set_settings (assign value (settings (plugin st))) (plugin st) in
  onChange assign value st =
  match store_write E (world st) with
  | (w, inl e) => (mkState p w (disk st) (events st ++ [EvSaveSettings]), inl e)
  | (w, inr _) =>
      (mkState p w (SavedSettings (settings p))
         (events st ++ [EvSaveSettings]), inr tt)
  end.
Proof.
  unfold onChange, saveSettings, bind, modify, call, gets, write_disk. cbn.
  by destruct (store_write E (world st)) as [w [e|[]]].
Qed.

(** X13. A change in the settings tab is assigned first and saved
    after, for each of the three fields: when the save is answered,
    loading the settings again gives the settings in memory; when it
    fails the handler rejects, the change stays in memory and the disk
    is as before.  The file ids are not touched. *)
Theorem onChange_saves_or_rejects (value : string) (st : State E) :
  let outcome (handler : string -> M E unit)
              (assign : string -> MyPluginSettings -> MyPluginSettings) :=
    let final := fst (handler value st) in
    settings (plugin final) = assign value (settings (plugin st)) /\
    fileIds (plugin final) = fileIds (plugin st) /\
    match snd (store_write E (world st)) with
    | inr _ =>
        snd (handler value st) = inr tt /\
        saved_settings (disk final) = Some (settings (plugin final)) /\
        settings (plugin (fst (loadSettings final))) = settings (plugin final)
    | inl e =>
        snd (handler value st) = inl e /\ disk final = disk st
    end in
  outcome onChange_clientId set_googleDriveClientId /\
  outcome onChange_clientSecret set_googleDriveClientSecret /\
  outcome onChange_refreshToken set_googleDriveRefreshToken.
Proof.
  intros outcome.
  assert (Hany : forall assign, outcome (onChange assign) assign).
  { intros assign. subst outcome. cbn beta zeta. rewrite onChange_run. cbn zeta.
    by destruct (store_write E (world st)) as [w [e|[]]]. }
  split; [apply Hany|]. split; apply Hany.
Qed.

(** X14. The refresh-token field of the settings tab alone decides
    whether the sync command starts a pass: with a non-empty value it
    does, with the field emptied it only shows the notice. *)
Theorem refresh_token_field_decides_login
    (value : string) (st : State E) (root : list TAbstractFile) :
  let final := fst (onChange_refreshToken value st) in
  (logged_in final <-> value <> "") /\
  (value <> "" -> sync_command root final = syncWithGoogleDrive root final) /\
  (value = "" ->
   issued_after final (fst (sync_command root final))
   = [EvNotice "You are not logged in. Please log in first."]).
Proof.
  intros final.
  assert (Htok : googleDriveRefreshToken (settings (plugin final)) = value).
  { subst final. unfold onChange_refreshToken. rewrite onChange_run. cbn zeta.
    by destruct (store_write E (world st)) as [w [e|[]]]. }
  split; [unfold logged_in; by rewrite Htok|].
  unfold sync_command, bind at 1 2, gets at 1 2. rewrite Htok. cbn [Js.truthy].
  split.
  - intros Hne. by destruct (String.eqb_spec value "").
  - intros ->. cbn. erewrite issued_after_app; [|reflexivity]; done.
Qed.

(** X15. Unloading calls [saveData('fileIds', this.fileIds)], which
    writes the string ['fileIds'] over whatever data.json held, the
    saved settings included.  When the call is answered, loading the
    plugin again finds neither the settings nor the file ids: the
    settings are the defaults, without refresh token or timestamp, and
    the file-id map holds the characters of the string and no path.
    When the call fails, [onunload] rejects and data.json is as it
    was.  The fields in memory are not touched by the unload. *)
Theorem unload_overwrites_saved_settings (st : State E) :
  let unloaded := fst (onunload st) in
  let reloaded := fst (onload unloaded) in
  plugin unloaded = plugin st /\
  match snd (store_write E (world st)) with
  | inr _ =>
      snd (onunload st) = inr tt /\
      disk unloaded = SavedString "fileIds" /\
      settings (plugin reloaded)
        = mkSettings (env_client_id E) (env_client_secret E) "" None
                     (Js.index_properties "fileIds") /\
      ~ logged_in reloaded /\
      fileIds (plugin reloaded) = Js.Str <$> Js.index_properties "fileIds" /\
      (forall k, Path.isAbsolute k = true -> fileIds (plugin reloaded) !! k = None)
  | inl e =>
      snd (onunload st) = inl e /\ disk unloaded = disk st
  end.
Proof.
  intros unloaded reloaded. subst reloaded unloaded.
  unfold onunload. rewrite saveFileIds_run.
  destruct (store_write E (world st)) as [w [e|[]]]; cbn [fst snd]; [done|].
  split; [done|]. split; [done|]. split; [done|]. split; [done|].
  split; [by intros Hl|]. split; [done|].
  intros k Hk. by apply reloaded_string_holds_no_path.
Qed.

End SettingsFacts.

(** ** The root folder and the folder cache *)

Section RootFolder.

Context {E : Env}.

Lemma ensureObsidianFolder_run (st : State E) :
  let q := EvList (mkQuery "Obsidian Vault" None) in
  let c := EvCreate (CreateFolder "Obsidian Vault" []) in
  let found id (s : State E) : State E * (Exn + unit) :=
    (mkState (set_drivefolderIds (js_set (drivefolderIds (plugin s)) "/" id)
                (set_obsidianFolderId (Some id) (plugin s)))
             (world s) (disk s)
             (events s ++ [EvConsoleLog ("Obsidian folder ID: " +:+ id)]), inr tt) in
  ensureObsidianFolder st =
  match drive_files_list E (mkQuery "Obsidian Vault" None) (world st) with
  | (w, inl e) => (after_call st w [q], inl e)
  | (w, inr (first :: _)) => found first (after_call st w [q])
  | (w, inr []) =>
      match drive_files_create E (CreateFolder "Obsidian Vault" []) w with
      | (w', inl e) => (after_call st w' [q; c], inl e)
      | (w', inr id) => found id (after_call st w' [q; c])
      end
  end.
Proof.
  unfold ensureObsidianFolder, bind at 1, files_list, call.
  destruct (drive_files_list E (mkQuery "Obsidian Vault" None) (world st))
    as [w [e|[|first others]]]; [reflexivity| |reflexivity].
  unfold bind at 1 2, files_create, call. cbn [world].
  destruct (drive_files_create E (CreateFolder "Obsidian Vault" []) w) as [w' [e|id]].
  - unfold after_call. cbn. by rewrite <- app_assoc.
  - unfold bind, modify, gets, console_log, emit, after_call. cbn.
    by rewrite <- !app_assoc.
Qed.

(** X16. [ensureObsidianFolder] asks once for the folders named "Obsidian
    Vault".  It takes the first one listed and creates nothing then; it
    creates the folder only when none is listed; the id it ends with
    is both the root id and the cache entry of "/".  When a call fails
    it throws and leaves the plugin fields as they were. *)
Theorem root_folder_found_or_created (st : State E) :
  let final := fst (ensureObsidianFolder st) in
  let issued := issued_after st final in
  let settled id :=
    snd (ensureObsidianFolder st) = inr tt /\
    obsidianFolderId (plugin final) = Some id /\
    drivefolderIds (plugin final) = js_set (drivefolderIds (plugin st)) "/" id in
  count_calls is_list_call issued = 1 /\
  (forall w first others,
     drive_files_list E (mkQuery "Obsidian Vault" None) (world st)
       = (w, inr (first :: others)) ->
     settled first /\ count_calls is_create_folder_call issued = 0) /\
  (forall w w' id,
     drive_files_list E (mkQuery "Obsidian Vault" None) (world st) = (w, inr []) ->
     drive_files_create E (CreateFolder "Obsidian Vault" []) w = (w', inr id) ->
     settled id /\ count_calls is_create_folder_call issued = 1) /\
  (forall e, snd (ensureObsidianFolder st) = inl e -> plugin final = plugin st).
Proof.
  intros final issued settled. subst final issued settled.
  rewrite ensureObsidianFolder_run. cbn zeta.
  destruct (drive_files_list E (mkQuery "Obsidian Vault" None) (world st))
    as [w [e|[|first others]]] eqn:Hlist.
  - cbn [fst snd]. erewrite issued_after_app; [|reflexivity].
    split; [done|]. split; [by intros ? ? ? [=]|]. split; [by intros ? ? ? [=]|].
    by intros.
  - destruct (drive_files_create E (CreateFolder "Obsidian Vault" []) w)
      as [w' [e|id]] eqn:Hcreate; cbn [fst snd];
      (erewrite issued_after_app; [|cbn; rewrite <- ?app_assoc; reflexivity]);
      (split; [done|]); (split; [by intros ? ? ? [=]|]).
    + split; [|by intros]. intros w0 w0' id0 [= <-] Hc.
      rewrite Hcreate in Hc. by injection Hc.
    + split; [|by intros ? [=]]. intros w0 w0' id0 [= <-] Hc.
      rewrite Hcreate in Hc. by injection Hc as <- <-.
  - cbn [fst snd]. erewrite issued_after_app; [|cbn; rewrite <- ?app_assoc; reflexivity].
    split; [done|]. split; [|split; [by intros ? ? ? [=]|by intros ? [=]]].
    by intros ? ? ? [= <- <- <-].
Qed.

End RootFolder.

(** ** Resolving a folder path again *)

Section ResolveAgain.

Context {E : Env}.

(** The key of the last segment, if there is a segment. *)
Lemma segment_paths_last part rest cur :
  last (segment_paths (part :: rest) cur)
  = match rest with
    | [] => Some (Path.join cur part)
    | _ => last (segment_paths rest (Path.join cur part))
    end.
Proof. by destruct rest. Qed.

Lemma segment_paths_last_some part rest cur :
  is_Some (last (segment_paths (part :: rest) cur)).
Proof.
  revert part cur. induction rest as [|r rest IH]; intros part cur; [by eexists|].
  rewrite segment_paths_last. apply IH.
Qed.

Lemma get_js_set_same (cache : gmap string string) key id :
  key <> "__proto__" -> Js.get (js_set cache key id) key = Js.Str id.
Proof.
  intros Hne. unfold js_set, Js.get.
  destruct (String.eqb_spec key "__proto__"); [done|]. by rewrite lookup_insert_eq.
Qed.

Lemma dom_js_set (cache : gmap string string) key id k :
  k ∈ dom cache -> k ∈ dom (js_set cache key id).
Proof.
  unfold js_set. destruct (String.eqb key "__proto__"); [done|].
  rewrite dom_insert. intros Hk. apply elem_of_union. by right.
Qed.

(** A key that passes the test of the loop is an own entry or a
    member of [Object.prototype]. *)
Lemma cached_present (cache : gmap string string) key :
  cached cache key = true -> key ∈ dom cache \/ key ∈ Js.prototype_members.
Proof.
  unfold cached, Js.get. destruct (cache !! key) eqn:Hk.
  - intros _. left. by apply elem_of_dom.
  - destruct (bool_decide_reflect (key ∈ Js.prototype_members)); [by right|done].
Qed.

Lemma present_cached (cache : gmap string string) key :
  map_Forall (fun _ id => id <> "") cache ->
  key ∈ dom cache \/ key ∈ Js.prototype_members -> cached cache key = true.
Proof.
  intros Hall Hkey. unfold cached, Js.get. destruct (cache !! key) as [id|] eqn:Hk.
  - simpl. specialize (Hall _ _ Hk). simpl in Hall. by destruct (String.eqb_spec id "").
  - destruct Hkey as [Hkey|Hkey]; [by apply not_elem_of_dom in Hk|].
    by rewrite bool_decide_eq_true_2.
Qed.

(** When the loop returns, every key it went through is an own entry
    of the cache or an inherited member, entries are never removed,
    and the value returned is what the cache holds for the last
    segment. *)
Lemma loop_leaves_keys_present parts : forall cur parent (st : State E) v,
  snd (ensureDriveFolder_loop parts cur parent st) = inr v ->
  let cache' := drivefolderIds (plugin (fst (ensureDriveFolder_loop parts cur parent st))) in
  map_Forall (fun _ id => id <> "") cache' ->
  dom (drivefolderIds (plugin st)) ⊆ dom cache' /\
  Forall (fun key => key ∈ dom cache' \/ key ∈ Js.prototype_members)
         (segment_paths parts cur) /\
  v = match last (segment_paths parts cur) with
      | Some key => Js.get cache' key
      | None => parent
      end.
Proof.
  induction parts as [|part rest IH]; intros cur parent st v.
  { simpl. intros [= <-] _. split; [done|]. split; [constructor|done]. }
  rewrite loop_step. cbn zeta.
  destruct (cached (drivefolderIds (plugin st)) (Path.join cur part)) eqn:Hc.
  { intros Hv Hall. destruct (IH _ _ _ _ Hv Hall) as (Hdom & Hkeys & Hlast).
    split; [done|]. split.
    - simpl. constructor; [|done].
      destruct (cached_present _ _ Hc) as [Hk|Hk]; [left; by apply Hdom|by right].
    - rewrite segment_paths_last. destruct rest as [|r rest].
      + simpl in Hv |- *. by injection Hv as <-.
      + destruct (segment_paths_last_some r rest (Path.join cur part)) as [key Hkey].
        by rewrite Hkey in Hlast |- *. }
  assert (Hround : forall id w evs,
    let s := cache_folder (Path.join cur part) id (after_call st w evs) in
    snd (ensureDriveFolder_loop rest (Path.join cur part) (Js.Str id) s) = inr v ->
    let cache' :=
      drivefolderIds (plugin (fst (ensureDriveFolder_loop rest (Path.join cur part)
                                     (Js.Str id) s))) in
    map_Forall (fun _ id => id <> "") cache' ->
    dom (drivefolderIds (plugin st)) ⊆ dom cache' /\
    Forall (fun key => key ∈ dom cache' \/ key ∈ Js.prototype_members)
           (segment_paths (part :: rest) cur) /\
    v = match last (segment_paths (part :: rest) cur) with
        | Some key => Js.get cache' key
        | None => parent
        end).
  { intros id w evs s Hv cache' Hall.
    destruct (IH _ _ _ _ Hv Hall) as (Hdom & Hkeys & Hlast). fold cache' in Hdom, Hkeys, Hlast.
    assert (Hsub : dom (drivefolderIds (plugin st)) ⊆ dom cache').
    { intros k Hk. apply Hdom. subst s. simpl. by apply dom_js_set. }
    assert (Hproto : Path.join cur part = "__proto__" ->
                     Path.join cur part ∈ dom (drivefolderIds (plugin st))).
    { intros Heq. unfold cached, Js.get in Hc. rewrite Heq in Hc |- *.
      destruct (drivefolderIds (plugin st) !! "__proto__") eqn:Hk;
        [by apply elem_of_dom|done]. }
    assert (Hkey : Path.join cur part ∈ dom cache').
    { destruct (decide (Path.join cur part = "__proto__")) as [Heq|Hne].
      - apply Hsub. by apply Hproto.
      - apply Hdom. subst s. simpl. unfold js_set.
        destruct (String.eqb_spec (Path.join cur part) "__proto__"); [done|].
        rewrite dom_insert. apply elem_of_union. left. by apply elem_of_singleton. }
    split; [done|]. split; [simpl; constructor; [by left|done]|].
    rewrite segment_paths_last. destruct rest as [|r rest].
    2: { destruct (segment_paths_last_some r rest (Path.join cur part)) as [key Hk].
         by rewrite Hk in Hlast |- *. }
    simpl in Hv. injection Hv as <-. subst cache' s. simpl in *.
    destruct (decide (Path.join cur part = "__proto__")) as [Heq|Hne].
    - exfalso. specialize (Hproto Heq). apply elem_of_dom in Hproto as [x Hx].
      unfold js_set in Hall. unfold cached, Js.get in Hc. rewrite Heq in *.
      rewrite Hx in Hc. simpl in Hc. specialize (Hall _ _ Hx). simpl in Hall.
      by destruct (String.eqb_spec x "").
    - by rewrite get_js_set_same. }
  destruct (drive_files_list E (mkQuery part (Some parent)) (world st))
    as [w [e|[|first others]]]; [done| |by apply Hround].
  destruct (drive_files_create E (CreateFolder part [parent]) w) as [w' [e|id]];
    [done|by apply Hround].
Qed.

(** When every segment passes the test of the loop, the loop returns
    at once with the value cached for the last one. *)
Lemma loop_all_cached parts : forall cur parent (st : State E),
  Forall (fun key => cached (drivefolderIds (plugin st)) key = true)
         (segment_paths parts cur) ->
  ensureDriveFolder_loop parts cur parent st =
  (st, inr match last (segment_paths parts cur) with
           | Some key => Js.get (drivefolderIds (plugin st)) key
           | None => parent
           end).
Proof.
  induction parts as [|part rest IH]; intros cur parent st Hall; [done|].
  rewrite loop_step. cbn zeta. cbn [segment_paths] in Hall.
  inversion Hall as [|? ? Hkey Hrest]; subst.
  rewrite Hkey, (IH _ _ _ Hrest), segment_paths_last. destruct rest as [|r rest]; [done|].
  by destruct (segment_paths_last_some r rest (Path.join cur part)) as [key ->].
Qed.

Lemma resolver_keeps_root folderPath (st : State E) :
  obsidianFolderId (plugin (fst (ensureDriveFolder folderPath st)))
  = obsidianFolderId (plugin st).
Proof.
  pose (R := fun s s' : State E =>
               obsidianFolderId (plugin s') = obsidianFolderId (plugin s)).
  assert (HR : PreOrder R).
  { split; [by intros s|]. intros a b c H1 H2. unfold R in *. congruence. }
  by apply (stable_ensureDriveFolder R).
Qed.

(** X17. Resolving a path that has just been resolved is silent: provided
    the cache holds no empty id, the second call returns the same
    folder id, issues no call and changes nothing. *)
Theorem resolving_again_is_silent
    (folderPath : string) (st st' : State E) (id : Js.Val) :
  ensureDriveFolder folderPath st = (st', inr id) ->
  map_Forall (fun _ v => v <> "") (drivefolderIds (plugin st')) ->
  ensureDriveFolder folderPath st' = (st', inr id).
Proof.
  intros Hrun Hall.
  pose proof (resolver_keeps_root folderPath st) as Hroot. rewrite Hrun in Hroot.
  unfold ensureDriveFolder, bind, gets in Hrun |- *. cbn [fst] in Hroot.
  rewrite Hroot.
  pose proof (loop_leaves_keys_present (pathParts_of folderPath) ""
                (of_nullable (obsidianFolderId (plugin st))) st id) as Hloop.
  rewrite Hrun in Hloop. cbn [fst snd] in Hloop.
  destruct (Hloop eq_refl Hall) as (_ & Hkeys & ->).
  apply loop_all_cached. eapply Forall_impl; [exact Hkeys|].
  intros key Hkey. by apply present_cached.
Qed.

End ResolveAgain.

(** ** Keys of the folder cache are relative paths *)

Section RelativeKeys.

Context {E : Env}.

Lemma no_slash_relative seg : has_slash seg = false -> Path.isAbsolute seg = false.
Proof.
  destruct seg as [|c seg]; [done|]. simpl. unfold Path.is_slash.
  by destruct (Ascii.eqb c "/").
Qed.

Lemma concat_relative l :
  Forall (fun seg => seg <> "" /\ has_slash seg = false) l ->
  Path.isAbsolute (String.concat "/" l) = false.
Proof.
  destruct 1 as [|x rest [Hne Hx] _]; [done|].
  destruct rest as [|y rest]; [by apply no_slash_relative|].
  rewrite concat_cons_cons, isAbsolute_append by done. by apply no_slash_relative.
Qed.

Lemma push_keeps_segments allow kept seg :
  has_slash seg = false ->
  Forall (fun seg => seg <> "" /\ has_slash seg = false) kept ->
  Forall (fun seg => seg <> "" /\ has_slash seg = false)
         (Path.push_segment allow kept seg).
Proof.
  intros Hseg Hkept. unfold Path.push_segment, Path.is_dot, Path.is_dotdot.
  destruct (String.eqb_spec seg ""); [done|].
  destruct (String.eqb_spec seg "."); [done|]. simpl.
  destruct (String.eqb_spec seg "..").
  - destruct kept as [|top below]; [destruct allow; by repeat constructor|].
    inversion Hkept; subst.
    destruct (String.eqb top ".."); [|done].
    destruct allow; [by constructor|done].
  - by constructor.
Qed.

Lemma fold_push_keeps_segments allow segs : forall kept,
  Forall (fun seg => has_slash seg = false) segs ->
  Forall (fun seg => seg <> "" /\ has_slash seg = false) kept ->
  Forall (fun seg => seg <> "" /\ has_slash seg = false)
         (fold_left (Path.push_segment allow) segs kept).
Proof.
  induction segs as [|seg segs IH]; intros kept Hsegs Hkept; [done|].
  inversion Hsegs; subst. simpl. apply IH; [done|]. by apply push_keeps_segments.
Qed.

Lemma normalize_relative p :
  Path.isAbsolute p = false -> Path.isAbsolute (Path.normalize p) = false.
Proof.
  intros Habs. unfold Path.normalize. destruct (String.eqb p ""); [done|].
  rewrite Habs. cbn [negb].
  assert (Hbody : Path.isAbsolute (Path.normalizeString p true) = false).
  { unfold Path.normalizeString. apply concat_relative, Forall_rev.
    apply fold_push_keeps_segments; [apply split_slash_no_slash|constructor]. }
  destruct (String.eqb_spec (Path.normalizeString p true) "") as [|Hne].
  { by destruct (Path.ends_with_slash p). }
  destruct (Path.ends_with_slash p); [|done].
  by rewrite isAbsolute_append.
Qed.

Lemma join_relative a b :
  Path.isAbsolute a = false -> Path.isAbsolute b = false ->
  Path.isAbsolute (Path.join a b) = false.
Proof.
  intros Ha Hb. unfold Path.join.
  destruct (String.eqb_spec a ""), (String.eqb_spec b ""); try done.
  - by apply normalize_relative.
  - by apply normalize_relative.
  - apply normalize_relative. by rewrite isAbsolute_append.
Qed.

Lemma pathParts_relative path :
  Forall (fun part => Path.isAbsolute part = false) (pathParts_of path).
Proof.
  unfold pathParts_of. pose proof (split_slash_no_slash path) as Hall.
  induction Hall as [|seg segs Hseg _ IH]; [constructor|]. simpl.
  destruct (0 <? String.length seg)%nat; [|done].
  constructor; [by apply no_slash_relative|done].
Qed.

Lemma same_but_after_call (s1 s2 : State E) w evs :
  same_but_absolute_keys s1 s2 ->
  same_but_absolute_keys (after_call s1 w evs) (after_call s2 w evs).
Proof.
  intros (Hs & Hr & Hf & Hw & Hd & He & Hk). unfold after_call.
  repeat split; simpl; try done. by rewrite He.
Qed.

Lemma same_but_cache_folder (s1 s2 : State E) key id :
  same_but_absolute_keys s1 s2 ->
  same_but_absolute_keys (cache_folder key id s1) (cache_folder key id s2).
Proof.
  intros (Hs & Hr & Hf & Hw & Hd & He & Hk). unfold cache_folder, js_set.
  repeat split; simpl; try done. intros k Hrel.
  destruct (String.eqb key "__proto__"); [by apply Hk|].
  destruct (decide (key = k)) as [->|Hne].
  - by rewrite !lookup_insert_eq.
  - rewrite !lookup_insert_ne by done. by apply Hk.
Qed.

Lemma loop_ignores_absolute_keys parts : forall cur parent (s1 s2 : State E),
  Forall (fun part => Path.isAbsolute part = false) parts ->
  Path.isAbsolute cur = false ->
  same_but_absolute_keys s1 s2 ->
  snd (ensureDriveFolder_loop parts cur parent s2)
    = snd (ensureDriveFolder_loop parts cur parent s1) /\
  same_but_absolute_keys (fst (ensureDriveFolder_loop parts cur parent s1))
                         (fst (ensureDriveFolder_loop parts cur parent s2)).
Proof.
  induction parts as [|part rest IH]; intros cur parent s1 s2 Hparts Hcur Hsame; [done|].
  inversion Hparts as [|? ? Hpart Hrest]; subst.
  pose proof (join_relative _ _ Hcur Hpart) as Hkey.
  rewrite !loop_step. cbn zeta.
  pose proof Hsame as (_ & _ & _ & Hw & _ & _ & Hk).
  assert (Hget : Js.get (drivefolderIds (plugin s2)) (Path.join cur part)
                 = Js.get (drivefolderIds (plugin s1)) (Path.join cur part)).
  { unfold Js.get. by rewrite (Hk _ Hkey). }
  unfold cached. rewrite Hget, Hw.
  destruct (Js.truthy (Js.get (drivefolderIds (plugin s1)) (Path.join cur part))).
  { by apply IH. }
  destruct (drive_files_list E (mkQuery part (Some parent)) (world s1))
    as [w [e|[|first others]]].
  - split; [done|]. by apply same_but_after_call.
  - destruct (drive_files_create E (CreateFolder part [parent]) w) as [w' [e|id]].
    + split; [done|]. by apply same_but_after_call.
    + apply IH; [done..|]. by apply same_but_cache_folder, same_but_after_call.
  - apply IH; [done..|]. by apply same_but_cache_folder, same_but_after_call.
Qed.

(** X18. The resolver builds its cache keys from the empty path, so every
    key it reads or writes is a relative path.  An entry under an
    absolute key, such as the one [ensureObsidianFolder] writes under
    "/", is never looked at: with or without it the resolver issues
    the same calls and returns the same folder. *)
Theorem resolver_never_reads_absolute_keys
    (folderPath key id : string) (st : State E) :
  Path.isAbsolute key = true ->
  let st' := cache_folder key id st in
  snd (ensureDriveFolder folderPath st') = snd (ensureDriveFolder folderPath st) /\
  same_but_absolute_keys (fst (ensureDriveFolder folderPath st))
                         (fst (ensureDriveFolder folderPath st')) /\
  Forall (fun k => Path.isAbsolute k = false)
         (segment_paths (pathParts_of folderPath) "").
Proof.
  intros Habs st'.
  assert (Hsame : same_but_absolute_keys st st').
  { subst st'. unfold cache_folder, js_set. repeat split; simpl; try done.
    intros k Hk. destruct (String.eqb key "__proto__"); [done|].
    rewrite lookup_insert_ne; [done|]. intros ->. congruence. }
  split; [|split].
  - unfold ensureDriveFolder, bind, gets. cbn [plugin cache_folder with_plugin
      obsidianFolderId set_drivefolderIds st'].
    by apply loop_ignores_absolute_keys; [apply pathParts_relative| |].
  - unfold ensureDriveFolder, bind, gets. cbn [plugin cache_folder with_plugin
      obsidianFolderId set_drivefolderIds st'].
    by apply loop_ignores_absolute_keys; [apply pathParts_relative| |].
  - pose proof (pathParts_relative folderPath) as Hparts.
    assert (Hgen : forall parts cur,
      Forall (fun part => Path.isAbsolute part = false) parts ->
      Path.isAbsolute cur = false ->
      Forall (fun k => Path.isAbsolute k = false) (segment_paths parts cur)).
    { induction parts as [|part rest IH]; intros cur Hall Hcur; [constructor|].
      inversion Hall; subst. simpl.
      constructor; [by apply join_relative|]. apply IH; [done|by apply join_relative]. }
    by apply Hgen.
Qed.

End RelativeKeys.

(** ** The paths the walk builds and the uploader takes apart *)

Section RootedPaths.

Lemma plain_snoc parts n : Forall plain parts -> plain n -> Forall plain (parts ++ [n]).
Proof. intros Hparts Hn. apply Forall_app. split; [done|]. by constructor. Qed.

Lemma list_ascii_of_string_app a b :
  list_ascii_of_string (a +:+ b) = list_ascii_of_string a ++ list_ascii_of_string b.
Proof.
  induction a as [|c a IH]; [done|]. rewrite append_cons. simpl. by rewrite IH.
Qed.

Lemma no_slash_chars s :
  has_slash s = false ->
  Forall (fun c => Path.is_slash c = false) (list_ascii_of_string s).
Proof.
  induction s as [|c s IH]; [constructor|]. simpl.
  destruct (Path.is_slash c) eqn:Hc; [done|]. intros Hs. constructor; [done|by apply IH].
Qed.

Lemma drop_while_stops (p : ascii -> bool) a x b :
  Forall (fun c => p c = true) a -> p x = false ->
  Path.drop_while p (a ++ x :: b) = x :: b.
Proof.
  intros Ha Hx. induction Ha as [|c a Hc _ IH]; simpl; [by rewrite Hx|by rewrite Hc].
Qed.

Lemma drop_while_all (p : ascii -> bool) a :
  Forall (fun c => p c = true) a -> Path.drop_while p a = [].
Proof. induction 1 as [|c a Hc _ IH]; simpl; [done|by rewrite Hc]. Qed.

Lemma drop_while_none (p : ascii -> bool) x a : p x = false -> Path.drop_while p (x :: a) = x :: a.
Proof. intros Hx. simpl. by rewrite Hx. Qed.

Lemma take_while_stops (p : ascii -> bool) a x b :
  Forall (fun c => p c = true) a -> p x = false ->
  Path.take_while p (a ++ x :: b) = a.
Proof.
  intros Ha Hx. induction Ha as [|c a Hc _ IH]; simpl; [by rewrite Hx|].
  by rewrite Hc, IH.
Qed.

(** The characters of a plain name, last one first: none is a
    separator, and there is a first one. *)
Lemma plain_rev_chars n :
  plain n ->
  exists c rest,
    rev (list_ascii_of_string n) = c :: rest /\
    Path.is_slash c = false /\
    Forall (fun c => negb (Path.is_slash c) = true) (c :: rest).
Proof.
  intros (Hne & Hslash & _).
  pose proof (no_slash_chars _ Hslash) as Hall.
  apply Forall_rev in Hall.
  destruct (rev (list_ascii_of_string n)) as [|c rest] eqn:Hrev.
  { apply (f_equal (@rev ascii)) in Hrev. rewrite rev_involutive in Hrev. simpl in Hrev.
    destruct n; [done|discriminate Hrev]. }
  exists c, rest. split; [done|]. inversion Hall as [|? ? Hc Hrest]; subst.
  split; [done|]. eapply Forall_impl; [exact Hall|]. intros x Hx. simpl in Hx. by rewrite Hx.
Qed.

Lemma basename_after_slash pre n : plain n -> Path.basename (pre +:+ String "/" n) = n.
Proof.
  intros Hn. destruct (plain_rev_chars n Hn) as (c & rest & Hrev & Hc & Hall).
  unfold Path.basename. rewrite list_ascii_of_string_app. simpl.
  rewrite rev_app_distr. simpl. rewrite <- app_assoc. simpl. rewrite Hrev.
  change ((c :: rest) ++ "/"%char :: rev (list_ascii_of_string pre))
    with (c :: (rest ++ "/"%char :: rev (list_ascii_of_string pre))).
  rewrite (drop_while_none _ _ _ Hc).
  change (c :: (rest ++ "/"%char :: rev (list_ascii_of_string pre)))
    with ((c :: rest) ++ "/"%char :: rev (list_ascii_of_string pre)).
  rewrite (take_while_stops _ _ _ _ Hall) by done.
  rewrite <- Hrev, rev_involutive. apply string_of_list_ascii_of_string.
Qed.

Lemma dirname_after_slash k n :
  k <> "" -> plain n ->
  Path.dirname (String "/" k +:+ String "/" n) = String "/" k.
Proof.
  intros Hk Hn. destruct (plain_rev_chars n Hn) as (c & rest & Hrev & Hc & Hall).
  unfold Path.dirname. rewrite append_cons. simpl.
  rewrite list_ascii_of_string_app. simpl.
  rewrite rev_app_distr. simpl. rewrite <- app_assoc. simpl. rewrite Hrev.
  change ((c :: rest) ++ "/"%char :: rev (list_ascii_of_string k))
    with (c :: (rest ++ "/"%char :: rev (list_ascii_of_string k))).
  rewrite (drop_while_none _ _ _ Hc).
  change (c :: (rest ++ "/"%char :: rev (list_ascii_of_string k)))
    with ((c :: rest) ++ "/"%char :: rev (list_ascii_of_string k)).
  rewrite (drop_while_stops _ _ _ _ Hall) by done.
  assert (Hlen : (length (rev (list_ascii_of_string k)) =? 0)%nat = false).
  { rewrite length_rev. destruct k; [done|reflexivity]. }
  rewrite Hlen.
  by rewrite rev_involutive, string_of_list_ascii_of_string.
Qed.

Lemma dirname_of_top_level n : plain n -> Path.dirname (String "/" n) = "/".
Proof.
  intros Hn. destruct (plain_rev_chars n Hn) as (c & rest & Hrev & Hc & Hall).
  unfold Path.dirname. simpl. rewrite Hrev.
  rewrite (drop_while_none _ _ _ Hc), (drop_while_all _ _ Hall). done.
Qed.

Lemma normalize_rooted ps :
  ps <> [] -> Forall plain ps ->
  Path.normalize ("/" +:+ key_of ps) = "/" +:+ key_of ps.
Proof.
  intros Hne Hall. pose proof (key_of_nonempty _ Hne Hall) as Hkey.
  unfold Path.normalize.
  change ("/" +:+ key_of ps) with (String "/" (key_of ps)). cbn [String.eqb Path.isAbsolute].
  rewrite Ascii.eqb_refl. cbn [negb].
  assert (Hbody : Path.normalizeString (String "/" (key_of ps)) false = key_of ps).
  { unfold Path.normalizeString. cbn [Js.split_slash]. rewrite Ascii.eqb_refl.
    rewrite split_key_of by (done || by apply plain_no_slash).
    cbn [fold_left]. change (Path.push_segment false [] "") with (@nil string).
    by rewrite fold_push_plain, app_nil_r, rev_involutive. }
  rewrite Hbody. destruct (String.eqb_spec (key_of ps) ""); [done|].
  assert (Htrail : Path.ends_with_slash (String "/" (key_of ps)) = false).
  { change (String "/" (key_of ps)) with ("/" +:+ key_of ps).
    rewrite ends_with_slash_append by done. by apply key_of_no_trailing. }
  by rewrite Htrail.
Qed.

(** The current path of the walk below the folders [parts], joined
    with a name. *)
Lemma join_rooted parts n :
  Forall plain parts -> plain n ->
  Path.join ("/" +:+ key_of parts) n = "/" +:+ key_of (parts ++ [n]).
Proof.
  intros Hparts Hn. pose proof Hn as (Hne & _).
  pose proof (plain_snoc _ _ Hparts Hn) as Hall.
  unfold Path.join.
  change ("/" +:+ key_of parts) with (String "/" (key_of parts)). cbn [String.eqb].
  destruct (String.eqb_spec n ""); [done|].
  destruct parts as [|p parts].
  - change (String "/" (key_of []) +:+ "/" +:+ n) with ("/" +:+ String "/" n).
    change (key_of ([] ++ [n])) with n.
    pose proof Hn as (_ & Hslash & _).
    unfold Path.normalize.
    change ("/" +:+ String "/" n) with (String "/" (String "/" n)).
    cbn [String.eqb Path.isAbsolute]. rewrite Ascii.eqb_refl. cbn [negb].
    assert (Hbody : Path.normalizeString (String "/" (String "/" n)) false = n).
    { unfold Path.normalizeString. cbn [Js.split_slash]. rewrite Ascii.eqb_refl.
      rewrite (split_slash_single _ Hslash). cbn [fold_left].
      change (Path.push_segment false [] "") with (@nil string).
      by rewrite (plain_push _ _ _ Hn). }
    rewrite Hbody. destruct (String.eqb_spec n ""); [done|].
    assert (Htrail : Path.ends_with_slash (String "/" (String "/" n)) = false).
    { change (String "/" (String "/" n)) with ("//" +:+ n).
      rewrite ends_with_slash_append by done. by apply no_slash_no_trailing. }
    by rewrite Htrail.
  - change (String "/" (key_of (p :: parts)) +:+ "/" +:+ n)
      with ("/" +:+ (key_of (p :: parts) +:+ "/" +:+ n)).
    rewrite <- key_of_snoc by done. by apply normalize_rooted; [destruct parts|].
Qed.

Lemma dirname_rooted parts n :
  Forall plain parts -> plain n ->
  Path.dirname ("/" +:+ key_of (parts ++ [n])) = "/" +:+ key_of parts.
Proof.
  intros Hparts Hn. destruct parts as [|p parts].
  - change ("/" +:+ key_of ([] ++ [n])) with (String "/" n). by apply dirname_of_top_level.
  - rewrite key_of_snoc by done.
    change ("/" +:+ key_of (p :: parts) +:+ "/" +:+ n)
      with (String "/" (key_of (p :: parts)) +:+ String "/" n).
    apply dirname_after_slash; [|done]. by apply key_of_nonempty.
Qed.

Lemma basename_rooted parts n :
  Forall plain parts -> plain n ->
  Path.basename ("/" +:+ key_of (parts ++ [n])) = n.
Proof.
  intros Hparts Hn. destruct parts as [|p parts].
  - change ("/" +:+ key_of ([] ++ [n])) with ("" +:+ String "/" n).
    by apply basename_after_slash.
  - rewrite key_of_snoc by done.
    change ("/" +:+ key_of (p :: parts) +:+ "/" +:+ n)
      with (String "/" (key_of (p :: parts)) +:+ String "/" n).
    by apply basename_after_slash.
Qed.

(** X20. The walk joins, the uploader and the resolver split: below the
    folders [parts] the walk's current path is "/" followed by the
    segments; joining a plain name to it and taking [dirname] and
    [basename] of the result gives back the current path and the
    name, and the resolver recovers exactly the segments, for the file
    (through its parent path) and for a sub-folder of that name. *)
Theorem uploader_splits_what_the_walk_joined (parts : list string) (n : string) :
  Forall plain parts -> plain n ->
  let currentPath := "/" +:+ key_of parts in
  let joined := Path.join currentPath n in
  joined = "/" +:+ key_of (parts ++ [n]) /\
  Path.isAbsolute joined = true /\
  Path.dirname joined = currentPath /\
  Path.basename joined = n /\
  pathParts_of (Path.dirname joined) = parts /\
  pathParts_of joined = parts ++ [n].
Proof.
  intros Hparts Hn currentPath joined. subst currentPath joined.
  pose proof (plain_snoc _ _ Hparts Hn) as Hall.
  rewrite (join_rooted _ _ Hparts Hn).
  rewrite (dirname_rooted _ _ Hparts Hn), (basename_rooted _ _ Hparts Hn).
  rewrite !pathParts_of_rooted by done. done.
Qed.

End RootedPaths.

Section RootLevel.

Context {E : Env}.

(** X21. A file directly under the vault root needs no folder call: its
    parent path is "/", which has no segment, so the resolver returns
    the root id at once and the only remote call is the one for the
    file, with the root folder as parent. *)
Theorem root_level_file_needs_no_folder_call
    (n : string) (content : Content) (mimeType : string) (st : State E) :
  plain n ->
  let filePath := Path.join "/" n in
  let root := of_nullable (obsidianFolderId (plugin st)) in
  let issued := issued_after st (fst (uploadFile filePath content mimeType st)) in
  ensureDriveFolder (Path.dirname filePath) st = (st, inr root) /\
  count_calls is_list_call issued = 0 /\
  count_calls is_create_folder_call issued = 0 /\
  List.filter is_remote_call issued = [file_request filePath content mimeType root st] /\
  Forall (fun ev => forall r, ev = EvCreate r ->
                    r = CreateFile n [root] mimeType content) issued.
Proof.
  intros Hn filePath root issued.
  assert (Hpath : filePath = String "/" n).
  { subst filePath. change "/" with ("/" +:+ key_of []) at 1.
    by rewrite (join_rooted [] n). }
  assert (Hres : ensureDriveFolder (Path.dirname filePath) st = (st, inr root)).
  { by rewrite Hpath, (dirname_of_top_level _ Hn). }
  assert (Hbase : Path.basename filePath = n).
  { rewrite Hpath. change (String "/" n) with ("" +:+ String "/" n).
    by apply basename_after_slash. }
  split; [exact Hres|]. subst issued.
  rewrite (uploadFile_run _ _ _ _ _ _ Hres).
  unfold file_answer, file_request, file_logged, upload_error. rewrite Hbase.
  destruct (Js.truthy (Js.read (fileIds (plugin st)) filePath));
    match goal with
    | |- context [drive_files_update E ?r ?w] =>
        destruct (drive_files_update E r w) as [w' [e|id]]
    | |- context [drive_files_create E ?r ?w] =>
        destruct (drive_files_create E r w) as [w' [e|id]]
    end;
    (erewrite issued_after_app; [|reflexivity]);
    (repeat split; try done);
    repeat constructor; by intros ? [= <-].
Qed.

End RootLevel.

Section InheritedMembers.

Context {E : Env}.

Lemma prototype_members_plain n : n ∈ Js.prototype_members -> plain n.
Proof.
  intros Hin. unfold Js.prototype_members in Hin.
  repeat (apply elem_of_cons in Hin as [->|Hin];
          [unfold plain; repeat split; discriminate|]).
  by apply elem_of_nil in Hin.
Qed.

(** X19. A top-level folder named like a member of [Object.prototype]
    ("constructor", "toString", "valueOf", ...) is never looked up or
    created: the cache is an object literal, the test of the resolver
    reads the inherited member, which is truthy, and the resolver
    returns it as the folder id without asking the store.  A file in
    such a folder is then uploaded with that member as its parent. *)
Theorem prototype_member_folder_is_never_created
    (n : string) (children : list TAbstractFile) (st : State E) :
  n ∈ Js.prototype_members ->
  drivefolderIds (plugin st) !! n = None ->
  ensureDriveFolder (Path.join "/" n) st = (st, inr (Js.Inherited n)) /\
  uploadFolderContents [Folder n children] "/" st
  = uploadFolderContents children (Path.join "/" n) st /\
  forall fileName,
    plain fileName ->
    ensureDriveFolder (Path.dirname (Path.join (Path.join "/" n) fileName)) st
    = (st, inr (Js.Inherited n)).
Proof.
  intros Hin Hnone. pose proof (prototype_members_plain n Hin) as Hn.
  assert (Hparts : Forall plain [n]) by (by constructor).
  assert (Hjoin : Path.join "/" n = "/" +:+ key_of [n]).
  { change "/" with ("/" +:+ key_of []) at 1. by rewrite (join_rooted [] n). }
  assert (Hres : ensureDriveFolder ("/" +:+ key_of [n]) st = (st, inr (Js.Inherited n))).
  { unfold ensureDriveFolder, bind, gets.
    rewrite (pathParts_of_rooted [n]) by done.
    rewrite loop_step. cbn zeta.
    change "" with (key_of []) at 1 2 3. rewrite (join_key_of [] n) by done.
    change (key_of ([] ++ [n])) with n.
    unfold cached, Js.get. rewrite Hnone, bool_decide_eq_true_2 by done.
    reflexivity. }
  split; [by rewrite Hjoin|]. split.
  - rewrite uploadFolderContents_cons, uploadItem_folder. unfold bind.
    rewrite Hjoin, Hres. by destruct (uploadFolderContents children _ st) as [s [e|[]]].
  - intros fileName Hname.
    rewrite Hjoin, (join_rooted [n] fileName) by done.
    by rewrite (dirname_rooted [n] fileName).
Qed.

End InheritedMembers.

(** ** Reading and uploading during the walk *)

Section WalkFacts.

Context {E : Env}.

(** X22. Markdown and JSON files are read as text, every other file as
    binary, whatever the case of the extension; the plugin fields are
    not touched by the read. *)
Theorem only_markdown_and_json_are_read_as_text (f : TFile) (st : State E) :
  let after := fst (read_content f (getMimeType (extension f)) st) in
  issued_after st after
    = [if bool_decide (Js.toLowerCase (extension f) ∈ ["md"; "json"])
       then EvRead f else EvReadBinary f] /\
  plugin after = plugin st /\ disk after = disk st.
Proof.
  intros after. subst after.
  destruct (read_content_run f (getMimeType (extension f)) st) as (w & r & ->).
  cbn [fst]. erewrite issued_after_app; [|reflexivity].
  split; [|done]. f_equal. unfold getMimeType.
  repeat match goal with
         | |- context [String.eqb (Js.toLowerCase (extension f)) ?b] =>
             destruct (String.eqb_spec (Js.toLowerCase (extension f)) b) as [->|?]
         end; try reflexivity.
  rewrite bool_decide_eq_false_2; [done|]. intros Hin.
  repeat (apply elem_of_cons in Hin as [Hin|Hin]; [done|]). by apply elem_of_nil in Hin.
Qed.

(** X23. A vault read that fails is not caught per file: it leaves
    [uploadObsidianFile] and the walk as an exception before any
    remote call is issued, with the plugin fields as they were, and
    the items that follow are not visited. *)
Theorem failed_read_aborts_walk
    (f : TFile) (rest : list TAbstractFile) (cur : string) (st sr : State E) (e : Exn) :
  not_modified f (lastSyncTimestamp (settings (plugin st))) = false ->
  read_content f (getMimeType (extension f)) st = (sr, inl e) ->
  uploadObsidianFile f cur st = (sr, inl e) /\
  uploadFolderContents (File f :: rest) cur st = (sr, inl e) /\
  issued_after st sr = [read_event f] /\
  plugin sr = plugin st.
Proof.
  intros Hmod Hread.
  assert (Hfile : uploadObsidianFile f cur st = (sr, inl e)).
  { unfold uploadObsidianFile, bind at 1, gets at 1. rewrite Hmod.
    unfold upload_and_record. by rewrite (bind_throws _ _ _ _ _ Hread). }
  split; [exact Hfile|]. split.
  { rewrite uploadFolderContents_cons. by apply bind_throws. }
  destruct (read_content_run f (getMimeType (extension f)) st) as (w & r & Hrun).
  rewrite Hread in Hrun. injection Hrun as -> _.
  split; [|done]. erewrite issued_after_app; [|reflexivity]. done.
Qed.

(** X24. A failed update is never turned into a create: the error is
    caught, the id stays on record, and the next upload of the path
    issues an update of the same id again. *)
Theorem failed_update_is_retried_as_update
    (filePath : string) (content : Content) (mimeType : string)
    (st sf : State E) (parentId : Js.Val) (id : string) (w : World E) (e : Exn) :
  Path.isAbsolute filePath = true ->
  fileIds (plugin st) !! filePath = Some (Js.Str id) -> id <> "" ->
  ensureDriveFolder (Path.dirname filePath) st = (sf, inr parentId) ->
  drive_files_update E
    (mkUpdate (Js.Str id) (Path.basename filePath) [parentId] mimeType content) (world sf)
    = (w, inl e) ->
  let final := fst (uploadFile filePath content mimeType st) in
  snd (uploadFile filePath content mimeType st) = inr None /\
  List.filter is_remote_call (issued_after sf final)
    = [EvUpdate (mkUpdate (Js.Str id) (Path.basename filePath) [parentId] mimeType content)] /\
  fileIds (plugin final) = fileIds (plugin st) /\
  forall content' sf' parentId',
    ensureDriveFolder (Path.dirname filePath) final = (sf', inr parentId') ->
    file_request filePath content' mimeType parentId' sf'
    = EvUpdate (mkUpdate (Js.Str id) (Path.basename filePath) [parentId'] mimeType content').
Proof.
  intros Habs Hid Hne Hres Hfail final. subst final.
  assert (Hsame : forall (s s' : State E) (p : Js.Val),
    ensureDriveFolder (Path.dirname filePath) s = (s', inr p) ->
    fileIds (plugin s') = fileIds (plugin s)).
  { intros s s' p Hs. pose proof (resolver_keeps_fileIds (Path.dirname filePath) s) as H.
    by rewrite Hs in H. }
  pose proof (Hsame _ _ _ Hres) as Hsf.
  rewrite (uploadFile_run _ _ _ _ _ _ Hres).
  unfold file_answer, file_request. rewrite Hsf.
  destruct (get_known _ _ _ Hid Hne) as [Hget Htruthy]. rewrite Hget in Htruthy.
  rewrite Hget, Htruthy, Hfail.
  cbn [fst snd]. split; [done|].
  split; [erewrite issued_after_app; [|reflexivity]; done|].
  split; [done|]. intros content' sf' parentId' Hres'.
  rewrite (Hsame _ _ _ Hres'). cbn [plugin after_call]. rewrite Hsf.
  by rewrite Hget, Htruthy.
Qed.

End WalkFacts.


(** ** Which files a walk reads and uploads *)

Section WalkReads.

Context {E : Env}.

Lemma modified_files_app last (fs1 fs2 : list TFile) :
  modified_files last (fs1 ++ fs2) = modified_files last fs1 ++ modified_files last fs2.
Proof. unfold modified_files. apply List.filter_app. Qed.

Lemma filter_read_app (a b : list Event) :
  List.filter is_read (a ++ b) = List.filter is_read a ++ List.filter is_read b.
Proof. apply List.filter_app. Qed.

Lemma count_calls_app p (a b : list Event) :
  count_calls p (a ++ b) = count_calls p a + count_calls p b.
Proof. unfold count_calls. by rewrite List.filter_app, length_app. Qed.

Lemma folder_calls_no_reads (evs : list Event) :
  Forall folder_call evs ->
  List.filter is_read evs = [] /\ count_calls is_file_call evs = 0.
Proof.
  induction 1 as [|ev evs Hev _ [IH1 IH2]]; [done|].
  unfold count_calls in *. destruct ev as [| | [] | | | | | | | | |];
    try (by vm_compute in Hev); simpl; by rewrite ?IH1, ?IH2.
Qed.

Lemma reads_ret {A} (a : A) : reads_files (E:=E) (ret a) [].
Proof.
  intros st. split; [reflexivity|]. exists []. simpl. rewrite app_nil_r.
  split; [done|]. split; [done|]. by intros.
Qed.

Lemma reads_bind {A B} (m1 : M E A) (m2 : A -> M E B) fs1 fs2 :
  reads_files m1 fs1 -> (forall a, reads_files (m2 a) fs2) ->
  reads_files (bind m1 m2) (fs1 ++ fs2).
Proof.
  intros H1 H2 st. cbn zeta. rewrite modified_files_app, map_app.
  destruct (H1 st) as (Hs1 & evs1 & Hev1 & Hpre1 & Hret1). cbn zeta in *.
  unfold bind. destruct (m1 st) as [s1 [e|a]]; cbn [fst snd] in *.
  { split; [done|]. exists evs1. split; [done|].
    split; [by apply prefix_app_r|]. by intros. }
  destruct (H2 a s1) as (Hs2 & evs2 & Hev2 & Hpre2 & Hret2). cbn zeta in *.
  pose proof Hs1 as [Hset1 _]. rewrite Hset1 in Hpre2, Hret2.
  destruct (Hret1 a eq_refl) as [Hreads1 Hcount1].
  split; [etrans; [exact Hs1|exact Hs2]|]. exists (evs1 ++ evs2).
  split; [by rewrite Hev2, Hev1, app_assoc|].
  rewrite filter_read_app, Hreads1. split; [by apply prefix_app|].
  intros b Hb. destruct (Hret2 b Hb) as [Hreads2 Hcount2].
  by rewrite Hreads2, count_calls_app, Hcount1, Hcount2, length_app.
Qed.

Lemma reads_resolver folderPath : reads_files (E:=E) (ensureDriveFolder folderPath) [].
Proof.
  intros st. split; [apply resolver_keeps_settings|].
  destruct (ensureDriveFolder_calls folderPath st) as (evs & Hev & Hall & _).
  destruct (folder_calls_no_reads _ Hall) as [Hreads Hcount].
  exists evs. split; [done|]. rewrite Hreads. split; [done|]. by intros.
Qed.

Lemma is_read_read_event f : is_read (read_event f) = true.
Proof. unfold read_event. by destruct (_ || _). Qed.

Lemma reads_uploadObsidianFile f cur : reads_files (E:=E) (uploadObsidianFile f cur) [f].
Proof.
  intros st. cbn zeta. split.
  { apply stable_uploadObsidianFile; try apply _; intros; by split. }
  unfold modified_files. cbn [List.filter].
  remember (uploadObsidianFile f cur st) as res eqn:Hrun.
  unfold uploadObsidianFile, bind at 1, gets at 1 in Hrun.
  destruct (not_modified f (lastSyncTimestamp (settings (plugin st)))) eqn:Hmod.
  { subst res. eexists. split; [reflexivity|]. split; [done|]. by intros. }
  cbn [negb map].
  set (path := Path.join cur (name f)) in *.
  set (mime := getMimeType (extension f)) in *.
  unfold upload_and_record in Hrun.
  destruct (read_content_run f mime st) as (w & r & Hread).
  fold (read_event f) in Hread.
  unfold bind at 1 in Hrun. rewrite Hread in Hrun.
  destruct r as [e|content].
  { subst res. exists [read_event f]. split; [done|]. cbn [List.filter].
    rewrite is_read_read_event. split; [done|]. by intros. }
  set (sr := after_call st w [read_event f]) in *.
  destruct (ensureDriveFolder_calls (Path.dirname path) sr) as (evs & Hev & Hall & _).
  destruct (folder_calls_no_reads _ Hall) as [Hreads Hcount].
  destruct (ensureDriveFolder (Path.dirname path) sr) as [sf [e|parentId]] eqn:Hres.
  { unfold bind in Hrun. rewrite (uploadFile_resolver_throws _ _ _ _ _ _ Hres) in Hrun.
    subst res. exists (read_event f :: evs). cbn [fst snd] in *. rewrite Hev.
    split; [subst sr; cbn; by rewrite <- app_assoc|].
    cbn [List.filter]. rewrite is_read_read_event, Hreads. split; [done|]. by intros. }
  unfold bind in Hrun. rewrite (uploadFile_run _ _ _ _ _ _ Hres) in Hrun.
  cbn [fst] in Hev.
  assert (Hreq : forall c p (s : State E),
    is_file_call (file_request path c mime p s) = true /\
    is_read (file_request path c mime p s) = false).
  { intros c p s. unfold file_request. by destruct (Js.truthy _). }
  assert (Hlog : forall (s : State E) id,
    is_file_call (file_logged path s id) = false /\
    is_read (file_logged path s id) = false).
  { intros s id. unfold file_logged. by destruct (Js.truthy _). }
  assert (Hfirst : is_file_call (read_event f) = false).
  { unfold read_event. by destruct (_ || _). }
  destruct (file_answer path content mime parentId sf) as [w' [e|id]].
  - subst res.
    exists (read_event f :: evs ++ [file_request path content mime parentId sf;
                                     upload_error path e]).
    unfold ret. cbn [fst snd of_nullable Js.truthy after_call events]. rewrite Hev.
    split; [subst sr; cbn; by rewrite <- !app_assoc|].
    cbn [List.filter]. rewrite is_read_read_event, filter_read_app, Hreads.
    cbn [List.filter]. rewrite (proj2 (Hreq _ _ _)). cbn [is_read app upload_error].
    split; [done|]. intros _ _. split; [done|].
    change (read_event f :: evs ++ ?l) with ([read_event f] ++ evs ++ l).
    rewrite !count_calls_app, Hcount. unfold count_calls. cbn [List.filter].
    by rewrite (proj1 (Hreq _ _ _)), Hfirst.
  - exists (read_event f :: evs ++ [file_request path content mime parentId sf;
                                     file_logged path sf id]).
    assert (Hev' : events (fst res) =
      events st ++ read_event f :: evs ++
        [file_request path content mime parentId sf; file_logged path sf id]).
    { subst res. cbn [of_nullable Js.truthy]. destruct (negb (String.eqb id ""));
        unfold modify, ret; cbn [fst after_call events]; rewrite Hev; subst sr; cbn;
        by rewrite <- !app_assoc. }
    split; [exact Hev'|].
    cbn [List.filter]. rewrite is_read_read_event, filter_read_app, Hreads.
    cbn [List.filter]. rewrite (proj2 (Hreq _ _ _)), (proj2 (Hlog _ _)). cbn [app].
    split; [done|]. intros _ _. split; [done|].
    change (read_event f :: evs ++ ?l) with ([read_event f] ++ evs ++ l).
    rewrite !count_calls_app, Hcount. unfold count_calls. cbn [List.filter].
    by rewrite (proj1 (Hreq _ _ _)), (proj1 (Hlog _ _)), Hfirst.
Qed.

Lemma reads_for_of (body : TAbstractFile -> M E unit) items :
  Forall (fun item => reads_files (body item) (files_of_item item)) items ->
  reads_files (for_of body items) (files_of items).
Proof.
  induction 1 as [|item rest Hitem _ IH]; [apply reads_ret|].
  rewrite for_of_cons. unfold files_of. cbn [flat_map].
  apply reads_bind; [done|]. intros _. exact IH.
Qed.

Lemma reads_uploadItem item : forall cur,
  reads_files (E:=E) (uploadItem item cur) (files_of_item item).
Proof.
  induction item as [f|n children IH] using TAbstractFile_ind'; intros cur.
  - apply reads_uploadObsidianFile.
  - rewrite uploadItem_folder. cbn [files_of_item].
    change (flat_map files_of_item children) with ([] ++ files_of children).
    apply reads_bind; [apply reads_resolver|]. intros _.
    apply reads_for_of. eapply Forall_impl; [exact IH|]. intros item H. apply H.
Qed.

(** X26. The files a walk reads are the files the change detector lets
    through, in the order of the tree: a walk that returns has read
    every one of them once and issued exactly one create or update call
    for each; a walk that throws has read the first of them, up to the
    item that threw. *)
Theorem walk_reads_modified_files_in_order
    (children : list TAbstractFile) (cur : string) (st : State E) :
  let final := fst (uploadFolderContents children cur st) in
  let issued := issued_after st final in
  let expected :=
    map read_event
        (modified_files (lastSyncTimestamp (settings (plugin st))) (files_of children)) in
  List.filter is_read issued `prefix_of` expected /\
  (snd (uploadFolderContents children cur st) = inr tt ->
   List.filter is_read issued = expected /\
   count_calls is_file_call issued = length expected).
Proof.
  intros final issued expected. subst final issued expected.
  assert (H : reads_files (uploadFolderContents (E:=E) children cur) (files_of children)).
  { apply reads_for_of. apply Forall_forall. intros item _. apply reads_uploadItem. }
  destruct (H st) as (_ & evs & Hev & Hpre & Hret).
  rewrite (issued_after_app _ _ _ Hev). split; [done|]. apply Hret.
Qed.

End WalkReads.

(** ** Keys of the file-id map are absolute paths *)

Section AbsoluteKeys.

Context {E : Env}.

#[global] Instance records_absolute_preorder : PreOrder (records_absolute (E:=E)).
Proof.
  split.
  - intros st k Hk. by left.
  - intros a b c H1 H2 k Hk. destruct (H2 k Hk) as [Hb|Habs]; [|by right].
    by apply H1.
Qed.

Lemma absolute_same (st st' : State E) :
  fileIds (plugin st') = fileIds (plugin st) -> records_absolute st st'.
Proof. intros Heq k Hk. left. by rewrite <- Heq. Qed.

Lemma absolute_uploadObsidianFile f cur :
  Path.isAbsolute cur = true ->
  stable records_absolute (uploadObsidianFile (E:=E) f cur).
Proof.
  intros Habs. destruct (join_absolute cur (name f) Habs) as [Hpath _].
  unfold uploadObsidianFile.
  apply stable_bind; [apply _|apply stable_gets; apply _|]. intros last.
  destruct (not_modified f last).
  { intros st. by apply absolute_same. }
  unfold upload_and_record.
  apply stable_bind; [apply _| |intros content].
  { intros st. apply absolute_same. by rewrite read_keeps_plugin. }
  apply stable_bind; [apply _| |intros fileId].
  { apply stable_uploadFile; try apply _; intros; by apply absolute_same. }
  destruct (Js.truthy _); [|apply stable_ret; apply _].
  intros st k Hk. cbn in Hk. unfold js_write in Hk.
  destruct (String.eqb (Path.join cur (name f)) "__proto__"); [by left|].
  rewrite dom_insert in Hk. apply elem_of_union in Hk as [Hk|Hk]; [|by left].
  apply elem_of_singleton in Hk as ->. by right.
Qed.

Lemma absolute_uploadItem item : forall cur,
  Path.isAbsolute cur = true ->
  stable records_absolute (uploadItem (E:=E) item cur).
Proof.
  induction item as [f|n children IH] using TAbstractFile_ind'; intros cur Habs.
  - by apply absolute_uploadObsidianFile.
  - destruct (join_absolute cur n Habs) as [Habs' _].
    rewrite uploadItem_folder.
    apply stable_bind; [apply _| |intros _].
    { apply stable_ensureDriveFolder; try apply _; intros; by apply absolute_same. }
    apply stable_for_of; [apply _|].
    eapply Forall_impl; [exact IH|]. intros item H. by apply H.
Qed.

Lemma absolute_sync root : stable records_absolute (syncWithGoogleDrive (E:=E) root).
Proof.
  assert (Hsave : forall (m : M E unit),
    (forall st, fileIds (plugin (fst (m st))) = fileIds (plugin st)) ->
    stable records_absolute m).
  { intros m Hm st. by apply absolute_same. }
  unfold syncWithGoogleDrive, notice.
  apply stable_bind; [apply _|apply stable_gets; apply _|]. intros token.
  destruct (negb _); [intros st; by apply absolute_same|].
  apply stable_try_catch; [apply _| |].
  - apply stable_bind; [apply _|intros st; apply absolute_same;
                                unfold call; by destruct (oauth_getAccessToken _ _)|intros _].
    apply stable_bind; [apply _|by apply Hsave|intros _].
    apply stable_bind; [apply _|by apply Hsave|intros _].
    apply stable_bind; [apply _| |intros _].
    { apply stable_ensureObsidianFolder; try apply _; intros; by apply absolute_same. }
    apply stable_bind; [apply _| |intros _].
    { apply stable_for_of; [apply _|]. apply Forall_forall. intros item _.
      by apply absolute_uploadItem. }
    apply stable_bind; [apply _|intros st; apply absolute_same;
                                unfold call; by destruct (date_now _ _)|intros now].
    apply stable_bind; [apply _|by apply Hsave|intros _].
    apply stable_bind; [apply _| |intros _].
    { apply Hsave. intros st. unfold saveSettings, bind, call, gets, write_disk.
      by destruct (store_write E (world st)) as [w [e|[]]]. }
    apply stable_bind; [apply _| |intros _].
    { apply Hsave. intros st. unfold saveFileIds, bind, call, gets, write_disk.
      by destruct (store_write E (world st)) as [w [e|[]]]. }
    by apply Hsave.
  - intros e. by apply Hsave.
Qed.

(** X27. Every path a pass records in [fileIds] is an absolute path: the
    walk starts at "/" and joins names to it, so through any sequence
    of passes and unloads a key of [fileIds] that was not there before
    begins with the separator.  The folder cache, in contrast, is
    keyed by relative paths. *)
Theorem passes_record_absolute_keys (ops : list Op) (st : State E) (k : string) :
  k ∈ dom (fileIds (plugin (run_ops ops st))) ->
  k ∈ dom (fileIds (plugin st)) \/ Path.isAbsolute k = true.
Proof.
  revert k. change (records_absolute st (run_ops ops st)).
  revert st. induction ops as [|op ops IH]; intros st; [reflexivity|].
  simpl. etrans; [|apply IH]. destruct op as [root|]; simpl.
  - apply absolute_sync.
  - apply absolute_same. unfold onunload, saveFileIds, bind, call, gets, write_disk.
    by destruct (store_write E (world st)) as [w [e|[]]].
Qed.

End AbsoluteKeys.

(** ** What an upload records *)

Section Recording.

Context {E : Env}.

(** X30. When the create or update call of a file is answered,
    [uploadObsidianFile] returns and records the answered id under the
    joined path of the file, and changes no other entry of [fileIds];
    an empty id is not recorded at all. *)
Theorem answered_upload_records_the_id
    (f : TFile) (cur : string) (st sr sf : State E)
    (content : Content) (parentId : Js.Val) (w : World E) (id : string) :
  let path := Path.join cur (name f) in
  let mime := getMimeType (extension f) in
  Path.isAbsolute cur = true ->
  not_modified f (lastSyncTimestamp (settings (plugin st))) = false ->
  read_content f mime st = (sr, inr content) ->
  ensureDriveFolder (Path.dirname path) sr = (sf, inr parentId) ->
  file_answer path content mime parentId sf = (w, inr id) ->
  let final := fst (uploadObsidianFile f cur st) in
  snd (uploadObsidianFile f cur st) = inr tt /\
  (id <> "" -> fileIds (plugin final) = <[path := Js.Str id]> (fileIds (plugin st))) /\
  (id = "" -> fileIds (plugin final) = fileIds (plugin st)) /\
  settings (plugin final) = settings (plugin st) /\
  world final = w.
Proof.
  intros path mime Habs Hmod Hread Hres Hanswer final. subst final.
  rewrite (uploadObsidianFile_run _ _ _ _ _ _ _ Hmod Hread Hres).
  fold path mime. rewrite Hanswer. cbn [fst snd].
  assert (Hids : fileIds (plugin sf) = fileIds (plugin st)).
  { pose proof (resolver_keeps_fileIds (Path.dirname path) sr) as H1.
    pose proof (read_keeps_plugin f mime st) as H2.
    rewrite Hres in H1. rewrite Hread in H2. unfold same_fileIds in H1.
    cbn [fst] in H1, H2. by rewrite H1, H2. }
  assert (Hset : settings (plugin sf) = settings (plugin st)).
  { pose proof (resolver_keeps_settings (Path.dirname path) sr) as [H1 _].
    pose proof (read_keeps_plugin f mime st) as H2.
    rewrite Hres in H1. rewrite Hread in H2. cbn [fst] in H1, H2. by rewrite H1, H2. }
  destruct (join_absolute cur (name f) Habs) as [Hpath _]. fold path in Hpath.
  split; [done|]. cbn [Js.truthy].
  destruct (String.eqb_spec id "") as [->|Hne]; cbn [negb].
  - split; [done|]. by split.
  - split; [|by split]. intros _. cbn. unfold js_write.
    by rewrite (absolute_not_proto _ Hpath), Hids.
Qed.

End Recording.

(** ** Folders of the store are never duplicated *)

Section FoldersApart.

#[global] Instance apart_step_preorder : PreOrder apart_step.
Proof.
  split.
  - intros st Hnc. exact Hnc.
  - intros a b c H1 H2 Ha. by apply H2, H1.
Qed.

Lemma no_clash_snoc d e :
  no_clash d -> (forall earlier, earlier ∈ d -> ~ clash earlier e) -> no_clash (d ++ [e]).
Proof.
  intros Hd He i j earlier later Hij Hi Hj.
  pose proof (lookup_lt_Some _ _ _ Hj) as Hlen. rewrite length_app in Hlen. simpl in Hlen.
  rewrite lookup_app_l in Hi by lia.
  destruct (decide (j < length d)) as [Hlt|Hge].
  - rewrite lookup_app_l in Hj by lia. exact (Hd i j earlier later Hij Hi Hj).
  - assert (j = length d) as -> by lia.
    rewrite list_lookup_middle in Hj by done. injection Hj as <-.
    apply He. by eapply list_elem_of_lookup_2.
Qed.

Lemma no_match_in d q :
  List.filter (Drive.matches q) d = [] ->
  forall e, e ∈ d -> Drive.matches q e = false.
Proof.
  induction d as [|x d IH]; intros Hf e He; [by apply elem_of_nil in He|].
  simpl in Hf. destruct (Drive.matches q x) eqn:Hx; [done|].
  apply elem_of_cons in He as [->|He]; [done|]. by apply IH.
Qed.

Lemma no_clash_created_folder d part parent id :
  no_clash d ->
  List.filter (Drive.matches (mkQuery part (Some parent))) d = [] ->
  no_clash (d ++ [Drive.entry_of id (CreateFolder part [parent])]).
Proof.
  intros Hd Hf. apply no_clash_snoc; [done|].
  intros earlier Hin (Hfolder & _ & Hname & Hparents).
  pose proof (no_match_in _ _ Hf _ Hin) as Hno.
  unfold Drive.matches in Hno. simpl in *. rewrite Hfolder, Hname, String.eqb_refl in Hno.
  destruct Hparents as [|(p & Hp & Hp')]; [done|].
  apply list_elem_of_singleton in Hp' as ->.
  by rewrite bool_decide_eq_true_2 in Hno.
Qed.

Lemma no_clash_created_root d id :
  no_clash d ->
  List.filter (Drive.matches (mkQuery "Obsidian Vault" None)) d = [] ->
  no_clash (d ++ [Drive.entry_of id (CreateFolder "Obsidian Vault" [])]).
Proof.
  intros Hd Hf. apply no_clash_snoc; [done|].
  intros earlier Hin (Hfolder & _ & Hname & _).
  pose proof (no_match_in _ _ Hf _ Hin) as Hno.
  unfold Drive.matches in Hno. simpl in *.
  by rewrite Hfolder, Hname in Hno.
Qed.

Lemma no_clash_created_file d id n ps mimeType body :
  no_clash d -> no_clash (d ++ [Drive.entry_of id (CreateFile n ps mimeType body)]).
Proof.
  intros Hd. apply no_clash_snoc; [done|]. by intros earlier _ (_ & Hfolder & _).
Qed.

Lemma apart_same (st st' : State Drive.env) :
  entries_of st' = entries_of st -> apart_step st st'.
Proof. intros He Hnc. by rewrite He. Qed.

Lemma apart_call {A} ev (op : Drive.W -> Drive.W * (Exn + A)) :
  (forall w, Drive.entries (fst (op w)) = Drive.entries w) ->
  stable apart_step (call (E:=Drive.env) ev op).
Proof.
  intros Hop st. apply apart_same. unfold call, entries_of.
  specialize (Hop (world st)). by destruct (op (world st)).
Qed.

Lemma apart_emit ev : stable apart_step (emit (E:=Drive.env) ev).
Proof. intros st. by apply apart_same. Qed.

Lemma apart_modify f : stable apart_step (modify (E:=Drive.env) f).
Proof. intros st. by apply apart_same. Qed.

Lemma apart_write_disk f : stable apart_step (write_disk (E:=Drive.env) f).
Proof. intros st. by apply apart_same. Qed.

(** The loop of the resolver creates a folder only after the store
    has answered that no folder of that name exists under that
    parent. *)
Lemma apart_loop parts : forall cur parent (st : State Drive.env),
  apart_step st (fst (ensureDriveFolder_loop parts cur parent st)).
Proof.
  induction parts as [|part rest IH]; intros cur parent st; [reflexivity|].
  rewrite loop_step. cbn zeta.
  destruct (cached (drivefolderIds (plugin st)) (Path.join cur part)); [apply IH|].
  destruct (list_answer (mkQuery part (Some parent)) (world st)) as (w & Hw & [Hl|Hl]);
    rewrite Hl.
  { by apply apart_same. }
  destruct (List.filter (Drive.matches (mkQuery part (Some parent)))
              (Drive.entries (world st))) as [|first others] eqn:Hf; cbn [map].
  - destruct (create_answer (CreateFolder part [parent]) w)
      as (w' & [[Hw' Hc]|(id & Hw' & Hc)]); rewrite Hc.
    { apply apart_same. unfold entries_of. cbn. by rewrite Hw', Hw. }
    etrans; [|apply IH]. intros Hnc. unfold entries_of. cbn. rewrite Hw', Hw.
    by apply no_clash_created_folder.
  - etrans; [|apply IH]. apply apart_same. unfold entries_of. cbn. by rewrite Hw.
Qed.

Lemma apart_resolver folderPath :
  stable apart_step (ensureDriveFolder (E:=Drive.env) folderPath).
Proof. intros st. unfold ensureDriveFolder, bind, gets. apply apart_loop. Qed.

Lemma apart_root : stable apart_step (ensureObsidianFolder (E:=Drive.env)).
Proof.
  intros st. rewrite ensureObsidianFolder_run. cbn zeta.
  destruct (list_answer (mkQuery "Obsidian Vault" None) (world st)) as (w & Hw & [Hl|Hl]);
    rewrite Hl.
  { by apply apart_same. }
  destruct (List.filter (Drive.matches (mkQuery "Obsidian Vault" None))
              (Drive.entries (world st))) as [|first others] eqn:Hf; cbn [map].
  - destruct (create_answer (CreateFolder "Obsidian Vault" []) w)
      as (w' & [[Hw' Hc]|(id & Hw' & Hc)]); rewrite Hc.
    { apply apart_same. unfold entries_of. cbn. by rewrite Hw', Hw. }
    intros Hnc. unfold entries_of. cbn. rewrite Hw', Hw.
    by apply no_clash_created_root.
  - apply apart_same. unfold entries_of. cbn. by rewrite Hw.
Qed.

Lemma apart_uploadFile filePath content mimeType :
  stable apart_step (uploadFile (E:=Drive.env) filePath content mimeType).
Proof.
  unfold uploadFile. apply stable_bind; [apply _|apply apart_resolver|intros parentId].
  apply stable_try_catch; [apply _| |].
  - apply stable_bind; [apply _|apply stable_gets; apply _|]. intros known.
    destruct (Js.truthy known).
    + apply stable_bind; [apply _| |intros id].
      { apply apart_call. intros w. apply update_answer. }
      apply stable_bind; [apply _|apply apart_emit|intros _]. apply stable_ret; apply _.
    + apply stable_bind; [apply _| |intros id].
      { intros st. unfold files_create, call.
        destruct (create_answer (CreateFile (Path.basename filePath) [parentId]
                                   mimeType content) (world st))
          as (w' & [[Hw Hc]|(id & Hw & Hc)]); rewrite Hc.
        - by apply apart_same.
        - intros Hnc. unfold entries_of. cbn. rewrite Hw.
          by apply no_clash_created_file. }
      apply stable_bind; [apply _|apply apart_emit|intros _]. apply stable_ret; apply _.
  - intros e. apply stable_bind; [apply _|apply apart_emit|intros _].
    apply stable_ret; apply _.
Qed.

Lemma apart_uploadObsidianFile f cur :
  stable apart_step (uploadObsidianFile (E:=Drive.env) f cur).
Proof.
  unfold uploadObsidianFile.
  apply stable_bind; [apply _|apply stable_gets; apply _|]. intros last.
  destruct (not_modified f last); [apply apart_emit|].
  unfold upload_and_record, read_content.
  apply stable_bind; [apply _| |intros content].
  { destruct (_ || _);
      (apply stable_bind; [apply _| |intros ?; apply stable_ret; apply _]);
      apply apart_call; intros w; apply failing_keeps_entries. }
  apply stable_bind; [apply _|apply apart_uploadFile|intros fileId].
  destruct (Js.truthy _); [apply apart_modify|apply stable_ret; apply _].
Qed.

Lemma apart_uploadItem item : forall cur,
  stable apart_step (uploadItem (E:=Drive.env) item cur).
Proof.
  induction item as [f|n children IH] using TAbstractFile_ind'; intros cur.
  - apply apart_uploadObsidianFile.
  - rewrite uploadItem_folder.
    apply stable_bind; [apply _|apply apart_resolver|intros _].
    apply stable_for_of; [apply _|].
    eapply Forall_impl; [exact IH|]. intros item H. by apply H.
Qed.

Lemma apart_store_write ev :
  stable apart_step (call (E:=Drive.env) ev (store_write Drive.env)).
Proof. apply apart_call. intros w. apply failing_keeps_entries. Qed.

Lemma apart_saveFileIds : stable apart_step (saveFileIds (E:=Drive.env)).
Proof.
  unfold saveFileIds.
  apply stable_bind; [apply _|apply apart_store_write|intros _].
  apply apart_write_disk.
Qed.

Lemma apart_sync root : stable apart_step (syncWithGoogleDrive (E:=Drive.env) root).
Proof.
  unfold syncWithGoogleDrive, notice.
  apply stable_bind; [apply _|apply stable_gets; apply _|]. intros token.
  destruct (negb _); [apply apart_emit|].
  apply stable_try_catch; [apply _| |].
  - apply stable_bind; [apply _| |intros _].
    { apply apart_call. intros w. apply failing_keeps_entries. }
    apply stable_bind; [apply _|apply apart_emit|intros _].
    apply stable_bind; [apply _|apply apart_modify|intros _].
    apply stable_bind; [apply _|apply apart_root|intros _].
    apply stable_bind; [apply _| |intros _].
    { apply stable_for_of; [apply _|]. apply Forall_forall. intros item _.
      apply apart_uploadItem. }
    apply stable_bind; [apply _| |intros now].
    { apply apart_call. by intros w. }
    apply stable_bind; [apply _|apply apart_modify|intros _].
    apply stable_bind; [apply _| |intros _].
    { unfold saveSettings.
      apply stable_bind; [apply _|apply apart_store_write|intros _].
      apply stable_bind; [apply _|apply stable_gets; apply _|intros s].
      apply apart_write_disk. }
    apply stable_bind; [apply _|apply apart_saveFileIds|intros _].
    apply apart_emit.
  - intros e. unfold console_error.
    apply stable_bind; [apply _|apply apart_emit|intros _]. apply apart_emit.
Qed.

(** X28. Against the in-memory store, sync passes never duplicate a
    folder: a folder is created only after the store has answered
    that none of that name exists under that parent (for the root:
    that none of that name exists at all).  So when no two folders of
    the store clash, none do after any sequence of passes and unloads,
    whatever calls fail on the way. *)
Theorem passes_never_duplicate_folders (ops : list Op) (st : State Drive.env) :
  no_clash (entries_of st) -> no_clash (entries_of (run_ops ops st)).
Proof.
  revert st. induction ops as [|op ops IH]; intros st Hnc; [done|].
  simpl. apply IH. destruct op as [root|]; simpl.
  - by apply apart_sync.
  - by apply apart_saveFileIds.
Qed.

Lemma sync_keeps_root_after_pre_walk root (st s0 : State Drive.env) :
  logged_in st ->
  steps_before_walk st = (s0, inr tt) ->
  obsidianFolderId (plugin (fst (syncWithGoogleDrive root st)))
  = obsidianFolderId (plugin s0).
Proof.
  intros Hin Hpre.
  pose (R := fun s s' : State Drive.env =>
               obsidianFolderId (plugin s') = obsidianFolderId (plugin s)).
  assert (HR : PreOrder R).
  { split; [by intros s|]. intros a b c H1 H2. unfold R in *. congruence. }
  assert (Hwalk : stable R (uploadVaultContents (E:=Drive.env) root)).
  { by apply (stable_uploadFolderContents R). }
  rewrite (sync_unfold _ _ Hin). unfold try_catch, bind at 1.
  rewrite steps_split. unfold bind. rewrite Hpre.
  specialize (Hwalk s0). unfold R in Hwalk.
  destruct (uploadVaultContents root s0) as [sw [e|[]]]; cbn [fst] in Hwalk.
  { by rewrite report_failure_run. }
  rewrite finish_pass_run. cbn zeta.
  destruct (store_write Drive.env (fst (date_now Drive.env (world sw)))) as [w2 [e|[]]];
    [by rewrite report_failure_run|].
  destruct (store_write Drive.env w2) as [w3 [e|[]]]; [by rewrite report_failure_run|done].
Qed.

(** X29. Against the in-memory store, a pass that gets through its walk
    leaves every folder of the vault in the store: the root id the
    plugin holds is the first folder named "Obsidian Vault", and from
    it every folder path of the tree is found segment by segment (a
    first segment named like a member of [Object.prototype] apart, for
    which the resolver never asks the store). *)
Theorem first_pass_mirrors_every_folder
    (root : list TAbstractFile) (st : State Drive.env) :
  logged_in st ->
  snd (steps_before_timestamp root st) = inr tt ->
  let final := fst (syncWithGoogleDrive root st) in
  exists r,
    obsidianFolderId (plugin final) = Some r /\
    first_root (entries_of final) = Some r /\
    Forall (fun path =>
              is_Some (chain (entries_of final) [] (Js.Str r) (pathParts_of path)))
           (folder_paths root "/").
Proof.
  intros Hin Hsteps final.
  destruct (first_pass_on_store root st Hin Hsteps) as (r & Hfirst & Hcov).
  exists r. split; [|by split].
  rewrite steps_split in Hsteps. unfold bind in Hsteps.
  destruct (pre_walk_on_store st _ eq_refl) as (_ & _ & Hroot & _).
  destruct (steps_before_walk st) as [s0 [e|[]]] eqn:Hpre; [done|].
  destruct (Hroot eq_refl) as (r0 & Ho & Hf & _). cbn [fst] in Ho, Hf.
  subst final. rewrite (sync_keeps_root_after_pre_walk root st s0 Hin Hpre), Ho.
  f_equal.
  assert (Hgrow : exists more,
    entries_of (fst (syncWithGoogleDrive root st)) = entries_of s0 ++ more).
  { pose proof (stable_try_catch quiet_pass finish_pass report_failure
                  quiet_finish quiet_report) as Hend.
    rewrite (sync_unfold _ _ Hin). unfold try_catch, bind at 1.
    rewrite steps_split. unfold bind. rewrite Hpre.
    destruct (agrees_initial s0 r0) as [Hp Hc].
    { destruct (pre_walk_on_store st _ eq_refl) as (_ & _ & Hroot' & _).
      rewrite Hpre in Hroot'. destruct (Hroot' eq_refl) as (r1 & Ho1 & _ & Hc1).
      cbn [fst] in Ho1, Hc1. rewrite Ho in Ho1. by injection Ho1 as <-. }
    destruct (first_pass_walk root s0 (conj Hp Hc)) as [[[more Hmore] _] _].
    { by destruct (uploadVaultContents root s0) as [? [?|[]]]. }
    destruct (uploadVaultContents root s0) as [sw [e|[]]] eqn:Hwalk; [done|].
    cbn [fst] in Hmore.
    specialize (Hend sw). destruct Hend as [He _]. unfold try_catch in He.
    exists more. by rewrite <- Hmore. }
  destruct Hgrow as [more Hmore].
  pose proof (first_root_app _ more _ Hf) as Hf'. rewrite <- Hmore in Hf'.
  rewrite Hfirst in Hf'. by injection Hf'.
Qed.

End FoldersApart.

(** ** The statements at concrete runs *)

Section Runs.

Lemma change_detector_at_a_md :
  uploadObsidianFile (with_mtime 500%Z a_md) "/notes" (with_lastSync (Some 500%Z) (start [] 1000))
    = skipped (with_mtime 500%Z a_md) "/notes" (with_lastSync (Some 500%Z) (start [] 1000)) /\
  uploads (with_mtime (500 + 1)%Z a_md) "/notes" (with_lastSync (Some 500%Z) (start [] 1000)).
Proof.
  destruct (change_detector_policy (E:=Drive.env) a_md "/notes" (start [] 1000) 500%Z)
    as (_ & _ & _ & Hskip & Hup).
  split; [exact Hskip|exact Hup].
Defined.

Lemma timestamp_kept_when_root_listing_fails :
  let st := start [false; true] 1000 in
  snd (steps_before_timestamp notes_vault st) = inl "list failed" /\
  lastSyncTimestamp (settings (plugin (fst (syncWithGoogleDrive notes_vault st)))) = None /\
  disk (fst (syncWithGoogleDrive notes_vault st)) = NoData.
Proof.
  assert (H : snd (steps_before_timestamp notes_vault (start [false; true] 1000))
              = inl "list failed") by (vm_compute; reflexivity).
  split; [exact H|].
  exact (lastSyncTimestamp_kept_on_failure (E:=Drive.env) notes_vault _ _ H).
Defined.

(** C3, at two concrete passes: the listing of "notes" fails, or it
    finds nothing and the creation of "notes" fails; either way the
    pass stops there, b.md is never looked at and the pass is reported
    as failed. *)
Lemma folder_failure_stops_the_pass :
  (let final :=
     fst (syncWithGoogleDrive two_item_vault (start [false; false; false; true] 1000)) in
   events final =
     [EvGetAccessToken; EvNotice "Syncing with Google Drive...";
      EvList (mkQuery "Obsidian Vault" None);
      EvCreate (CreateFolder "Obsidian Vault" []);
      EvConsoleLog "Obsidian folder ID: id-0";
      EvList (mkQuery "notes" (Some (Js.Str "id-0")));
      EvConsoleError "Error syncing with Google Drive:" "list failed";
      EvNotice "Error during sync. Please try again."] /\
   (EvRead b_md ∉ events final) /\
   (EvConsoleLog (skip_message "/b.md") ∉ events final) /\
   (EvNotice "Sync complete!" ∉ events final) /\
   lastSyncTimestamp (settings (plugin final)) = None) /\
  (let final :=
     fst (syncWithGoogleDrive two_item_vault
            (start [false; false; false; false; true] 1000)) in
   events final =
     [EvGetAccessToken; EvNotice "Syncing with Google Drive...";
      EvList (mkQuery "Obsidian Vault" None);
      EvCreate (CreateFolder "Obsidian Vault" []);
      EvConsoleLog "Obsidian folder ID: id-0";
      EvList (mkQuery "notes" (Some (Js.Str "id-0")));
      EvCreate (CreateFolder "notes" [Js.Str "id-0"]);
      EvConsoleError "Error syncing with Google Drive:" "create failed";
      EvNotice "Error during sync. Please try again."] /\
   (EvRead b_md ∉ events final) /\
   (EvConsoleLog (skip_message "/b.md") ∉ events final) /\
   (EvNotice "Sync complete!" ∉ events final) /\
   lastSyncTimestamp (settings (plugin final)) = None).
Proof.
  split; intros final.
  - assert (Hev : events final =
      [EvGetAccessToken; EvNotice "Syncing with Google Drive...";
       EvList (mkQuery "Obsidian Vault" None);
       EvCreate (CreateFolder "Obsidian Vault" []);
       EvConsoleLog "Obsidian folder ID: id-0";
       EvList (mkQuery "notes" (Some (Js.Str "id-0")));
       EvConsoleError "Error syncing with Google Drive:" "list failed";
       EvNotice "Error during sync. Please try again."])
      by (vm_compute; reflexivity).
    split; [exact Hev|]. rewrite Hev.
    repeat split; try (vm_compute; reflexivity);
      intros Hin; repeat (apply elem_of_cons in Hin as [Hin|Hin]; [discriminate Hin|]);
      by apply elem_of_nil in Hin.
  - assert (Hev : events final =
      [EvGetAccessToken; EvNotice "Syncing with Google Drive...";
       EvList (mkQuery "Obsidian Vault" None);
       EvCreate (CreateFolder "Obsidian Vault" []);
       EvConsoleLog "Obsidian folder ID: id-0";
       EvList (mkQuery "notes" (Some (Js.Str "id-0")));
       EvCreate (CreateFolder "notes" [Js.Str "id-0"]);
       EvConsoleError "Error syncing with Google Drive:" "create failed";
       EvNotice "Error during sync. Please try again."])
      by (vm_compute; reflexivity).
    split; [exact Hev|]. rewrite Hev.
    repeat split; try (vm_compute; reflexivity);
      intros Hin; repeat (apply elem_of_cons in Hin as [Hin|Hin]; [discriminate Hin|]);
      by apply elem_of_nil in Hin.
Qed.

(** The amended C3 at the same two passes, at the failing list call
    and at the failing create call for "notes"; and at an upload of
    a.md whose parent folder "notes" is not in the cache, the list
    call for it failing. *)
Lemma folder_failure_aborts_at_notes :
  (let st := start [false; false; false; true] 1000 in
   let s0 := fst (steps_before_walk st) in
   let sf := fst (ensureDriveFolder "/notes" s0) in
   let final := fst (syncWithGoogleDrive two_item_vault st) in
   ensureDriveFolder "/notes" s0 = (sf, inl "list failed") /\
   issued_after s0 sf = [EvList (mkQuery "notes" (Some (Js.Str "id-0")))] /\
   issued_after sf final
     = [EvConsoleError "Error syncing with Google Drive:" "list failed";
        EvNotice "Error during sync. Please try again."] /\
   lastSyncTimestamp (settings (plugin final)) = None) /\
  (let st := start [false; false; false; false; true] 1000 in
   let s0 := fst (steps_before_walk st) in
   let sf := fst (ensureDriveFolder "/notes" s0) in
   let final := fst (syncWithGoogleDrive two_item_vault st) in
   ensureDriveFolder "/notes" s0 = (sf, inl "create failed") /\
   issued_after s0 sf = [EvList (mkQuery "notes" (Some (Js.Str "id-0")));
                         EvCreate (CreateFolder "notes" [Js.Str "id-0"])] /\
   issued_after sf final
     = [EvConsoleError "Error syncing with Google Drive:" "create failed";
        EvNotice "Error during sync. Please try again."] /\
   lastSyncTimestamp (settings (plugin final)) = None) /\
  (let s0 := fst (steps_before_walk (start [false; false; false; false; true] 1000)) in
   let sr := fst (read_content a_md "text/markdown" s0) in
   let sf := fst (ensureDriveFolder "/notes" sr) in
   uploadFile "/notes/a.md" (Text "") "text/markdown" sr = (sf, inl "list failed") /\
   uploadFolderContents [File a_md; File b_md] "/notes" s0 = (sf, inl "list failed") /\
   issued_after s0 sf = [EvRead a_md; EvList (mkQuery "notes" (Some (Js.Str "id-0")))]).
Proof.
  destruct (folder_failure_aborts_pass (E:=Drive.env))
    as (Hresolver & _ & Hfile & _ & _ & Hpass).
  split; [|split]; [intros st s0 sf final|intros st s0 sf final|intros s0 sr sf].
  3: { assert (Hfails : folder_operation_fails "/notes" sr sf "list failed").
       { exists [], "notes", [], sr, (Js.Str "id-0").
         split; [reflexivity|]. split; [vm_compute; reflexivity|].
         split; [vm_compute; reflexivity|]. left.
         exists (fst (drive_files_list Drive.env (mkQuery "notes" (Some (Js.Str "id-0")))
                        (world sr))).
         split; vm_compute; reflexivity. }
       destruct (Hfile a_md [File b_md] "/notes" s0 sr sf (Text "") "list failed")
         as [Hup Hwalk];
         [vm_compute; reflexivity|vm_compute; reflexivity|exact Hfails|].
       split; [exact Hup|]. split; [exact Hwalk|vm_compute; reflexivity]. }
  - assert (Hfails : folder_operation_fails "/notes" s0 sf "list failed").
    { exists [], "notes", [], s0, (Js.Str "id-0").
      split; [reflexivity|]. split; [vm_compute; reflexivity|].
      split; [vm_compute; reflexivity|]. left.
      exists (fst (drive_files_list Drive.env (mkQuery "notes" (Some (Js.Str "id-0")))
                     (world s0))).
      split; vm_compute; reflexivity. }
    split; [exact (Hresolver "/notes" s0 sf "list failed" Hfails)|].
    split; [vm_compute; reflexivity|].
    destruct (Hpass "notes" [File a_md] [File b_md] st s0 sf "list failed")
      as (_ & Hissued & _ & Hlast & _);
      [vm_compute; discriminate|vm_compute; reflexivity|exact Hfails|].
    split; [exact Hissued|exact Hlast].
  - assert (Hfails : folder_operation_fails "/notes" s0 sf "create failed").
    { exists [], "notes", [], s0, (Js.Str "id-0").
      split; [reflexivity|]. split; [vm_compute; reflexivity|].
      split; [vm_compute; reflexivity|]. right.
      pose (w := fst (drive_files_list Drive.env (mkQuery "notes" (Some (Js.Str "id-0")))
                        (world s0))).
      exists w, (fst (drive_files_create Drive.env
                        (CreateFolder "notes" [Js.Str "id-0"]) w)).
      split; [vm_compute; reflexivity|]. split; vm_compute; reflexivity. }
    split; [exact (Hresolver "/notes" s0 sf "create failed" Hfails)|].
    split; [vm_compute; reflexivity|].
    destruct (Hpass "notes" [File a_md] [File b_md] st s0 sf "create failed")
      as (_ & Hissued & _ & Hlast & _);
      [vm_compute; discriminate|vm_compute; reflexivity|exact Hfails|].
    split; [exact Hissued|exact Hlast].
Defined.

Lemma failed_create_is_caught_at_a_md :
  let st := before_a_md in
  let final := fst (uploadObsidianFile a_md "/notes" st) in
  uploadObsidianFile a_md "/notes" st = (final, inr tt) /\
  fileIds (plugin final) = fileIds (plugin st) /\
  events final = events st ++
    [EvRead a_md;
     EvCreate (CreateFile "a.md" [Js.Str "id-1"] "text/markdown" (Text ""));
     EvConsoleError "Error uploading file /notes/a.md:" "create failed"].
Proof.
  intros st final.
  pose (sr := fst (read_content a_md "text/markdown" st)).
  pose (sf := fst (ensureDriveFolder "/notes" sr)).
  pose (w := fst (file_answer "/notes/a.md" (Text "") "text/markdown" (Js.Str "id-1") sf)).
  assert (Hmod : not_modified a_md (lastSyncTimestamp (settings (plugin st))) = false)
    by (vm_compute; reflexivity).
  assert (Hread : read_content a_md "text/markdown" st = (sr, inr (Text "")))
    by (vm_compute; reflexivity).
  assert (Hres : ensureDriveFolder "/notes" sr = (sf, inr (Js.Str "id-1")))
    by (vm_compute; reflexivity).
  assert (Hfail : file_answer "/notes/a.md" (Text "") "text/markdown" (Js.Str "id-1") sf
                  = (w, inl "create failed"))
    by (vm_compute; reflexivity).
  destruct (failed_file_call_is_caught (E:=Drive.env) a_md "/notes" st sr sf
              (Text "") (Js.Str "id-1") w "create failed" Hmod Hread Hres Hfail)
    as (_ & Hfile & Hids & _).
  assert (Hfinal : final = after_call sf w
            [file_request "/notes/a.md" (Text "") "text/markdown" (Js.Str "id-1") sf;
             upload_error "/notes/a.md" "create failed"]).
  { unfold final. by rewrite Hfile. }
  split; [by rewrite Hfinal|]. split; [by rewrite Hfinal|].
  rewrite Hfinal. vm_compute. reflexivity.
Defined.

(** C5, at a concrete pass: the id of the new file is on record
    under "/notes/a.md" and nothing is on record under "notes/a.md". *)
Lemma key_of_notes_a_md :
  EvCreate (CreateFile "a.md" [Js.Str "id-1"] "text/markdown" (Text ""))
    ∈ events after_first_pass /\
  fileIds (plugin after_first_pass) !! "notes/a.md" = None /\
  fileIds (plugin after_first_pass) !! "/notes/a.md" = Some (Js.Str "id-2") /\
  dom (fileIds (plugin after_first_pass)) = {["/notes/a.md"]}.
Proof.
  assert (Hmap : fileIds (plugin after_first_pass) = {["/notes/a.md" := Js.Str "id-2"]}).
  { apply map_eq. intros k. vm_compute fileIds.
    destruct (decide (k = "/notes/a.md")) as [->|Hne].
    - vm_compute. reflexivity.
    - rewrite lookup_singleton_ne by done.
      change (<["/notes/a.md" := Js.Str "id-2"]> (∅ : gmap string Js.Val) !! k = None).
      by rewrite lookup_insert_ne. }
  split.
  { assert (Hev : events after_first_pass !! 8%nat =
      Some (EvCreate (CreateFile "a.md" [Js.Str "id-1"] "text/markdown" (Text ""))))
      by (vm_compute; reflexivity).
    by apply list_elem_of_lookup_2 in Hev. }
  rewrite Hmap. split; [done|]. split; [by rewrite lookup_singleton_eq|].
  by rewrite dom_singleton_L.
Qed.

Lemma notes_file_recorded_on_first_pass :
  fileIds (plugin after_first_pass) = <["/notes/a.md" := Js.Str "id-2"]> ∅ /\
  fileIds (plugin after_first_pass) !! "notes/a.md" = None.
Proof.
  pose (st := start [] 1000).
  pose (s0 := fst (steps_before_walk st)).
  pose (s1 := fst (ensureDriveFolder "/notes" s0)).
  pose (s2 := fst (read_content a_md "text/markdown" s1)).
  pose (s3 := fst (ensureDriveFolder "/notes" s2)).
  pose (w := fst (file_answer "/notes/a.md" (Text "") "text/markdown" (Js.Str "id-1") s3)).
  exact (notes_file_recorded_with_leading_slash (E:=Drive.env)
           st s0 s1 s2 s3 (Js.Str "id-1") (Js.Str "id-1") (Text "") w "id-2"
           ltac:(vm_compute; discriminate) ltac:(vm_compute; reflexivity)
           ltac:(vm_compute; reflexivity) ltac:(vm_compute; reflexivity)
           ltac:(vm_compute; reflexivity) ltac:(vm_compute; reflexivity)
           ltac:(vm_compute; reflexivity) ltac:(discriminate)).
Defined.

Lemma reupload_of_a_md_is_an_update :
  List.filter is_remote_call
    (issued_after after_first_pass
       (fst (uploadFile "/notes/a.md" (Text "edited") "text/markdown" after_first_pass)))
  = [EvUpdate (mkUpdate (Js.Str "id-2") "a.md" [Js.Str "id-1"]
                        "text/markdown" (Text "edited"))].
Proof.
  assert (Hres : ensureDriveFolder "/notes" after_first_pass
                 = (after_first_pass, inr (Js.Str "id-1")))
    by (vm_compute; reflexivity).
  assert (Hid : fileIds (plugin after_first_pass) !! "/notes/a.md" = Some (Js.Str "id-2"))
    by (vm_compute; reflexivity).
  exact (proj1 (uploadFile_update_or_create (E:=Drive.env)
                  "/notes/a.md" (Text "edited") "text/markdown"
                  after_first_pass after_first_pass (Js.Str "id-1") eq_refl Hres)
               "id-2" Hid ltac:(discriminate)).
Defined.

Lemma cached_notes_needs_no_call :
  issued_after after_first_pass (fst (ensureDriveFolder "/notes" after_first_pass)) = [].
Proof.
  destruct (resolver_call_bounds (E:=Drive.env) "/notes" after_first_pass)
    as (_ & _ & _ & _ & _ & Hnone).
  apply Hnone. apply List.Forall_cons; [vm_compute; reflexivity|apply List.Forall_nil].
Defined.



End Runs.

(** ** The further statements at concrete runs *)

Section MoreRuns.

Lemma run_pair {A B} (p : A * B) (b : B) : snd p = b -> p = (fst p, b).
Proof. intros <-. by destruct p. Qed.

Lemma start_logged_in faults now : logged_in (start faults now).
Proof. unfold logged_in. simpl. discriminate. Defined.

Lemma plain_notes : plain "notes".
Proof. unfold plain. repeat split; discriminate. Defined.

Lemma plain_a_md : plain "a.md".
Proof. unfold plain. repeat split; discriminate. Defined.

Lemma first_pass_shows_sync_complete :
  logged_in (start [] 1000) /\
  let st := start [] 1000 in
  let body := bind (steps_before_timestamp notes_vault) (fun _ => finish_pass) in
  let shown := notices_of (issued_after st (fst (syncWithGoogleDrive notes_vault st))) in
  match snd (body st), snd (oauth_getAccessToken Drive.env (world st)) with
  | inr _, _ => shown = ["Syncing with Google Drive..."; "Sync complete!"]
  | inl _, inr _ => shown = ["Syncing with Google Drive...";
                             "Error during sync. Please try again."]
  | inl _, inl _ => shown = ["Error during sync. Please try again."]
  end.
Proof.
  split; [apply start_logged_in|].
  exact (pass_shows_one_closing_notice (E:=Drive.env) notes_vault (start [] 1000)
           (start_logged_in [] 1000)).
Defined.

Lemma stale_folder_cache_is_ignored :
  let st := start [] 1000 in
  let cache : gmap string string := {[ "notes" := "id-9" ]} in
  snd (oauth_getAccessToken Drive.env (world st)) = inr tt /\
  syncWithGoogleDrive notes_vault (with_plugin st (set_drivefolderIds cache (plugin st)))
  = syncWithGoogleDrive notes_vault st.
Proof.
  intros st cache.
  assert (Htok : snd (oauth_getAccessToken Drive.env (world st)) = inr tt)
    by reflexivity.
  split; [exact Htok|].
  exact (pass_ignores_earlier_folder_cache (E:=Drive.env) notes_vault st cache
           (start_logged_in [] 1000) Htok).
Defined.

Lemma first_pass_leaves_no_settings_on_disk :
  let st := start [] 1000 in
  let final := fst (syncWithGoogleDrive notes_vault st) in
  let reloaded := fst (onload final) in
  snd (steps_before_timestamp notes_vault st) = inr tt /\
  lastSyncTimestamp (settings (plugin final)) = Some 1000%Z /\
  disk final = SavedString "fileIds" /\
  lastSyncTimestamp (settings (plugin reloaded)) = None /\
  ~ logged_in reloaded /\
  fileIds (plugin reloaded) !! "/notes/a.md" = None.
Proof.
  intros st final reloaded. pose (sw := fst (steps_before_timestamp notes_vault st)).
  assert (Hret : snd (steps_before_timestamp notes_vault st) = inr tt)
    by (vm_compute; reflexivity).
  pose proof (run_pair _ _ Hret) as Hsteps. fold sw in Hsteps.
  assert (Hw1 : store_write Drive.env (fst (date_now Drive.env (world sw)))
                = (fst (date_now Drive.env (world sw)), inr tt))
    by (vm_compute; reflexivity).
  destruct (finished_pass_leaves_no_settings_on_disk (E:=Drive.env) notes_vault st sw _ _
              (start_logged_in [] 1000) Hsteps Hw1 Hw1)
    as (H1 & _ & H3 & H4 & H5 & _ & H7).
  split; [exact Hret|]. split; [exact H1|]. split; [exact H3|].
  split; [exact (f_equal lastSyncTimestamp H4)|]. split; [exact H5|].
  exact (H7 "/notes/a.md" eq_refl).
Defined.

Lemma timestamp_survives_a_failed_save :
  let st := start save_fails 1000 in
  let sw := fst (steps_before_timestamp notes_vault st) in
  let final := fst (syncWithGoogleDrive notes_vault st) in
  snd (steps_before_timestamp notes_vault st) = inr tt /\
  lastSyncTimestamp (settings (plugin final)) = Some (snd (date_now Drive.env (world sw))) /\
  disk final = disk sw /\
  notices_of (issued_after sw final) = ["Error during sync. Please try again."].
Proof.
  intros st sw final.
  assert (Hret : snd (steps_before_timestamp notes_vault st) = inr tt)
    by (vm_compute; reflexivity).
  pose proof (run_pair _ _ Hret) as Hsteps. fold sw in Hsteps.
  assert (Hw1 : store_write Drive.env (fst (date_now Drive.env (world sw)))
                = (fst (store_write Drive.env (fst (date_now Drive.env (world sw)))),
                   inl "write failed"))
    by (vm_compute; reflexivity).
  split; [exact Hret|].
  exact (proj1 (failed_save_keeps_new_timestamp (E:=Drive.env) notes_vault st sw
                  (start_logged_in save_fails 1000) Hsteps) _ _ Hw1).
Defined.

Lemma sync_command_when_logged_out :
  sync_command notes_vault (logged_out []) =
  (with_events (logged_out [])
     (events (logged_out []) ++ [EvNotice "You are not logged in. Please log in first."]),
   inr tt).
Proof.
  apply (proj1 (sync_command_guard (E:=Drive.env) notes_vault (logged_out []))).
  unfold logged_in. simpl. by intros H.
Defined.

Lemma exchange_of_a_code_logs_in :
  let st := logged_out [] in
  let final := fst (exchangeCodeForTokens drive_account "4/abc" st) in
  settings (plugin final)
    = set_googleDriveRefreshToken "refresh-4/abc" (settings (plugin st)) /\
  saved_settings (disk final) = Some (settings (plugin final)) /\
  logged_in final.
Proof.
  intros st final.
  destruct (exchange_stores_refresh_token drive_account "4/abc" st
              (world st) (world st) (mkTokens (Some "refresh-4/abc") (Some "access"))
              "refresh-4/abc" eq_refl eq_refl ltac:(discriminate) eq_refl)
    as (H1 & H2 & _ & _ & H5 & _).
  split; [exact H1|]. split; [exact H2|exact H5].
Defined.

Lemma exchange_of_an_empty_code_changes_nothing :
  let st := logged_out [] in
  let final := fst (exchangeCodeForTokens drive_account "" st) in
  plugin final = plugin st /\ disk final = disk st.
Proof.
  intros st final.
  assert (Hnone : forall tokens,
    snd (oauth_getToken drive_account "" (world st)) = inr tokens ->
    Js.truthy (of_nullable (refresh_token tokens)) = false).
  { intros tokens H. vm_compute in H. by injection H as <-. }
  destruct (exchange_without_token_changes_nothing drive_account "" st Hnone)
    as (H1 & H2 & _).
  split; [exact H1|exact H2].
Defined.

Lemma exchange_with_a_failing_save :
  let st := logged_out [false; true] in
  let final := fst (exchangeCodeForTokens drive_account "4/abc" st) in
  logged_in final /\ disk final = disk st /\
  notices_of (issued_after st final) = ["Authentication failed. Please try again."].
Proof.
  intros st final.
  destruct (exchange_save_failure_keeps_token_in_memory drive_account "4/abc" st
              (Drive.mkW [] [true] 1000) (Drive.mkW [] [] 1000)
              (mkTokens (Some "refresh-4/abc") (Some "access"))
              "refresh-4/abc" "write failed" eq_refl eq_refl ltac:(discriminate) eq_refl)
    as (_ & H2 & H3 & H4).
  split; [exact H2|]. split; [exact H3|exact H4].
Defined.

Lemma emptied_token_field_stops_the_command :
  let final := fst (onChange_refreshToken "" (start [] 1000)) in
  issued_after final (fst (sync_command notes_vault final))
  = [EvNotice "You are not logged in. Please log in first."].
Proof.
  exact (proj2 (proj2 (refresh_token_field_decides_login (E:=Drive.env) ""
                         (start [] 1000) notes_vault)) eq_refl).
Defined.

Lemma root_folder_created_on_an_empty_store :
  let st := start [] 1000 in
  let final := fst (ensureObsidianFolder st) in
  obsidianFolderId (plugin final) = Some "id-0" /\
  count_calls is_create_folder_call (issued_after st final) = 1.
Proof.
  intros st final.
  destruct (proj1 (proj2 (proj2 (root_folder_found_or_created (E:=Drive.env) st)))
              (world st) (Drive.mkW [Drive.mkEntry "id-0" "Obsidian Vault" [] true] [] 1000)
              "id-0" eq_refl eq_refl) as ((_ & Hid & _) & Hcount).
  split; [exact Hid|exact Hcount].
Defined.

Lemma notes_resolved_twice :
  let st := start [] 1000 in
  let st' := fst (ensureDriveFolder "/notes" st) in
  ensureDriveFolder "/notes" st' = (st', inr (Js.Str "id-0")).
Proof.
  intros st st'.
  assert (Hrun : ensureDriveFolder "/notes" st = (st', inr (Js.Str "id-0")))
    by (apply run_pair; vm_compute; reflexivity).
  assert (Hcache : drivefolderIds (plugin st') = {[ "notes" := "id-0" ]})
    by (vm_compute; reflexivity).
  apply (resolving_again_is_silent (E:=Drive.env) "/notes" st st' _ Hrun).
  rewrite Hcache. by apply map_Forall_singleton.
Defined.

Lemma root_entry_is_not_read :
  let st := start [] 1000 in
  snd (ensureDriveFolder "/notes" (cache_folder "/" "id-0" st))
  = snd (ensureDriveFolder "/notes" st).
Proof.
  exact (proj1 (resolver_never_reads_absolute_keys (E:=Drive.env) "/notes" "/" "id-0"
                  (start [] 1000) eq_refl)).
Defined.

Lemma notes_a_md_joined_and_split :
  Path.join ("/" +:+ key_of ["notes"]) "a.md" = "/" +:+ key_of (["notes"] ++ ["a.md"]) /\
  Path.dirname (Path.join ("/" +:+ key_of ["notes"]) "a.md") = "/" +:+ key_of ["notes"] /\
  Path.basename (Path.join ("/" +:+ key_of ["notes"]) "a.md") = "a.md".
Proof.
  destruct (uploader_splits_what_the_walk_joined ["notes"] "a.md"
              ltac:(repeat constructor; apply plain_notes) plain_a_md)
    as (H1 & _ & H3 & H4 & _).
  split; [exact H1|]. split; [exact H3|exact H4].
Defined.

Lemma a_md_at_the_root_needs_no_folder_call :
  let st := start [] 1000 in
  let issued :=
    issued_after st (fst (uploadFile (Path.join "/" "a.md") (Text "") "text/markdown" st)) in
  count_calls is_list_call issued = 0 /\
  count_calls is_create_folder_call issued = 0.
Proof.
  destruct (root_level_file_needs_no_folder_call (E:=Drive.env) "a.md" (Text "")
              "text/markdown" (start [] 1000) plain_a_md) as (_ & H1 & H2 & _).
  split; [exact H1|exact H2].
Defined.

Lemma failed_read_of_a_md :
  let st := start [true] 1000 in
  let sr := fst (read_content a_md (getMimeType (extension a_md)) st) in
  uploadFolderContents [File a_md; File b_md] "/notes" st = (sr, inl "read failed") /\
  issued_after st sr = [read_event a_md].
Proof.
  intros st sr.
  assert (Hread : read_content a_md (getMimeType (extension a_md)) st
                  = (sr, inl "read failed"))
    by (apply run_pair; vm_compute; reflexivity).
  destruct (failed_read_aborts_walk (E:=Drive.env) a_md [File b_md] "/notes" st sr
              "read failed" eq_refl Hread) as (_ & H2 & H3 & _).
  split; [exact H2|exact H3].
Defined.

Lemma stale_record_is_updated_again :
  let final := fst (uploadFile "/a.md" (Text "") "text/markdown" stale_record) in
  snd (uploadFile "/a.md" (Text "") "text/markdown" stale_record) = inr None /\
  fileIds (plugin final) = fileIds (plugin stale_record).
Proof.
  destruct (failed_update_is_retried_as_update (E:=Drive.env) "/a.md" (Text "")
              "text/markdown" stale_record stale_record Js.Null "id-7"
              (world stale_record) "File not found"
              eq_refl eq_refl ltac:(discriminate) eq_refl eq_refl)
    as (H1 & _ & H3 & _).
  split; [exact H1|exact H3].
Defined.

Lemma first_walk_reads_a_md_and_b_md :
  let st := fst (steps_before_walk (start [] 1000)) in
  let issued := issued_after st (fst (uploadFolderContents two_item_vault "/" st)) in
  snd (uploadFolderContents two_item_vault "/" st) = inr tt /\
  List.filter is_read issued = [EvRead a_md; EvRead b_md] /\
  count_calls is_file_call issued = 2.
Proof.
  intros st issued.
  assert (Hret : snd (uploadFolderContents two_item_vault "/" st) = inr tt)
    by (vm_compute; reflexivity).
  split; [exact Hret|].
  exact (proj2 (walk_reads_modified_files_in_order (E:=Drive.env) two_item_vault "/" st)
           Hret).
Defined.

Lemma two_passes_duplicate_no_folder :
  no_clash (entries_of (start [] 1000)) /\
  no_clash (entries_of (run_ops [OpSync notes_vault; OpSync notes_vault] (start [] 1000))).
Proof.
  assert (H0 : no_clash (entries_of (start [] 1000))).
  { intros i j earlier later _ Hi. discriminate Hi. }
  split; [exact H0|].
  exact (passes_never_duplicate_folders [OpSync notes_vault; OpSync notes_vault]
           (start [] 1000) H0).
Defined.

Lemma first_pass_mirrors_notes :
  snd (steps_before_timestamp notes_vault (start [] 1000)) = inr tt /\
  exists r,
    obsidianFolderId (plugin (fst (syncWithGoogleDrive notes_vault (start [] 1000))))
      = Some r /\
    first_root (entries_of (fst (syncWithGoogleDrive notes_vault (start [] 1000)))) = Some r /\
    Forall (fun path =>
              is_Some (chain (entries_of (fst (syncWithGoogleDrive notes_vault (start [] 1000))))
                             [] (Js.Str r) (pathParts_of path)))
           (folder_paths notes_vault "/").
Proof.
  assert (Hret : snd (steps_before_timestamp notes_vault (start [] 1000)) = inr tt)
    by (vm_compute; reflexivity).
  split; [exact Hret|].
  exact (first_pass_mirrors_every_folder notes_vault (start [] 1000)
           (start_logged_in [] 1000) Hret).
Defined.

Lemma recorded_key_of_a_md_is_absolute :
  "/notes/a.md" ∈ dom (fileIds (plugin (run_ops [OpSync notes_vault] (start [] 1000)))) /\
  ("/notes/a.md" ∈ dom (fileIds (plugin (start [] 1000))) \/
   Path.isAbsolute "/notes/a.md" = true).
Proof.
  assert (Hin : "/notes/a.md"
                  ∈ dom (fileIds (plugin (run_ops [OpSync notes_vault] (start [] 1000))))).
  { apply elem_of_dom. exists (Js.Str "id-2"). vm_compute. reflexivity. }
  split; [exact Hin|].
  exact (passes_record_absolute_keys (E:=Drive.env) [OpSync notes_vault] (start [] 1000)
           "/notes/a.md" Hin).
Defined.

Lemma a_md_touched_during_the_first_pass :
  let st := start [] 1000 in
  let final := fst (syncWithGoogleDrive notes_vault st) in
  uploadObsidianFile (with_mtime 1000 a_md) "/notes" final
  = skipped (with_mtime 1000 a_md) "/notes" final.
Proof.
  intros st final.
  assert (Hret : snd (steps_before_timestamp notes_vault st) = inr tt)
    by (vm_compute; reflexivity).
  assert (Hle : (mtime (with_mtime 1000 a_md)
                   <= snd (date_now Drive.env
                             (world (fst (steps_before_timestamp notes_vault st)))))%Z)
    by (vm_compute; discriminate).
  exact (proj1 (files_touched_during_a_pass_are_skipped (E:=Drive.env) notes_vault st _
                  (with_mtime 1000 a_md) "/notes"
                  (start_logged_in [] 1000) (run_pair _ _ Hret) Hle)).
Defined.

Lemma folder_named_constructor_is_not_created :
  ensureDriveFolder (Path.join "/" "constructor") (start [] 1000)
  = (start [] 1000, inr (Js.Inherited "constructor")).
Proof.
  exact (proj1 (prototype_member_folder_is_never_created (E:=Drive.env) "constructor" []
                  (start [] 1000) ltac:(by apply elem_of_cons; left) eq_refl)).
Defined.

Lemma upload_of_a_md_records_its_id :
  fileIds (plugin (fst (uploadObsidianFile a_md "/notes" before_a_md_answered)))
  = <["/notes/a.md" := Js.Str "id-2"]> (fileIds (plugin before_a_md_answered)).
Proof.
  set (st := before_a_md_answered).
  set (sr := fst (read_content a_md (getMimeType (extension a_md)) st)).
  set (sf := fst (ensureDriveFolder "/notes" sr)).
  assert (Hread : read_content a_md (getMimeType (extension a_md)) st = (sr, inr (Text "")))
    by (apply run_pair; vm_compute; reflexivity).
  assert (Hres : ensureDriveFolder (Path.dirname (Path.join "/notes" (name a_md))) sr
                 = (sf, inr (Js.Str "id-1")))
    by (apply run_pair; vm_compute; reflexivity).
  assert (Hanswer :
    file_answer (Path.join "/notes" (name a_md)) (Text "") (getMimeType (extension a_md))
                (Js.Str "id-1") sf
    = (fst (file_answer (Path.join "/notes" (name a_md)) (Text "")
              (getMimeType (extension a_md)) (Js.Str "id-1") sf), inr "id-2"))
    by (apply run_pair; vm_compute; reflexivity).
  exact (proj1 (proj2 (answered_upload_records_the_id (E:=Drive.env) a_md "/notes"
                         st sr sf (Text "") (Js.Str "id-1") _ "id-2"
                         eq_refl eq_refl Hread Hres Hanswer))
           ltac:(discriminate)).
Defined.

End MoreRuns.
